(** * hyperstone: the PE loader plugin

    A shallow embedding of [hyperstone/plugins/base.py] (class [Plugin]) and
    [hyperstone/plugins/loaders/pe.py] (class [PELoader], [calculate_aslr]),
    followed by the properties of the loader that the specification states.

    Python objects that are shared by reference (the emulator, the loader,
    the stream mapper, the permission-override plugin) live once in a
    [World]; methods are computations in a state-and-exception monad over
    that world.  An exception carries the world at the point of the raise,
    so that what a failed call left behind can be stated. *)

From Stdlib Require Import ZArith String List Bool Lia.
From stdpp Require Import base option gmap strings.
Import ListNotations.

Local Open Scope string_scope.
Local Open Scope Z_scope.

(** ** Strings: Python's [needle in hay] *)

Fixpoint startswith (p s : string) : bool :=
  match p, s with
  | EmptyString, _ => true
  | String _ _, EmptyString => false
  | String a p', String b s' => if Ascii.eqb a b then startswith p' s' else false
  end.

Fixpoint str_in (needle hay : string) : bool :=
  startswith needle hay ||
  match hay with
  | EmptyString => false
  | String _ t => str_in needle t
  end.

(** ** The structured view of an image (what [lief.PE.parse] returns) *)

Record AccessType := mkAccess { acc_r : bool; acc_w : bool; acc_x : bool }.

Definition AccessType_NONE := mkAccess false false false.
Definition AccessType_R := mkAccess true false false.
Definition AccessType_W := mkAccess false true false.
Definition AccessType_X := mkAccess false false true.
Definition AccessType_WX := mkAccess false true true.
Definition AccessType_RWX := mkAccess true true true.

Definition access_or (a b : AccessType) : AccessType :=
  mkAccess (acc_r a || acc_r b) (acc_w a || acc_w b) (acc_x a || acc_x b).

Definition access_and (a b : AccessType) : AccessType :=
  mkAccess (acc_r a && acc_r b) (acc_w a && acc_w b) (acc_x a && acc_x b).

Definition access_eqb (a b : AccessType) : bool :=
  Bool.eqb (acc_r a) (acc_r b) && Bool.eqb (acc_w a) (acc_w b)
  && Bool.eqb (acc_x a) (acc_x b).

(** The bytes bound to a segment: a file, or the raw content of a section. *)
Inductive Stream :=
| FileStream (path : string)
| RawStream (content : list Z).

Record PESection := mkSection {
  section_name : string;
  section_virtual_address : Z;
  section_virtual_size : Z;
  section_content : list Z;
  MEM_READ : bool;
  MEM_WRITE : bool;
  MEM_EXECUTE : bool
}.

Record ImportEntry := mkImportEntry {
  import_entry_name : string;
  iat_address : Z
}.

Record Import := mkImport {
  import_name : string;
  import_entries : list ImportEntry
}.

Record ExportEntry := mkExportEntry {
  export_name : string;
  function_rva : Z
}.

(** The export directory of an image, [lief.PE.Export]; an image without
    one has [get_export() = None]. *)
Record Export := mkExport {
  export_entries : list ExportEntry
}.

(** [lief.PE.RelocationEntry.BASE_TYPES]; only [ABS] is singled out by the
    loader. *)
Inductive BASE_TYPES := ABS | HIGH | LOW | HIGHLOW | HIGHADJ | DIR64.

Definition is_ABS (t : BASE_TYPES) : bool :=
  match t with ABS => true | _ => false end.

Record RelocationEntry := mkRelocEntry {
  reloc_type : BASE_TYPES;
  position : Z
}.

Record Relocation := mkReloc {
  reloc_virtual_address : Z;
  reloc_entries : list RelocationEntry
}.

Record Binary := mkBinary {
  is_pie : bool;
  DYNAMIC_BASE : bool;
  HIGH_ENTROPY_VA : bool;
  DLL : bool;
  imagebase : Z;
  sizeof_headers : Z;
  virtual_size : Z;
  sections : list PESection;
  imports : list Import;
  get_export : option Export;
  relocations : list Relocation
}.

(** ** [PELoaderInfo] and [MappedPE] *)

Record PELoaderInfo := mkInfo {
  file : string;
  base : option Z;
  prefer_aslr : bool
}.

Record MappedPE := mkMapped {
  info : PELoaderInfo;
  mapped_base : Z;
  pe : Binary
}.

(** ** Python dictionaries that are iterated: insertion-ordered *)

Fixpoint dict_get {V} (d : list (string * V)) (k : string) : option V :=
  match d with
  | [] => None
  | (k', v) :: d' => if String.eqb k' k then Some v else dict_get d' k
  end.

Definition dict_has {V} (d : list (string * V)) (k : string) : bool :=
  match dict_get d k with Some _ => true | None => false end.

(** [d[k] = v]: an existing key keeps its place, a new key goes last. *)
Fixpoint dict_set {V} (d : list (string * V)) (k : string) (v : V)
  : list (string * V) :=
  match d with
  | [] => [(k, v)]
  | (k', v') :: d' =>
      if String.eqb k' k then (k', v) :: d' else (k', v') :: dict_set d' k v
  end.

Definition dict_keys {V} (d : list (string * V)) : list string := map fst d.

(** ** The memory subsystem (megastone) and the collaborating plugins *)

Record Segment := mkSegment {
  seg_name : string;
  seg_start : Z;
  seg_size : Z;
  seg_perms : AccessType
}.

(** Modelled from the spec: the memory subsystem is an external
    collaborator offering [read_word(addr) -> word] and
    [write_word(addr, word)] and an enumerable list of mapped ranges.  Words
    are kept per address; an address never written reads as 0. *)
Record Memory := mkMemory {
  segments : list Segment;
  words : gmap Z Z
}.

Definition read_word (m : Memory) (addr : Z) : Z := default 0 (words m !! addr).

Definition write_word (m : Memory) (addr value : Z) : Memory :=
  mkMemory (segments m) (<[addr := value]> (words m)).

(** Modelled from the spec: [segment.overlaps(ms.AddressRange(address, size))]
    is the intersection test of two half-open ranges. *)
Definition overlaps (s : Segment) (address size : Z) : bool :=
  (seg_start s <? address + size) && (address <? seg_start s + seg_size s).

Record StreamMapperInfo := mkStreamInfo {
  stream : Stream;
  segment : Segment
}.

Record EnforceMemoryInfo := mkEnforceInfo {
  enforce_segment : option Segment;
  enforce_perms : AccessType
}.

(** The one emulator of the world; [emu : option HyperEmu] is the
    [Optional[HyperEmu]] attribute of a plugin. *)
Inductive HyperEmu := TheEmu.

(** The attributes set by [Plugin.__init__]. *)
Record Plugin (I : Type) := mkPlugin {
  _interact_queue : list I;
  emu : option HyperEmu
}.
Arguments mkPlugin {I}.
Arguments _interact_queue {I}.
Arguments emu {I}.

(** [PELoader]: the [Plugin] attributes and those of [PELoader.__init__];
    the three plugin references are [None] or point to the instance held in
    the world. *)
Record PELoader := mkPELoader {
  loader_plugin : Plugin PELoaderInfo;
  _loaded : list (string * MappedPE);
  _segment_plugin : bool;
  _stream_mapper : bool;
  _enforce_plugin : bool
}.

Inductive LogLevel := DEBUG | INFO | WARNING | ERROR.

Inductive LogMessage :=
| MsgMappingPE (obj : PELoaderInfo)
| MsgNotPIE (obj : PELoaderInfo)
| MsgCannotMapTo (obj : PELoaderInfo)
| MsgPreferredBaseTaken (obj : PELoaderInfo)
| MsgAslrRetry (obj : PELoaderInfo) (retry : nat)
| MsgAslrGenerated (b : Z) (obj : PELoaderInfo)
| MsgAslrFutile
| MsgCannotMapPE (obj : PELoaderInfo)
| MsgWXDetected (name : string)
| MsgMappingSection (name : string) (obj : PELoaderInfo)
| MsgDependencyNotFound (dep : string) (obj : PELoaderInfo)
| MsgMissingSymbol (dep sym : string) (obj : PELoaderInfo)
| MsgLoadingIAT (dep sym : string) (obj : PELoaderInfo).

Record World := mkWorld {
  mem : Memory;                                (* emu.mem *)
  random_draws : nat;                          (* state of the random module *)
  log : list (LogLevel * LogMessage);
  loader : PELoader;
  stream_mapper : Plugin StreamMapperInfo;
  enforce_memory : Plugin EnforceMemoryInfo;
  enforced : list EnforceMemoryInfo
}.

Definition set_mem (m : Memory) (w : World) : World :=
  mkWorld m (random_draws w) (log w) (loader w) (stream_mapper w)
          (enforce_memory w) (enforced w).
Definition set_random_draws (n : nat) (w : World) : World :=
  mkWorld (mem w) n (log w) (loader w) (stream_mapper w)
          (enforce_memory w) (enforced w).
Definition set_log (l : list (LogLevel * LogMessage)) (w : World) : World :=
  mkWorld (mem w) (random_draws w) l (loader w) (stream_mapper w)
          (enforce_memory w) (enforced w).
Definition set_loader (p : PELoader) (w : World) : World :=
  mkWorld (mem w) (random_draws w) (log w) p (stream_mapper w)
          (enforce_memory w) (enforced w).
Definition set_stream_mapper (p : Plugin StreamMapperInfo) (w : World) : World :=
  mkWorld (mem w) (random_draws w) (log w) (loader w) p
          (enforce_memory w) (enforced w).
Definition set_enforce_memory (p : Plugin EnforceMemoryInfo) (w : World) : World :=
  mkWorld (mem w) (random_draws w) (log w) (loader w) (stream_mapper w)
          p (enforced w).
Definition set_enforced (l : list EnforceMemoryInfo) (w : World) : World :=
  mkWorld (mem w) (random_draws w) (log w) (loader w) (stream_mapper w)
          (enforce_memory w) l.

Definition set_loader_plugin (p : Plugin PELoaderInfo) (l : PELoader) : PELoader :=
  mkPELoader p (_loaded l) (_segment_plugin l) (_stream_mapper l) (_enforce_plugin l).
Definition set_loaded (d : list (string * MappedPE)) (l : PELoader) : PELoader :=
  mkPELoader (loader_plugin l) d (_segment_plugin l) (_stream_mapper l)
             (_enforce_plugin l).

(** ** Exceptions and the monad of methods *)

Inductive Exc :=
| HSPluginInteractNotReadyError
| HSPluginBadStateError
| AttributeError
| KeyError
| TypeError
| RecursionError.

Inductive Res (A : Type) :=
| Ok (a : A)
| Raise (e : Exc).
Arguments Ok {A}.
Arguments Raise {A}.

Definition M (A : Type) : Type := World -> Res A * World.

Definition ret {A} (a : A) : M A := fun w => (Ok a, w).

Definition raise {A} (e : Exc) : M A := fun w => (Raise e, w).

Definition bind {A B} (m : M A) (k : A -> M B) : M B :=
  fun w => match m w with
           | (Ok a, w') => k a w'
           | (Raise e, w') => (Raise e, w')
           end.

Declare Scope py_scope.
Delimit Scope py_scope with py.
Notation "x <- m ;; k" := (bind m (fun x => k))
  (at level 100, m at next level, right associativity) : py_scope.
Notation "m ;; k" := (bind m (fun _ => k))
  (at level 100, right associativity) : py_scope.
Local Open Scope py_scope.

Definition get : M World := fun w => (Ok w, w).
Definition modify (f : World -> World) : M unit := fun w => (Ok tt, f w).

Definition log_msg (lvl : LogLevel) (msg : LogMessage) : M unit :=
  modify (fun w => set_log (log w ++ [(lvl, msg)]) w).

(** A [for] loop without [break]: the body runs on each element in turn, an
    exception ends the loop. *)
Fixpoint for_each {A} (l : list A) (body : A -> M unit) : M unit :=
  match l with
  | [] => ret tt
  | x :: l' => body x ;; for_each l' body
  end.

(** ** [hyperstone/plugins/base.py]: class [Plugin] *)

(** A class derived from [Plugin]: where its instance lives in the world,
    and its [_handle_interact]. *)
Record PluginClass (I : Type) := mkClass {
  self_get : World -> Plugin I;
  self_set : Plugin I -> World -> World;
  _handle_interact : list I -> M unit
}.
Arguments mkClass {I}.
Arguments self_get {I}.
Arguments self_set {I}.
Arguments _handle_interact {I}.

(** [Plugin.__init__(self)] takes no argument besides [self]: a call with
    further positional arguments is a [TypeError]. *)
Definition Plugin__init__ {A I} (args : list A) : Res (Plugin I) :=
  match args with
  | [] => Ok (mkPlugin [] None)
  | _ :: _ => Raise TypeError
  end.

Definition ready {I} (p : Plugin I) : bool :=
  match emu p with Some _ => true | None => false end.

(** The body of [Plugin._handle_interact] is [pass]. *)
Definition Plugin_handle_interact {I} (objs : list I) : M unit := ret tt.

Definition Plugin_prepare {I} (C : PluginClass I) (e : HyperEmu) : M unit :=
  self <- (fun w => (Ok (self_get C w), w)) ;;
  if ready self then ret tt
  else
    modify (fun w => self_set C (mkPlugin (_interact_queue (self_get C w)) (Some e)) w) ;;
    queue <- (fun w => (Ok (_interact_queue (self_get C w)), w)) ;;
    _handle_interact C queue ;;
    modify (fun w => self_set C (mkPlugin [] (emu (self_get C w))) w).

Definition Plugin_interact {I} (C : PluginClass I) (objs : list I) : M unit :=
  self <- (fun w => (Ok (self_get C w), w)) ;;
  if ready self then _handle_interact C objs
  else modify (fun w =>
         self_set C (mkPlugin (_interact_queue (self_get C w) ++ objs)
                              (emu (self_get C w))) w).

(** ** What the loader takes from outside the package *)

(** [ext_is_mapped] is megastone's [emu.mem.is_mapped(address, size)];
    [ext_random n] is the [n]-th raw draw of the [random] module;
    [ext_parse] is [lief.PE.parse] ([None] when the file is no PE image);
    [ext_bind] is what binding a byte stream to a segment does to the words
    of the memory. *)
Record External := mkExternal {
  ext_is_mapped : Memory -> Z -> Z -> bool;
  ext_random : nat -> Z;
  ext_parse : string -> option Binary;
  ext_bind : Stream -> Segment -> gmap Z Z -> gmap Z Z
}.

Definition dquote : string := String (Ascii.ascii_of_nat 34) EmptyString.

Inductive LoopExit :=
| Broke (item : MappedPE)
| Finished (loaded_item : option MappedPE).

Section Loader.

Context (ext : External).

(** *** The plugin classes of the world *)

(** [PELoader] does not define [_handle_interact]: it inherits the one of
    [Plugin]. *)
Definition PELoaderClass : PluginClass PELoaderInfo :=
  mkClass (fun w => loader_plugin (loader w))
          (fun p w => set_loader (set_loader_plugin p (loader w)) w)
          Plugin_handle_interact.

(** Modelled from the spec: [StreamMapper] ([hyperstone.plugins.memory]),
    a [Plugin] whose handler creates the named segment in the memory
    subsystem and binds the byte source to it. *)
Definition StreamMapper_handle_interact (objs : list StreamMapperInfo) : M unit :=
  for_each objs (fun o =>
    modify (fun w =>
      set_mem (mkMemory (segments (mem w) ++ [segment o])
                        (ext_bind ext (stream o) (segment o) (words (mem w)))) w)).

Definition StreamMapperClass : PluginClass StreamMapperInfo :=
  mkClass stream_mapper set_stream_mapper StreamMapper_handle_interact.

(** Modelled from the spec: [EnforceMemory] ([hyperstone.plugins.memory]),
    a [Plugin] with which the intended permission of a segment is
    registered. *)
Definition EnforceMemory_handle_interact (objs : list EnforceMemoryInfo) : M unit :=
  modify (fun w => set_enforced (enforced w ++ objs) w).

Definition EnforceMemoryClass : PluginClass EnforceMemoryInfo :=
  mkClass enforce_memory set_enforce_memory EnforceMemory_handle_interact.

(** Modelled from the spec: [Segment.mapped(name)], the lookup by name of
    the segment registrar. *)
Definition Segment_mapped (name : string) (m : Memory) : option Segment :=
  List.find (fun s => String.eqb (seg_name s) name) (segments m).

(** ** [hyperstone/plugins/loaders/pe.py] *)

Definition getrandbits (k : Z) : M Z :=
  fun w => (Ok (ext_random ext (random_draws w) mod 2 ^ k),
            set_random_draws (S (random_draws w)) w).

Definition aslr_base_value (high_entropy is_dll : bool) : Z :=
  if high_entropy && is_dll then 0x00007ff000000000 else 0.

Definition aslr_bits_amount (high_entropy is_dll : bool) : Z :=
  if high_entropy && is_dll then 19
  else if high_entropy && negb is_dll then 17
  else if negb high_entropy && is_dll then 14
  else 8.

Definition calculate_aslr (high_entropy is_dll : bool) : M Z :=
  r <- getrandbits (aslr_bits_amount high_entropy is_dll) ;;
  ret (aslr_base_value high_entropy is_dll + Z.shiftl r 16).

Definition section_perms_to_ms (section : PESection) : M AccessType :=
  let access := AccessType_NONE in
  let access := if MEM_READ section then access_or access AccessType_R else access in
  let access := if MEM_WRITE section then access_or access AccessType_W else access in
  let access := if MEM_EXECUTE section then access_or access AccessType_X else access in
  (if access_eqb (access_and access AccessType_WX) AccessType_WX
   then log_msg INFO (MsgWXDetected (section_name section))
   else ret tt) ;;
  ret access.

Definition PELoader__init__ (files : list PELoaderInfo) : Res PELoader :=
  match Plugin__init__ files with
  | Ok p => Ok (mkPELoader p [] false false false)
  | Raise e => Raise e
  end.

Definition self_ready : M bool :=
  fun w => (Ok (ready (loader_plugin (loader w))), w).

(** [self._loaded[k]] *)
Definition loaded_item_of (k : string) : M MappedPE :=
  fun w => match dict_get (_loaded (loader w)) k with
           | Some m => (Ok m, w)
           | None => (Raise KeyError, w)
           end.

Fixpoint no_segment_overlaps (segs : list Segment) (address size : Z) : bool :=
  match segs with
  | [] => true
  | s :: segs' =>
      if overlaps s address size then false
      else no_segment_overlaps segs' address size
  end.

Definition is_base_ok (address : Z) (obj : Binary) : M bool :=
  rdy <- self_ready ;;
  if negb rdy then raise HSPluginInteractNotReadyError
  else
    w <- get ;;
    if ext_is_mapped ext (mem w) address (virtual_size obj) then ret false
    else ret (no_segment_overlaps (segments (mem w)) address (virtual_size obj)).

(** The [while] loop of [_pick_base]; [retry] counts down from 5. *)
Fixpoint aslr_retry (obj : PELoaderInfo) (parsed : Binary)
    (high_entropy is_dll : bool) (retry : nat) (candidate : Z) : M Z :=
  ok <- is_base_ok candidate parsed ;;
  match retry with
  | O => ret candidate
  | S retry' =>
      if ok then ret candidate
      else
        log_msg WARNING (MsgAslrRetry obj retry') ;;
        candidate' <- calculate_aslr high_entropy is_dll ;;
        aslr_retry obj parsed high_entropy is_dll retry' candidate'
  end.

(** The three stages of [_pick_base]; each yields [Some b] where the source
    returns [b], and [None] where control goes on to the next stage. *)
Definition pick_user_base (obj : PELoaderInfo) (parsed : Binary) : M (option Z) :=
  match base obj with
  | None => ret None
  | Some b =>
      if negb (is_pie parsed) then
        log_msg ERROR (MsgNotPIE obj) ;; ret None
      else
        ok <- is_base_ok b parsed ;;
        if ok then ret (Some b)
        else log_msg WARNING (MsgCannotMapTo obj) ;; ret None
  end.

Definition pick_preferred_base (obj : PELoaderInfo) (parsed : Binary) : M (option Z) :=
  let prefer_aslr := prefer_aslr obj && DYNAMIC_BASE parsed in
  if negb prefer_aslr then
    ok <- is_base_ok (imagebase parsed) parsed ;;
    if ok then ret (Some (imagebase parsed))
    else log_msg WARNING (MsgPreferredBaseTaken obj) ;; ret None
  else ret None.

Definition pick_aslr_base (obj : PELoaderInfo) (parsed : Binary) : M (option Z) :=
  if is_pie parsed then
    let high_entropy := HIGH_ENTROPY_VA parsed in
    let is_dll := DLL parsed in
    c <- calculate_aslr high_entropy is_dll ;;
    b <- aslr_retry obj parsed high_entropy is_dll 5 (c + imagebase parsed) ;;
    ok <- is_base_ok b parsed ;;
    if ok then log_msg DEBUG (MsgAslrGenerated b obj) ;; ret (Some b)
    else log_msg ERROR MsgAslrFutile ;; ret None
  else ret None.

Definition _pick_base (obj : PELoaderInfo) (parsed : option Binary) : M Z :=
  rdy <- self_ready ;;
  if negb rdy then raise HSPluginInteractNotReadyError
  else
    match parsed with
    | None => raise AttributeError
    | Some parsed =>
        user <- pick_user_base obj parsed ;;
        match user with
        | Some b => ret b
        | None =>
            preferred <- pick_preferred_base obj parsed ;;
            match preferred with
            | Some b => ret b
            | None =>
                aslr <- pick_aslr_base obj parsed ;;
                match aslr with
                | Some b => ret b
                | None =>
                    log_msg ERROR (MsgCannotMapPE obj) ;;
                    raise HSPluginBadStateError
                end
            end
        end
    end.

Definition header_segment_name (pefile : PELoaderInfo) : string :=
  ("PE.HEADER." ++ dquote ++ file pefile ++ dquote)%string.

Definition section_segment_name (pefile : PELoaderInfo) (section : PESection) : string :=
  ("PE.SECTION." ++ dquote ++ file pefile ++ dquote ++ "." ++
   dquote ++ section_name section ++ dquote)%string.

Definition the_stream_mapper : M unit :=
  fun w => if _stream_mapper (loader w) then (Ok tt, w) else (Raise AttributeError, w).

Definition _map_headers (pefile : PELoaderInfo) : M unit :=
  rdy <- self_ready ;;
  if negb rdy then raise HSPluginInteractNotReadyError
  else
    the_stream_mapper ;;
    m <- loaded_item_of (file pefile) ;;
    Plugin_interact StreamMapperClass
      [mkStreamInfo (FileStream (file pefile))
         (mkSegment (header_segment_name pefile) (mapped_base m)
                    (sizeof_headers (pe m)) AccessType_R)].

Definition _map_section (section : PESection) (pefile : PELoaderInfo) : M unit :=
  rdy <- self_ready ;;
  if negb rdy then raise HSPluginInteractNotReadyError
  else
    permission <- section_perms_to_ms section ;;
    let enforce_perm := permission in
    w <- get ;;
    let has_enforce := _enforce_plugin (loader w) in
    let permission := if has_enforce then AccessType_RWX else permission in
    let segment_name := section_segment_name pefile section in
    log_msg DEBUG (MsgMappingSection (section_name section) pefile) ;;
    the_stream_mapper ;;
    m <- loaded_item_of (file pefile) ;;
    Plugin_interact StreamMapperClass
      [mkStreamInfo (RawStream (section_content section))
         (mkSegment segment_name (mapped_base m + section_virtual_address section)
                    (section_virtual_size section) permission)] ;;
    if has_enforce then
      Plugin_prepare StreamMapperClass TheEmu ;;
      (if _segment_plugin (loader w) then ret tt else raise AttributeError) ;;
      w' <- get ;;
      Plugin_interact EnforceMemoryClass
        [mkEnforceInfo (Segment_mapped segment_name (mem w')) enforce_perm]
    else ret tt.

(** The dictionary [exports] built at the head of [_load_iat]: a later
    entry of the same name replaces an earlier one. *)
Definition build_exports (entries : list ExportEntry) : gmap string ExportEntry :=
  fold_left (fun exports export => <[export_name export := export]> exports)
            entries ∅.

(** The body of the second loop of [_load_iat], over [dependency.entries]. *)
Definition load_iat_entry (pefile : PELoaderInfo) (dependency : Import)
    (lib : MappedPE) (my_base : Z) (exports : gmap string ExportEntry)
    (entry : ImportEntry) : M unit :=
  match exports !! import_entry_name entry with
  | None =>
      log_msg ERROR (MsgMissingSymbol (import_name dependency)
                                      (import_entry_name entry) pefile)
  | Some export =>
      log_msg DEBUG (MsgLoadingIAT (import_name dependency)
                                   (export_name export) pefile) ;;
      modify (fun w =>
        set_mem (write_word (mem w) (my_base + iat_address entry)
                            (mapped_base lib + function_rva export)) w)
  end.

(** [parsed.get_export().entries] is an [AttributeError] when the image has
    no export directory. *)
Definition _load_iat (pefile : PELoaderInfo) (dependency : Import)
    (lib : MappedPE) : M unit :=
  rdy <- self_ready ;;
  if negb rdy then raise HSPluginInteractNotReadyError
  else
    me <- loaded_item_of (file pefile) ;;
    let my_base := mapped_base me in
    l <- loaded_item_of (file (info lib)) ;;
    match get_export (pe l) with
    | None => raise AttributeError
    | Some directory =>
        let exports := build_exports (export_entries directory) in
        for_each (import_entries dependency)
                 (load_iat_entry pefile dependency lib my_base exports)
    end.

(** The body of the inner loop of [_handle_reloc]; [self.emu.mem] fails on
    a loader that has no emulator. *)
Definition reloc_entry (parsed : Binary) (base : Z) (reloc : Relocation)
    (entry : RelocationEntry) : M unit :=
  if is_ABS (reloc_type entry) then ret tt
  else
    let reloc_offset := base + reloc_virtual_address reloc + position entry in
    rdy <- self_ready ;;
    if negb rdy then raise AttributeError
    else
      modify (fun w =>
        let old_val := read_word (mem w) reloc_offset in
        set_mem (write_word (mem w) reloc_offset
                            (old_val - imagebase parsed + base)) w).

Definition _handle_reloc (pefile : PELoaderInfo) : M unit :=
  m <- loaded_item_of (file pefile) ;;
  let parsed := pe m in
  let base := mapped_base m in
  for_each (relocations parsed) (fun reloc =>
    for_each (reloc_entries reloc) (reloc_entry parsed base reloc)).

(** *** [_handle_iats]

    [handle] stands for the recursive call [self._handle].  The loop over
    [self._interact_queue] ends at the first request whose path contains
    the name; the loop over the keys of [self._loaded.copy()] ends by
    [break] at the first key that contains the name, and otherwise runs to
    its [else]. *)
Fixpoint scan_queue (handle : PELoaderInfo -> M unit) (name : string)
    (queue : list PELoaderInfo) (loaded_item : option MappedPE)
  : M (option MappedPE) :=
  match queue with
  | [] => ret loaded_item
  | item :: queue' =>
      if str_in name (file item) then
        handle item ;;
        m <- loaded_item_of (file item) ;;
        ret (Some m)
      else scan_queue handle name queue' loaded_item
  end.

Fixpoint scan_loaded (handle : PELoaderInfo -> M unit) (name : string)
    (keys : list string) (loaded_item : option MappedPE) : M LoopExit :=
  match keys with
  | [] => ret (Finished loaded_item)
  | loaded :: keys' =>
      if negb (str_in name loaded) then
        w <- get ;;
        loaded_item' <- scan_queue handle name
                          (_interact_queue (loader_plugin (loader w))) loaded_item ;;
        scan_loaded handle name keys' loaded_item'
      else
        m <- loaded_item_of loaded ;;
        ret (Broke m)
  end.

(** The body of the loop over [parsed.imports]. *)
Definition handle_dependency (handle : PELoaderInfo -> M unit)
    (pefile : PELoaderInfo) (dependency : Import) : M unit :=
  w <- get ;;
  r <- scan_loaded handle (import_name dependency)
                   (dict_keys (_loaded (loader w))) None ;;
  match r with
  | Finished None =>
      log_msg WARNING (MsgDependencyNotFound (import_name dependency) pefile)
  | Finished (Some loaded_item) => _load_iat pefile dependency loaded_item
  | Broke loaded_item => _load_iat pefile dependency loaded_item
  end.

Definition _handle_iats (handle : PELoaderInfo -> M unit)
    (pefile : PELoaderInfo) : M unit :=
  rdy <- self_ready ;;
  if negb rdy then raise HSPluginInteractNotReadyError
  else
    m <- loaded_item_of (file pefile) ;;
    for_each (imports (pe m)) (handle_dependency handle pefile).

(** *** [_handle]

    [_handle] and [_handle_iats] call each other; [depth] bounds the
    nesting of those calls, and running out of it is Python's
    [RecursionError]. *)
Fixpoint _handle (depth : nat) (obj : PELoaderInfo) : M unit :=
  match depth with
  | O => raise RecursionError
  | S depth' =>
      w <- get ;;
      if dict_has (_loaded (loader w)) (file obj) then ret tt
      else
        log_msg INFO (MsgMappingPE obj) ;;
        let parsed := ext_parse ext (file obj) in
        base_address <- _pick_base obj parsed ;;
        match parsed with
        | None => raise AttributeError
        | Some parsed =>
            modify (fun w =>
              set_loader (set_loaded (dict_set (_loaded (loader w)) (file obj)
                                               (mkMapped obj base_address parsed))
                                     (loader w)) w) ;;
            _map_headers obj ;;
            for_each (sections parsed) (fun section => _map_section section obj) ;;
            _handle_iats (_handle depth') obj ;;
            _handle_reloc obj
        end
  end.

(** The public queue interface of the loader: [interact] and [prepare] as
    [PELoader] inherits them from [Plugin]. *)
Definition PELoader_interact (objs : list PELoaderInfo) : M unit :=
  Plugin_interact PELoaderClass objs.

Definition PELoader_prepare (e : HyperEmu) : M unit :=
  Plugin_prepare PELoaderClass e.

End Loader.

(** *** The rest of [PELoader] and [MappedPE] *)

(** [PELoader.__getitem__]: [self._loaded[item]]. *)
Definition PELoader__getitem__ (item : string) : M MappedPE :=
  fun w => match dict_get (_loaded (loader w)) item with
           | Some m => (Ok m, w)
           | None => (Raise KeyError, w)
           end.

(** What [MappedPE.entrypoint] and [MappedPE.function] read of [self.pe]
    beyond the view above: the entry point of the optional header, and the
    functions of the image, the exported ones apart. *)
Record PEFunction := mkFunction {
  function_name : string;
  function_address : Z
}.

Record PECode := mkCode {
  addressof_entrypoint : Z;
  exported_functions : list PEFunction;
  functions : list PEFunction
}.

Definition MappedPE_entrypoint (self : MappedPE) (code : PECode) : Z :=
  mapped_base self + addressof_entrypoint code.

(** The loop of [MappedPE.function] over
    [chain(self.pe.exported_functions, self.pe.functions)]. *)
Fixpoint function_scan (base : Z) (name : string) (funcs : list PEFunction)
  : option Z :=
  match funcs with
  | [] => None
  | func :: funcs' =>
      if String.eqb (function_name func) name
      then Some (base + function_address func)
      else function_scan base name funcs'
  end.

(** [MappedPE.function]: the address found, or [None] after the error
    record; the records it logs are returned beside the result. *)
Definition MappedPE_function (self : MappedPE) (code : PECode) (name : string)
  : option Z * list (LogLevel * string) :=
  match function_scan (mapped_base self) name
          (exported_functions code ++ functions code) with
  | Some address => (Some address, [])
  | None => (None, [(ERROR, ("Function " ++ name ++ " not found")%string)])
  end.

(** * Notions in which the properties are stated *)

(** ** The public queue interface, frames and invariants *)

(** A call of the public queue interface of a loader. *)
Inductive QueueCall :=
| CallInteract (objs : list PELoaderInfo)
| CallPrepare (e : HyperEmu).

Definition run_call (c : QueueCall) : M unit :=
  match c with
  | CallInteract objs => PELoader_interact objs
  | CallPrepare e => PELoader_prepare e
  end.

(** [preserves P m]: however [m] ends, by a result or by an exception, the
    world it leaves is related by [P] to the one it started in. *)
Definition preserves {A} (P : relation World) (m : M A) : Prop :=
  forall w r w', m w = (r, w') -> P w w'.

(** Only the log and the state of the random module may differ. *)
Definition same_but_log_random : relation World := fun w w' =>
  mem w' = mem w /\ loader w' = loader w /\
  stream_mapper w' = stream_mapper w /\
  enforce_memory w' = enforce_memory w /\ enforced w' = enforced w.

(** The loader object itself is untouched. *)
Definition same_loader : relation World := fun w w' => loader w' = loader w.

(** Every entry of the table sits under the file of its request. *)
Definition table_wf (w : World) : Prop :=
  forall k m, dict_get (_loaded (loader w)) k = Some m -> file (info m) = k.

(** The loader keeps its queue, its emulator and its plugin references, and
    every entry of its table; entries may have been added, each under the
    file of its request. *)
Definition loaded_grows : relation World := fun w w' =>
  loader_plugin (loader w') = loader_plugin (loader w) /\
  _segment_plugin (loader w') = _segment_plugin (loader w) /\
  _stream_mapper (loader w') = _stream_mapper (loader w) /\
  _enforce_plugin (loader w') = _enforce_plugin (loader w) /\
  (forall k v, dict_get (_loaded (loader w)) k = Some v ->
               dict_get (_loaded (loader w')) k = Some v) /\
  (table_wf w -> table_wf w').

(** [steady m]: [m] does not end in [RecursionError]. *)
Definition steady {A} (m : M A) : Prop :=
  forall w r w', m w = (r, w') -> r <> Raise RecursionError.

(** The pending requests whose file is not in the table. *)
Definition pending_unloaded (w : World) : nat :=
  length (List.filter (fun item => negb (dict_has (_loaded (loader w)) (file item)))
                      (_interact_queue (loader_plugin (loader w)))).

(** The queue of the loader is [q], and fewer than [d] of its requests are
    not mapped. *)
Definition within (d : nat) (q : list PELoaderInfo) (w : World) : Prop :=
  _interact_queue (loader_plugin (loader w)) = q /\ (pending_unloaded w < d)%nat.

(** Only the memory words and the log differ. *)
Definition same_but_words_log : relation World := fun w w' =>
  loader w' = loader w /\ segments (mem w') = segments (mem w) /\
  random_draws w' = random_draws w /\ stream_mapper w' = stream_mapper w /\
  enforce_memory w' = enforce_memory w /\ enforced w' = enforced w.

(** ** Placement *)

Section PlacementNotions.

Context (ext : External).

(** What [is_base_ok] answers on a memory: the range is not reported mapped
    and meets no segment the memory lists. *)
Definition base_free (m : Memory) (address : Z) (obj : Binary) : bool :=
  negb (ext_is_mapped ext m address (virtual_size obj)) &&
  no_segment_overlaps (segments m) address (virtual_size obj).

(** The value [calculate_aslr] returns on the [n]-th draw of the random
    module. *)
Definition aslr_value (high_entropy is_dll : bool) (n : nat) : Z :=
  aslr_base_value high_entropy is_dll +
  Z.shiftl (ext_random ext n mod 2 ^ aslr_bits_amount high_entropy is_dll) 16.

(** The candidates of the ASLR path in the order they are tried, when the
    random module stands at draw [n]: the first one has the preferred base
    added, the five of the retries are results of [calculate_aslr] alone. *)
Definition aslr_candidates (parsed : Binary) (n : nat) : list Z :=
  (aslr_value (HIGH_ENTROPY_VA parsed) (DLL parsed) n + imagebase parsed) ::
  map (aslr_value (HIGH_ENTROPY_VA parsed) (DLL parsed)) (seq (S n) 5).

(** The decision of [_pick_base] as the specification words it: the
    explicit base of a relocatable image if free; else the preferred base
    if free, unless randomization is requested and supported; else, for a
    relocatable image, the first free ASLR candidate. *)
Definition user_choice (obj : PELoaderInfo) (parsed : Binary) (m : Memory) : option Z :=
  match base obj with
  | Some b => if is_pie parsed && base_free m b parsed then Some b else None
  | None => None
  end.

Definition preferred_choice (obj : PELoaderInfo) (parsed : Binary) (m : Memory)
  : option Z :=
  if negb (prefer_aslr obj && DYNAMIC_BASE parsed) &&
     base_free m (imagebase parsed) parsed
  then Some (imagebase parsed) else None.

Definition aslr_choice (parsed : Binary) (m : Memory) (n : nat) : option Z :=
  if is_pie parsed
  then List.find (fun c => base_free m c parsed) (aslr_candidates parsed n)
  else None.

Definition pick_base_spec (obj : PELoaderInfo) (parsed : Binary) (m : Memory)
    (n : nat) : option Z :=
  match user_choice obj parsed m with
  | Some b => Some b
  | None =>
      match preferred_choice obj parsed m with
      | Some b => Some b
      | None => aslr_choice parsed m n
      end
  end.

End PlacementNotions.

(** Two mapped images whose ranges [base, base + virtual size) meet. *)
Definition image_ranges_overlap (a b : MappedPE) : bool :=
  (mapped_base a <? mapped_base b + virtual_size (pe b)) &&
  (mapped_base b <? mapped_base a + virtual_size (pe a)).

(** ** Relocation and import resolution *)

(** The addresses that the relocation entries of a mapped image patch, in
    the order of the table: one per entry whose type is not [ABS]. *)
Definition block_targets (base : Z) (reloc : Relocation) : list Z :=
  map (fun entry => base + reloc_virtual_address reloc + position entry)
      (List.filter (fun entry => negb (is_ABS (reloc_type entry))) (reloc_entries reloc)).

Definition reloc_targets (m : MappedPE) : list Z :=
  flat_map (block_targets (mapped_base m)) (relocations (pe m)).

(** [w'] is [w] with [delta] added to the word at each address of
    [targets], once per occurrence; nothing else differs. *)
Definition patched (delta : Z) (targets : list Z) (w w' : World) : Prop :=
  w' = set_mem (mem w') w /\
  segments (mem w') = segments (mem w) /\
  forall a, read_word (mem w') a =
            read_word (mem w) a + Z.of_nat (count_occ Z.eq_dec targets a) * delta.

(** The writes of the loop of [_load_iat], in order: one per import entry
    whose name the export dictionary knows. *)
Definition iat_writes (lib : MappedPE) (my_base : Z)
    (exports : gmap string ExportEntry) (entries : list ImportEntry)
  : list (Z * Z) :=
  flat_map (fun entry =>
    match exports !! import_entry_name entry with
    | Some export => [(my_base + iat_address entry,
                       mapped_base lib + function_rva export)]
    | None => []
    end) entries.

Definition apply_writes (writes : list (Z * Z)) (m : Memory) : Memory :=
  fold_left (fun m '(a, v) => write_word m a v) writes m.

(** The first pending request whose path contains the name, and the first
    key of the table that contains it. *)
Definition queue_candidate (name : string) (queue : list PELoaderInfo)
  : option PELoaderInfo :=
  List.find (fun item => str_in name (file item)) queue.

Definition mapped_candidate (name : string) (keys : list string) : option string :=
  List.find (str_in name) keys.

(** The outcome of the walk when nothing is left to load. *)
Definition walk_outcome (name : string) (keys : list string)
    (loaded_item : option MappedPE) : M LoopExit :=
  match mapped_candidate name keys with
  | Some key => m <- loaded_item_of key ;; ret (Broke m)
  | None => ret (Finished loaded_item)
  end.

Section LookupNotions.

Context (ext : External).

(** The lookup of one dependency, stated as a specification: the
    keys of the table are walked in insertion order and the first key that
    contains the declared name supplies the exports; when the walk starts on
    a key that does not contain the name, the first pending request whose
    path contains it is first loaded through [_handle]; that request
    supplies the exports when no key of the table (as the walk found it)
    contains the name; with neither candidate the dependency is skipped with
    a warning. *)
Definition resolve_dependency (depth : nat) (pefile : PELoaderInfo)
    (dependency : Import) : M unit :=
  w <- get ;;
  let name := import_name dependency in
  let keys := dict_keys (_loaded (loader w)) in
  let pending :=
    queue_candidate name (_interact_queue (loader_plugin (loader w))) in
  match keys with
  | [] => log_msg WARNING (MsgDependencyNotFound name pefile)
  | first :: _ =>
      (if str_in name first then ret tt
       else match pending with
            | Some item => _handle ext depth item
            | None => ret tt
            end) ;;
      match mapped_candidate name keys with
      | Some key =>
          m <- loaded_item_of key ;;
          _load_iat pefile dependency m
      | None =>
          match pending with
          | Some item =>
              m <- loaded_item_of (file item) ;;
              _load_iat pefile dependency m
          | None => log_msg WARNING (MsgDependencyNotFound name pefile)
          end
      end
  end.

End LookupNotions.

(** The image on which the lookup of [name] ends, read in the table of
    [w']: that of the first key among [keys] that contains the name, or
    else that of the first pending request whose path contains it. *)
Definition resolved_image (name : string) (keys : list string)
    (queue : list PELoaderInfo) (w' : World) (image : MappedPE) : Prop :=
  match mapped_candidate name keys with
  | Some key => dict_get (_loaded (loader w')) key = Some image
  | None =>
      match queue_candidate name queue with
      | Some item => dict_get (_loaded (loader w')) (file item) = Some image
      | None => False
      end
  end.

(** ** Notions for the further properties *)

(** The permission set that the characteristics of a section stand for. *)
Definition section_access (section : PESection) : AccessType :=
  mkAccess (MEM_READ section) (MEM_WRITE section) (MEM_EXECUTE section).

(** The mapping requests that [_map_headers] and [_map_section] hand to the
    stream mapper for an image mapped as [m]. *)
Definition header_request (pefile : PELoaderInfo) (m : MappedPE) : StreamMapperInfo :=
  mkStreamInfo (FileStream (file pefile))
    (mkSegment (header_segment_name pefile) (mapped_base m)
               (sizeof_headers (pe m)) AccessType_R).

Definition section_request (pefile : PELoaderInfo) (m : MappedPE)
    (permission : AccessType) (section : PESection) : StreamMapperInfo :=
  mkStreamInfo (RawStream (section_content section))
    (mkSegment (section_segment_name pefile section)
               (mapped_base m + section_virtual_address section)
               (section_virtual_size section) permission).

(** What the stream mapper does to the memory for a list of requests: for
    each in turn, the segment is created and the stream bound to it. *)
Definition bind_requests (ext : External) (requests : list StreamMapperInfo)
    (m : Memory) : Memory :=
  fold_left (fun m o => mkMemory (segments m ++ [segment o])
                                 (ext_bind ext (stream o) (segment o) (words m)))
            requests m.

(** The requests of one image: its headers, then its sections in order,
    each with the permissions of its characteristics. *)
Definition image_requests (pefile : PELoaderInfo) (m : MappedPE)
  : list StreamMapperInfo :=
  header_request pefile m ::
  map (fun section => section_request pefile m (section_access section) section)
      (sections (pe m)).

(** [requests] have been handed to the stream mapper between [w] and [w']:
    an attached mapper has carried them out, an unattached one has queued
    them; the loader and the enforce plugin are as they were. *)
Definition submitted (ext : External) (requests : list StreamMapperInfo)
  : relation World := fun w w' =>
  loader w' = loader w /\
  enforce_memory w' = enforce_memory w /\ enforced w' = enforced w /\
  if ready (stream_mapper w)
  then stream_mapper w' = stream_mapper w /\
       mem w' = bind_requests ext requests (mem w)
  else emu (stream_mapper w') = emu (stream_mapper w) /\
       _interact_queue (stream_mapper w')
       = (_interact_queue (stream_mapper w) ++ requests)%list /\
       mem w' = mem w.

(** The record that [_load_iat] logs for one import entry. *)
Definition iat_record (pefile : PELoaderInfo) (dependency : Import)
    (exports : gmap string ExportEntry) (entry : ImportEntry)
  : LogLevel * LogMessage :=
  match exports !! import_entry_name entry with
  | None => (ERROR, MsgMissingSymbol (import_name dependency)
                                     (import_entry_name entry) pefile)
  | Some export => (DEBUG, MsgLoadingIAT (import_name dependency)
                                         (export_name export) pefile)
  end.

(** The queue of the loader is the same, and every key of the table of [w']
    is a key of the table of [w], one of [extra], or the file of a pending
    request. *)
Definition keys_from_queue (extra : list string) : relation World := fun w w' =>
  loader_plugin (loader w') = loader_plugin (loader w) /\
  forall k, In k (dict_keys (_loaded (loader w'))) ->
            In k (dict_keys (_loaded (loader w))) \/ In k extra \/
            In k (map file (_interact_queue (loader_plugin (loader w)))).

(** A class keeps its instance in one place of the world. *)
Definition lawful {I} (C : PluginClass I) : Prop :=
  (forall p w, self_get C (self_set C p w) = p) /\
  (forall p p' w, self_set C p (self_set C p' w) = self_set C p w).

(** The table of [w'] is the table of [w] with entries added behind, each
    under the file of its request, for files that were not in the table and
    no two for one file; the queue of the loader is the same. *)
Definition table_extends : relation World := fun w w' =>
  loader_plugin (loader w') = loader_plugin (loader w) /\
  exists added,
    _loaded (loader w') = (_loaded (loader w) ++ added)%list /\
    Forall (fun km => file (info (snd km)) = fst km) added /\
    List.NoDup (dict_keys added) /\
    forall k, In k (dict_keys added) -> dict_has (_loaded (loader w)) k = false.

(** [m2] ends as [m1] does, wherever [m1] does not run out of depth. *)
Definition refines {A} (m1 m2 : M A) : Prop :=
  forall w r w', m1 w = (r, w') -> r <> Raise RecursionError -> m2 w = (r, w').

(** ** A concrete world

    A small file system, a memory subsystem whose [is_mapped] answers
    whether any listed segment meets the range, a random module that draws
    1, 2, 3, ..., and a stream mapper that copies the content of a section
    word by word from the start of its segment. *)

Fixpoint copy_words (content : list Z) (start : Z) (ws : gmap Z Z) : gmap Z Z :=
  match content with
  | [] => ws
  | c :: content' => copy_words content' (start + 1) (<[start := c]> ws)
  end.

Definition sample_bind (s : Stream) (seg : Segment) (ws : gmap Z Z) : gmap Z Z :=
  match s with
  | FileStream _ => ws
  | RawStream content => copy_words content (seg_start seg) ws
  end.

(** An image that exports nothing has no export directory. *)
Definition export_directory (exps : list ExportEntry) : option Export :=
  match exps with
  | [] => None
  | _ :: _ => Some (mkExport exps)
  end.

Definition plain_image (preferred size : Z) (secs : list PESection)
    (imps : list Import) (exps : list ExportEntry) (relocs : list Relocation)
  : Binary :=
  mkBinary false false false false preferred 0x400 size secs imps
           (export_directory exps) relocs.

Definition text_section : PESection :=
  mkSection ".text" 0x1000 0x800 [] true false true.

(** [a.exe]: headers and one section, with a gap up to its virtual size. *)
Definition a_exe : Binary := plain_image 0x10000 0x5000 [text_section] [] [] [].

(** [b.exe]: prefers a base inside the gap of [a.exe]. *)
Definition b_exe : Binary := plain_image 0x13000 0x1000 [] [] [] [].

(** [c.exe]: prefers the base of [a.exe] and cannot be moved. *)
Definition c_exe : Binary := plain_image 0x10000 0x1000 [] [] [] [].

(** [z.dll], [aa.dll] and [lib/a.dll]: libraries; the last two export [f]. *)
Definition z_dll : Binary := plain_image 0x20000 0x1000 [] [] [] [].

Definition aa_dll : Binary :=
  plain_image 0x30000 0x1000 [] [] [mkExportEntry "f" 0x100] [].

Definition a_dll : Binary :=
  plain_image 0x50000 0x1000 [] [] [mkExportEntry "f" 0x200] [].

(** [x.exe] imports [f] and [g] from [a.dll], with slots at 0x40 and 0x48. *)
Definition x_exe : Binary :=
  plain_image 0x60000 0x1000 []
    [mkImport "a.dll" [mkImportEntry "f" 0x40; mkImportEntry "g" 0x48]] [] [].

(** [y.exe] imports from a library that is nowhere. *)
Definition y_exe : Binary :=
  plain_image 0x70000 0x1000 []
    [mkImport "nowhere.dll" [mkImportEntry "f" 0x40]] [] [].

(** [h.dll]: a relocatable high-entropy library with two relocation
    blocks. *)
Definition h_dll : Binary :=
  mkBinary true true true true 0x180000000 0x400 0x3000 [] [] None
    [mkReloc 0x1000 [mkRelocEntry DIR64 0x10; mkRelocEntry ABS 0x18];
     mkReloc 0x2000 [mkRelocEntry HIGHLOW 0x20]].

Definition sample_files : list (string * Binary) :=
  [("a.exe", a_exe); ("b.exe", b_exe); ("c.exe", c_exe); ("z.dll", z_dll);
   ("aa.dll", aa_dll); ("lib/a.dll", a_dll); ("x.exe", x_exe);
   ("y.exe", y_exe); ("h.dll", h_dll)].

Definition sample_ext : External :=
  mkExternal
    (fun m address size => existsb (fun s => overlaps s address size) (segments m))
    (fun n => Z.of_nat n + 1)
    (dict_get sample_files)
    sample_bind.

Definition request (path : string) : PELoaderInfo := mkInfo path None false.

(** An attached loader that holds its stream mapper, itself attached, and
    has [queue] pending. *)
Definition attached_world (queue : list PELoaderInfo) : World :=
  mkWorld (mkMemory [] ∅) 0 []
          (mkPELoader (mkPlugin queue (Some TheEmu)) [] true true false)
          (mkPlugin [] (Some TheEmu)) (mkPlugin [] None) [].

(** The world after [_handle] has run on each of [paths] in turn. *)
Definition after_loading (queue : list PELoaderInfo) (paths : list string) : World :=
  snd (for_each (map request paths) (_handle sample_ext 3) (attached_world queue)).

Definition bases (w : World) : list (string * Z) :=
  map (fun '(k, m) => (k, mapped_base m)) (_loaded (loader w)).

(** The memory in which the first ASLR candidate of [h.dll] is taken. *)
Definition first_candidate_taken : World :=
  mkWorld (mkMemory [mkSegment "taken" (0x7ff000000000 + 0x10000 + 0x180000000)
                               0x1000 AccessType_RWX] ∅)
          0 []
          (mkPELoader (mkPlugin [] (Some TheEmu)) [] true true false)
          (mkPlugin [] (Some TheEmu)) (mkPlugin [] None) [].

(** [h.dll] mapped at an explicit base away from its preferred one. *)
Definition h_moved : World :=
  snd (_handle sample_ext 1 (mkInfo "h.dll" (Some 0x200000000) false)
               (attached_world [])).

(** Further files.  [r.exe] is relocatable, imports [f] from [a.dll] and
    has a relocation entry on that import slot; [k.dll] exports [g];
    [s.exe] imports [f] from [a.dll] and [g] from [k.dll] at one slot;
    [t.exe] imports from [k.dll], from [a.dll] and from a library that is
    nowhere; [noexp.dll] has no export directory; [w.exe] imports from
    [noexp.dll] and from [a.dll]. *)
Definition r_exe : Binary :=
  mkBinary true false false false 0x60000 0x400 0x1000 []
    [mkImport "a.dll" [mkImportEntry "f" 0x40]] None
    [mkReloc 0 [mkRelocEntry DIR64 0x40]].

Definition k_dll : Binary :=
  plain_image 0xA0000 0x1000 [] [] [mkExportEntry "g" 0x300] [].

Definition s_exe : Binary :=
  plain_image 0x60000 0x1000 []
    [mkImport "a.dll" [mkImportEntry "f" 0x40];
     mkImport "k.dll" [mkImportEntry "g" 0x40]] [] [].

Definition t_exe : Binary :=
  plain_image 0x60000 0x1000 []
    [mkImport "k.dll" [mkImportEntry "g" 0x48];
     mkImport "a.dll" [mkImportEntry "f" 0x40; mkImportEntry "missing" 0x58];
     mkImport "nowhere.dll" [mkImportEntry "h" 0x50]] [] [].

Definition noexp_dll : Binary := plain_image 0xB0000 0x1000 [] [] [] [].

(** [g.exe] imports from [ghost.dll], a file that [lief.PE.parse] does not
    parse. *)
Definition g_exe : Binary :=
  plain_image 0x60000 0x1000 []
    [mkImport "ghost.dll" [mkImportEntry "f" 0x40]] [] [].

Definition w_exe : Binary :=
  plain_image 0x60000 0x1000 []
    [mkImport "noexp.dll" [mkImportEntry "f" 0x40];
     mkImport "a.dll" [mkImportEntry "f" 0x48]] [] [].

Definition more_files : list (string * Binary) :=
  (sample_files ++
   [("r.exe", r_exe); ("k.dll", k_dll); ("s.exe", s_exe); ("t.exe", t_exe);
    ("noexp.dll", noexp_dll); ("w.exe", w_exe); ("g.exe", g_exe)])%list.

Definition wide_ext : External :=
  mkExternal (ext_is_mapped sample_ext) (ext_random sample_ext)
             (dict_get more_files) sample_bind.

(** [t.exe] is in the table, its imports not yet resolved; [lib/a.dll] and
    [k.dll] are pending. *)
Definition t_entered : World :=
  mkWorld (mkMemory [] ∅) 0 []
          (mkPELoader (mkPlugin [request "lib/a.dll"; request "k.dll"] (Some TheEmu))
                      [("t.exe", mkMapped (request "t.exe") 0x60000 t_exe)]
                      true true false)
          (mkPlugin [] (Some TheEmu)) (mkPlugin [] None) [].

(** A loader that has no emulator, without and with an image in its
    table, and an attached loader that has not been given its stream
    mapper. *)
Definition unattached_world : World :=
  mkWorld (mkMemory [] ∅) 0 []
          (mkPELoader (mkPlugin [] None) [] false false false)
          (mkPlugin [] None) (mkPlugin [] None) [].

Definition unattached_with_h : World :=
  mkWorld (mkMemory [] ∅) 0 []
          (mkPELoader (mkPlugin [] None)
                      [("h.dll", mkMapped (request "h.dll") 0x180000000 h_dll)]
                      false false false)
          (mkPlugin [] None) (mkPlugin [] None) [].

Definition unprepared_world : World :=
  mkWorld (mkMemory [] ∅) 0 []
          (mkPELoader (mkPlugin [] (Some TheEmu)) [] false false false)
          (mkPlugin [] (Some TheEmu)) (mkPlugin [] None) [].

(** [dup.dll] exports [f] twice; [x.exe] and [dup.dll] in the table. *)
Definition dup_dll : Binary :=
  plain_image 0x80000 0x1000 [] []
    [mkExportEntry "f" 0x100; mkExportEntry "f" 0x300] [].

Definition dup_world : World :=
  mkWorld (mkMemory [] ∅) 0 []
          (mkPELoader (mkPlugin [] (Some TheEmu))
                      [("x.exe", mkMapped (request "x.exe") 0x60000 x_exe);
                       ("dup.dll", mkMapped (request "dup.dll") 0x80000 dup_dll)]
                      true true false)
          (mkPlugin [] (Some TheEmu)) (mkPlugin [] None) [].

(** [a.exe] is in the table; the stream mapper is not attached and holds
    the request for the headers; an attached enforce plugin is present. *)
Definition a_mapped : MappedPE := mkMapped (request "a.exe") 0x10000 a_exe.

Definition queued_world : World :=
  mkWorld (mkMemory [] ∅) 0 []
          (mkPELoader (mkPlugin [] (Some TheEmu)) [("a.exe", a_mapped)]
                      true true true)
          (mkPlugin [header_request (request "a.exe") a_mapped] None)
          (mkPlugin [] (Some TheEmu)) [].

(** A plugin class whose handler fails. *)
Definition FailingClass : PluginClass StreamMapperInfo :=
  mkClass stream_mapper set_stream_mapper (fun _ => raise KeyError).

(** * Lemmas and theorems *)

(** ** Construction and the public queue interface *)

Lemma PELoader_interact_run (objs : list PELoaderInfo) (w : World) :
  PELoader_interact objs w =
  (Ok tt,
   if ready (loader_plugin (loader w)) then w
   else set_loader (set_loader_plugin
          (mkPlugin (_interact_queue (loader_plugin (loader w)) ++ objs)
                    (emu (loader_plugin (loader w)))) (loader w)) w).
Proof.
  unfold PELoader_interact, Plugin_interact, bind; simpl.
  destruct (ready (loader_plugin (loader w))); reflexivity.
Qed.

Lemma PELoader_prepare_run (e : HyperEmu) (w : World) :
  PELoader_prepare e w =
  (Ok tt,
   if ready (loader_plugin (loader w)) then w
   else set_loader (set_loader_plugin (mkPlugin [] (Some e)) (loader w)) w).
Proof.
  unfold PELoader_prepare, Plugin_prepare, bind; simpl.
  destruct (ready (loader_plugin (loader w))); reflexivity.
Qed.

(** C10: constructing a [PELoader] raises [TypeError] for every non-empty
    tuple of initial files, since the files are forwarded to [Plugin.__init__], which
    takes none; only [PELoader()] constructs a loader. *)
Theorem PELoader_init_files_TypeError :
  (forall (f : PELoaderInfo) (files : list PELoaderInfo),
      PELoader__init__ (f :: files) = Raise TypeError) /\
  PELoader__init__ [] = Ok (mkPELoader (mkPlugin [] None) [] false false false) /\
  (forall (files : list PELoaderInfo) (l : PELoader),
      PELoader__init__ files = Ok l -> files = []).
Proof.
  split; [| split].
  - intros f files. reflexivity.
  - reflexivity.
  - intros [| f files] l H; [reflexivity | discriminate H].
Qed.

Lemma PELoader_init_files_TypeError_witness :
  PELoader__init__ [] = Ok (mkPELoader (mkPlugin [] None) [] false false false) /\
  ([] : list PELoaderInfo) = [].
Proof.
  split; [reflexivity |].
  exact (proj2 (proj2 PELoader_init_files_TypeError) []
               (mkPELoader (mkPlugin [] None) [] false false false) eq_refl).
Defined.

(** A call changes the world at most in [loader_plugin], the queue and the
    emulator reference of the loader. *)
Lemma run_call_queue_only (c : QueueCall) (w : World) :
  exists w1 p,
    run_call c w = (Ok tt, w1) /\
    w1 = set_loader (set_loader_plugin p (loader w)) w.
Proof.
  destruct c as [objs | e]; simpl.
  - rewrite PELoader_interact_run.
    destruct (ready (loader_plugin (loader w))).
    + exists w, (loader_plugin (loader w)). split; [reflexivity |].
      destruct w as [m n l [p d sp sm ep] s em en]; reflexivity.
    + eexists _, _. split; reflexivity.
  - rewrite PELoader_prepare_run.
    destruct (ready (loader_plugin (loader w))).
    + exists w, (loader_plugin (loader w)). split; [reflexivity |].
      destruct w as [m n l [p d sp sm ep] s em en]; reflexivity.
    + eexists _, _. split; reflexivity.
Qed.

(** C1: whatever is submitted through [interact] and [prepare] of a
    [PELoader], before or after it is attached, every call returns normally
    and changes nothing but the queue and the emulator reference of the
    loader: the table of mapped images and the emulator memory (with the
    stream mapper, the log and the random module) are as they were.  The
    inherited [_handle_interact] does nothing, so [_handle] is not
    reached. *)
Theorem PELoader_queue_interface_maps_nothing (calls : list QueueCall) (w : World) :
  exists w' p,
    for_each calls run_call w = (Ok tt, w') /\
    w' = set_loader (set_loader_plugin p (loader w)) w /\
    _loaded (loader w') = _loaded (loader w) /\
    mem w' = mem w /\
    stream_mapper w' = stream_mapper w.
Proof.
  assert (H : exists w' p,
             for_each calls run_call w = (Ok tt, w') /\
             w' = set_loader (set_loader_plugin p (loader w)) w).
  { revert w. induction calls as [| c calls IH]; intros w.
    - exists w, (loader_plugin (loader w)). split; [reflexivity |].
      destruct w as [m n l [p d sp sm ep] s em en]; reflexivity.
    - destruct (run_call_queue_only c w) as (w1 & p1 & Hrun & H1).
      destruct (IH w1) as (w' & p' & Hrest & H').
      exists w', p'. split.
      + simpl. unfold bind. rewrite Hrun. exact Hrest.
      + rewrite H', H1. reflexivity. }
  destruct H as (w' & p & Hrun & Hw). exists w', p.
  split; [exact Hrun |]. split; [exact Hw |].
  rewrite Hw. repeat split.
Qed.

(** ** Frame reasoning *)

Section Preserves.

Context (P : relation World) `{!PreOrder P}.

Lemma preserves_ret {A} (a : A) : preserves P (ret a).
Proof. intros w r w' H. inversion H; subst. reflexivity. Qed.

Lemma preserves_raise {A} (e : Exc) : preserves P (raise (A := A) e).
Proof. intros w r w' H. inversion H; subst. reflexivity. Qed.

Lemma preserves_get : preserves P get.
Proof. intros w r w' H. inversion H; subst. reflexivity. Qed.

Lemma preserves_pure {A} (f : World -> Res A) : preserves P (fun w => (f w, w)).
Proof. intros w r w' H. inversion H; subst. reflexivity. Qed.

Lemma preserves_modify (f : World -> World) :
  (forall w, P w (f w)) -> preserves P (modify f).
Proof. intros Hf w r w' H. inversion H; subst. apply Hf. Qed.

Lemma preserves_bind {A B} (m : M A) (k : A -> M B) :
  preserves P m -> (forall a, preserves P (k a)) -> preserves P (bind m k).
Proof.
  intros Hm Hk w r w' H. unfold bind in H.
  destruct (m w) as [[a | e] w1] eqn:E.
  - transitivity w1; [eapply Hm, E | eapply Hk, H].
  - inversion H; subst. eapply Hm, E.
Qed.

Lemma preserves_for_each {A} (l : list A) (body : A -> M unit) :
  (forall x, preserves P (body x)) -> preserves P (for_each l body).
Proof.
  intros Hb. induction l as [| x l IH]; simpl.
  - apply preserves_ret.
  - apply preserves_bind; [apply Hb | intros _; exact IH].
Qed.

End Preserves.

(** The relations that the stages of the loader preserve. *)

#[export] Instance same_but_log_random_preorder : PreOrder same_but_log_random.
Proof.
  split.
  - intros w. repeat split.
  - intros a b c (?&?&?&?&?) (?&?&?&?&?). repeat split; congruence.
Qed.

#[export] Instance same_loader_preorder : PreOrder same_loader.
Proof.
  split.
  - intros w. reflexivity.
  - intros a b c H1 H2. unfold same_loader in *. congruence.
Qed.

#[export] Instance loaded_grows_preorder : PreOrder loaded_grows.
Proof.
  split.
  - intros w. repeat split; auto.
  - intros a b c (?&?&?&?&Hab&Wab) (?&?&?&?&Hbc&Wbc).
    repeat split; try congruence; [| auto]. intros k v Hk. apply Hbc, Hab, Hk.
Qed.

Lemma preserves_weaken {A} (P Q : relation World) (m : M A) :
  (forall w w', P w w' -> Q w w') -> preserves P m -> preserves Q m.
Proof. intros HPQ Hm w r w' H. apply HPQ. eapply Hm, H. Qed.

Lemma same_loader_grows (w w' : World) : same_loader w w' -> loaded_grows w w'.
Proof.
  unfold same_loader. intros H. unfold loaded_grows, table_wf. rewrite H.
  repeat split; auto.
Qed.

Lemma same_but_log_random_loader (w w' : World) :
  same_but_log_random w w' -> same_loader w w'.
Proof. intros (_ & H & _). exact H. Qed.

(** ** Base selection *)

Section BaseSelection.

Context (ext : External).

Lemma is_base_ok_run (address : Z) (obj : Binary) (w : World) :
  ready (loader_plugin (loader w)) = true ->
  is_base_ok ext address obj w = (Ok (base_free ext (mem w) address obj), w).
Proof.
  intros Hr. unfold is_base_ok, bind, self_ready, base_free. rewrite Hr. simpl.
  destruct (ext_is_mapped ext (mem w) address (virtual_size obj)); reflexivity.
Qed.

Lemma calculate_aslr_run (high_entropy is_dll : bool) (w : World) :
  calculate_aslr ext high_entropy is_dll w =
  (Ok (aslr_value ext high_entropy is_dll (random_draws w)),
   set_random_draws (S (random_draws w)) w).
Proof. reflexivity. Qed.

(** The loop of retries ends on the first free candidate, or on the last
    one drawn. *)
Lemma aslr_retry_run (obj : PELoaderInfo) (parsed : Binary) (he dll : bool)
    (retry : nat) :
  forall (c : Z) (w : World),
    ready (loader_plugin (loader w)) = true ->
    exists b w',
      aslr_retry ext obj parsed he dll retry c w = (Ok b, w') /\
      same_but_log_random w w' /\
      (random_draws w <= random_draws w' <= random_draws w + retry)%nat /\
      List.find (fun c => base_free ext (mem w) c parsed) [b] =
      List.find (fun c => base_free ext (mem w) c parsed)
                (c :: map (aslr_value ext he dll) (seq (random_draws w) retry)).
Proof.
  induction retry as [| retry IH]; intros c w Hr.
  - exists c, w. simpl. unfold bind. rewrite is_base_ok_run by exact Hr.
    repeat split; lia.
  - simpl aslr_retry. unfold bind at 1. rewrite is_base_ok_run by exact Hr.
    destruct (base_free ext (mem w) c parsed) eqn:Hc.
    + exists c, w. split; [reflexivity |]. split; [reflexivity |].
      split; [lia |]. simpl. rewrite Hc. reflexivity.
    + set (w1 := set_random_draws (S (random_draws w))
                   (set_log (log w ++ [(WARNING, MsgAslrRetry obj retry)]) w)).
      destruct (IH (aslr_value ext he dll (random_draws w)) w1 Hr)
        as (b & w' & Hrun & Hfr & Hn & Hfind).
      exists b, w'. split; [exact Hrun |]. split.
      * transitivity w1; [repeat split | exact Hfr].
      * split; [simpl in Hn; lia |].
        change (mem w1) with (mem w) in Hfind. rewrite Hfind.
        change (random_draws w1) with (S (random_draws w)).
        simpl. rewrite Hc. reflexivity.
Qed.

Lemma pick_user_base_run (obj : PELoaderInfo) (parsed : Binary) (w : World) :
  ready (loader_plugin (loader w)) = true ->
  exists w',
    pick_user_base ext obj parsed w = (Ok (user_choice ext obj parsed (mem w)), w') /\
    same_but_log_random w w' /\ random_draws w' = random_draws w.
Proof.
  intros Hr. unfold pick_user_base, user_choice.
  destruct (base obj) as [b |].
  - destruct (is_pie parsed); simpl.
    + unfold bind. rewrite is_base_ok_run by exact Hr.
      destruct (base_free ext (mem w) b parsed); simpl;
        eexists; (split; [reflexivity | split; [repeat split | reflexivity]]).
    + eexists; (split; [reflexivity | split; [repeat split | reflexivity]]).
  - exists w. split; [reflexivity | split; [reflexivity | reflexivity]].
Qed.

Lemma pick_preferred_base_run (obj : PELoaderInfo) (parsed : Binary) (w : World) :
  ready (loader_plugin (loader w)) = true ->
  exists w',
    pick_preferred_base ext obj parsed w =
      (Ok (preferred_choice ext obj parsed (mem w)), w') /\
    same_but_log_random w w' /\ random_draws w' = random_draws w.
Proof.
  intros Hr. unfold pick_preferred_base, preferred_choice.
  destruct (prefer_aslr obj && DYNAMIC_BASE parsed); simpl.
  - exists w. split; [reflexivity | split; reflexivity].
  - unfold bind. rewrite is_base_ok_run by exact Hr.
    destruct (base_free ext (mem w) (imagebase parsed) parsed); simpl;
      eexists; (split; [reflexivity | split; [repeat split | reflexivity]]).
Qed.

Lemma find_singleton_true (f : Z -> bool) (b : Z) :
  List.find f [b] = if f b then Some b else None.
Proof. reflexivity. Qed.

Lemma pick_aslr_base_run (obj : PELoaderInfo) (parsed : Binary) (w : World) :
  ready (loader_plugin (loader w)) = true ->
  exists w',
    pick_aslr_base ext obj parsed w =
      (Ok (aslr_choice ext parsed (mem w) (random_draws w)), w') /\
    same_but_log_random w w' /\
    (random_draws w <= random_draws w' <= random_draws w + 6)%nat.
Proof.
  intros Hr. unfold pick_aslr_base, aslr_choice.
  destruct (is_pie parsed).
  - unfold bind at 1. rewrite calculate_aslr_run.
    set (he := HIGH_ENTROPY_VA parsed). set (dll := DLL parsed).
    set (w1 := set_random_draws (S (random_draws w)) w).
    destruct (aslr_retry_run obj parsed he dll 5
                (aslr_value ext he dll (random_draws w) + imagebase parsed) w1 Hr)
      as (b & w2 & Hrun & Hfr & Hn & Hfind).
    unfold bind at 1. rewrite Hrun.
    assert (Hr2 : ready (loader_plugin (loader w2)) = true).
    { destruct Hfr as (_ & Hl & _). rewrite Hl. exact Hr. }
    unfold bind at 1. rewrite is_base_ok_run by exact Hr2.
    assert (Hm2 : mem w2 = mem w) by (destruct Hfr as (Hm & _); exact Hm).
    rewrite Hm2. change (mem w1) with (mem w) in Hfind.
    change (random_draws w1) with (S (random_draws w)) in Hfind, Hn.
    unfold aslr_candidates. fold he dll. rewrite <- Hfind.
    rewrite find_singleton_true.
    assert (Hfr' : same_but_log_random w w2).
    { transitivity w1; [repeat split | exact Hfr]. }
    destruct (base_free ext (mem w) b parsed); simpl;
      eexists; (split; [reflexivity |]); split.
    + transitivity w2; [exact Hfr' | repeat split].
    + simpl. lia.
    + transitivity w2; [exact Hfr' | repeat split].
    + simpl. lia.
  - exists w. split; [reflexivity |]. split; [reflexivity | lia].
Qed.

(** [_pick_base] on an attached loader and a parsed image decides as
    [pick_base_spec] says, raises the bad-placement error when there is no
    choice, and touches nothing but the log and the random module. *)
Lemma pick_base_run (obj : PELoaderInfo) (parsed : Binary) (w : World) :
  ready (loader_plugin (loader w)) = true ->
  exists w',
    _pick_base ext obj (Some parsed) w =
      (match pick_base_spec ext obj parsed (mem w) (random_draws w) with
       | Some b => Ok b
       | None => Raise HSPluginBadStateError
       end, w') /\
    same_but_log_random w w'.
Proof.
  intros Hr. unfold _pick_base, pick_base_spec.
  unfold bind at 1. unfold self_ready at 1. rewrite Hr. cbn [negb].
  destruct (pick_user_base_run obj parsed w Hr) as (w1 & Hu & Hf1 & Hn1).
  unfold bind at 1. rewrite Hu.
  destruct (user_choice ext obj parsed (mem w)) as [b |].
  { exists w1. split; [reflexivity | exact Hf1]. }
  assert (Hr1 : ready (loader_plugin (loader w1)) = true).
  { destruct Hf1 as (_ & Hl & _). rewrite Hl. exact Hr. }
  assert (Hm1 : mem w1 = mem w) by (destruct Hf1 as (Hm & _); exact Hm).
  destruct (pick_preferred_base_run obj parsed w1 Hr1) as (w2 & Hp & Hf2 & Hn2).
  unfold bind at 1. rewrite Hp, Hm1.
  destruct (preferred_choice ext obj parsed (mem w)) as [b |].
  { exists w2. split; [reflexivity | transitivity w1; assumption]. }
  assert (Hr2 : ready (loader_plugin (loader w2)) = true).
  { destruct Hf2 as (_ & Hl & _). rewrite Hl. exact Hr1. }
  assert (Hm2 : mem w2 = mem w) by (destruct Hf2 as (Hm & _); congruence).
  destruct (pick_aslr_base_run obj parsed w2 Hr2) as (w3 & Ha & Hf3 & Hn3).
  unfold bind at 1. rewrite Ha, Hm2.
  replace (random_draws w2) with (random_draws w) by congruence.
  assert (Hf : same_but_log_random w w3).
  { transitivity w1; [exact Hf1 |]. transitivity w2; assumption. }
  destruct (aslr_choice ext parsed (mem w) (random_draws w)) as [b |].
  - exists w3. split; [reflexivity | exact Hf].
  - eexists. split; [reflexivity |].
    transitivity w3; [exact Hf | repeat split].
Qed.

End BaseSelection.

(** ** What each stage of [_handle] may touch *)

Lemma dict_get_set_eq {V} (d : list (string * V)) (k : string) (v : V) :
  dict_get (dict_set d k v) k = Some v.
Proof.
  induction d as [| [k' v'] d IH]; simpl.
  - rewrite String.eqb_refl. reflexivity.
  - destruct (String.eqb k' k) eqn:E; simpl; rewrite E; [reflexivity | exact IH].
Qed.

Lemma dict_get_set_ne {V} (d : list (string * V)) (k k0 : string) (v : V) :
  k0 <> k -> dict_get (dict_set d k v) k0 = dict_get d k0.
Proof.
  intros Hne. induction d as [| [k' v'] d IH]; simpl.
  - destruct (String.eqb k k0) eqn:E; [| reflexivity].
    apply String.eqb_eq in E. congruence.
  - destruct (String.eqb k' k) eqn:E; simpl.
    + apply String.eqb_eq in E. subst k'.
      destruct (String.eqb k k0) eqn:E0; [| reflexivity].
      apply String.eqb_eq in E0. congruence.
    + rewrite IH. reflexivity.
Qed.

(** A key that is not in the dictionary goes last. *)
Lemma dict_set_fresh {V} (d : list (string * V)) (k : string) (v : V) :
  dict_get d k = None -> dict_set d k v = (d ++ [(k, v)])%list.
Proof.
  induction d as [| [k' v'] d IH]; simpl; intros H; [reflexivity |].
  destruct (String.eqb k' k); [discriminate H |]. rewrite IH by exact H.
  reflexivity.
Qed.

Lemma dict_has_get {V} (d : list (string * V)) (k : string) :
  dict_has d k = true <-> exists v, dict_get d k = Some v.
Proof.
  unfold dict_has. destruct (dict_get d k) as [v |]; split.
  - intros _. exists v. reflexivity.
  - reflexivity.
  - discriminate.
  - intros [v H]. discriminate H.
Qed.

Ltac pres_step :=
  match goal with
  | |- preserves ?P (bind _ _) => apply (preserves_bind P); [| intros ?]
  | |- preserves ?P (ret _) => apply (preserves_ret P)
  | |- preserves ?P (raise _) => apply (preserves_raise P)
  | |- preserves ?P get => apply (preserves_get P)
  | |- preserves ?P (for_each _ _) => apply (preserves_for_each P); intros ?
  | |- preserves ?P (modify _) => apply (preserves_modify P); intros ?
  | |- preserves ?P (log_msg _ _) =>
      unfold log_msg; apply (preserves_modify P); intros ?
  | |- preserves ?P (fun _ => _) => apply (preserves_pure P)
  | |- preserves _ (if ?b then _ else _) => destruct b
  | |- preserves _ (match ?x with _ => _ end) => destruct x
  end.

Ltac pres := repeat pres_step.

Ltac pbind :=
  match goal with
  | |- preserves ?P (bind _ _) => apply (preserves_bind P)
  end.

Tactic Notation "papply" constr(lem) :=
  match goal with
  | |- preserves ?P _ => apply (lem P _)
  end.

Section StageFrames.

Context (ext : External).

Lemma preserves_self_ready (P : relation World) `{!PreOrder P} :
  preserves P self_ready.
Proof. intros w r w' H. inversion H; subst. reflexivity. Qed.

Lemma preserves_loaded_item_of (P : relation World) `{!PreOrder P} (k : string) :
  preserves P (loaded_item_of k).
Proof.
  intros w r w' H. unfold loaded_item_of in H.
  destruct (dict_get (_loaded (loader w)) k); inversion H; subst; reflexivity.
Qed.

Lemma preserves_the_stream_mapper (P : relation World) `{!PreOrder P} :
  preserves P the_stream_mapper.
Proof.
  intros w r w' H. unfold the_stream_mapper in H.
  destruct (_stream_mapper (loader w)); inversion H; subst; reflexivity.
Qed.

Lemma preserves_is_base_ok (P : relation World) `{!PreOrder P} a obj :
  preserves P (is_base_ok ext a obj).
Proof.
  intros w r w' H. unfold is_base_ok, bind, self_ready in H. simpl in H.
  destruct (ready (loader_plugin (loader w))); simpl in H.
  - destruct (ext_is_mapped ext (mem w) a (virtual_size obj));
      inversion H; subst; reflexivity.
  - inversion H; subst. reflexivity.
Qed.

Lemma preserves_calculate_aslr he dll :
  preserves same_but_log_random (calculate_aslr ext he dll).
Proof.
  intros w r w' H. rewrite calculate_aslr_run in H. inversion H; subst.
  repeat split.
Qed.

Lemma preserves_aslr_retry obj parsed he dll retry :
  forall c, preserves same_but_log_random
                      (aslr_retry ext obj parsed he dll retry c).
Proof.
  induction retry as [| retry IH]; intros c; simpl.
  - pbind; [papply preserves_is_base_ok |].
    intros ok. pres.
  - pbind; [papply preserves_is_base_ok |].
    intros ok. destruct ok; [pres |].
    pbind; [pres; repeat split |]. intros _.
    pbind; [apply preserves_calculate_aslr |]. intros c'.
    apply IH.
Qed.

Lemma preserves_pick_base obj parsed :
  preserves same_but_log_random (_pick_base ext obj parsed).
Proof.
  unfold _pick_base.
  pbind; [papply preserves_self_ready |].
  intros rdy. destruct (negb rdy); [pres |].
  destruct parsed as [parsed |]; [| pres].
  pbind.
  { unfold pick_user_base. destruct (base obj); [| pres].
    destruct (negb (is_pie parsed)); [pres; repeat split |].
    pbind; [papply preserves_is_base_ok |].
    intros ok. pres. repeat split. }
  intros user. destruct user; [pres |].
  pbind.
  { unfold pick_preferred_base.
    destruct (negb (prefer_aslr obj && DYNAMIC_BASE parsed)); [| pres].
    pbind; [papply preserves_is_base_ok |].
    intros ok. pres. repeat split. }
  intros preferred. destruct preferred; [pres |].
  pbind.
  { unfold pick_aslr_base. destruct (is_pie parsed); [| pres].
    pbind; [apply preserves_calculate_aslr |]. intros c.
    pbind; [apply preserves_aslr_retry |]. intros b.
    pbind; [papply preserves_is_base_ok |].
    intros ok. pres; repeat split. }
  intros aslr. pres. repeat split.
Qed.

Lemma preserves_StreamMapper_interact objs :
  preserves same_loader (Plugin_interact (StreamMapperClass ext) objs).
Proof.
  unfold Plugin_interact. pres; simpl.
  - unfold StreamMapper_handle_interact. pres. reflexivity.
  - reflexivity.
Qed.

Lemma preserves_StreamMapper_prepare e :
  preserves same_loader (Plugin_prepare (StreamMapperClass ext) e).
Proof.
  unfold Plugin_prepare. pres; simpl; try reflexivity.
  unfold StreamMapper_handle_interact. pres. reflexivity.
Qed.

Lemma preserves_EnforceMemory_interact objs :
  preserves same_loader (Plugin_interact EnforceMemoryClass objs).
Proof.
  unfold Plugin_interact. pres; simpl; try reflexivity.
  unfold EnforceMemory_handle_interact. pres. reflexivity.
Qed.

Lemma preserves_map_headers pefile :
  preserves same_loader (_map_headers ext pefile).
Proof.
  unfold _map_headers.
  pbind; [papply preserves_self_ready |].
  intros rdy. destruct (negb rdy); [pres |].
  pbind; [papply preserves_the_stream_mapper |].
  intros _.
  pbind; [papply preserves_loaded_item_of |].
  intros m. apply preserves_StreamMapper_interact.
Qed.

Lemma preserves_map_section section pefile :
  preserves same_loader (_map_section ext section pefile).
Proof.
  unfold _map_section.
  pbind; [papply preserves_self_ready |].
  intros rdy. destruct (negb rdy); [pres |].
  pbind.
  { unfold section_perms_to_ms. pres. reflexivity. }
  intros permission. pbind; [pres |]. intros w0.
  pbind; [pres; reflexivity |]. intros _.
  pbind; [papply preserves_the_stream_mapper |].
  intros _.
  pbind; [papply preserves_loaded_item_of |].
  intros m.
  pbind; [apply preserves_StreamMapper_interact |]. intros _.
  destruct (_enforce_plugin (loader w0)); [| pres].
  pbind; [apply preserves_StreamMapper_prepare |]. intros _.
  pbind; [pres |]. intros _.
  pbind; [pres |]. intros w1.
  apply preserves_EnforceMemory_interact.
Qed.

Lemma preserves_load_iat pefile dependency lib :
  preserves same_loader (_load_iat pefile dependency lib).
Proof.
  unfold _load_iat.
  pbind; [papply preserves_self_ready |].
  intros rdy. destruct (negb rdy); [pres |].
  pbind; [papply preserves_loaded_item_of |].
  intros me.
  pbind; [papply preserves_loaded_item_of |].
  intros l. destruct (get_export (pe l)) as [directory |]; [| pres].
  apply (preserves_for_each same_loader). intros entry.
  unfold load_iat_entry.
  destruct (build_exports (export_entries directory) !! import_entry_name entry);
    pres; reflexivity.
Qed.

Lemma preserves_handle_reloc pefile :
  preserves same_loader (_handle_reloc pefile).
Proof.
  unfold _handle_reloc.
  pbind; [papply preserves_loaded_item_of |].
  intros m. apply (preserves_for_each same_loader). intros reloc.
  apply (preserves_for_each same_loader). intros entry. unfold reloc_entry.
  destruct (is_ABS (reloc_type entry)); [pres |].
  pbind; [papply preserves_self_ready |].
  intros rdy. pres. reflexivity.
Qed.

End StageFrames.

(** ** The table of mapped images only grows *)

Section TableGrows.

Context (ext : External).

Lemma preserves_scan_queue (handle : PELoaderInfo -> M unit) name queue :
  (forall item, preserves loaded_grows (handle item)) ->
  forall loaded_item,
    preserves loaded_grows (scan_queue handle name queue loaded_item).
Proof.
  intros Hh. induction queue as [| item queue IH]; intros loaded_item; simpl.
  - pres.
  - destruct (str_in name (file item)); [| apply IH].
    pbind; [apply Hh |]. intros _.
    pbind; [papply preserves_loaded_item_of |]. intros m. pres.
Qed.

Lemma preserves_scan_loaded (handle : PELoaderInfo -> M unit) name keys :
  (forall item, preserves loaded_grows (handle item)) ->
  forall loaded_item,
    preserves loaded_grows (scan_loaded handle name keys loaded_item).
Proof.
  intros Hh. induction keys as [| k keys IH]; intros loaded_item; simpl.
  - pres.
  - destruct (negb (str_in name k)).
    + pbind; [pres |]. intros w0.
      pbind; [apply preserves_scan_queue, Hh |]. intros li. apply IH.
    + pbind; [papply preserves_loaded_item_of |]. intros m. pres.
Qed.

Lemma preserves_load_iat_grows pefile dependency lib :
  preserves loaded_grows (_load_iat pefile dependency lib).
Proof.
  eapply preserves_weaken; [apply same_loader_grows | apply preserves_load_iat].
Qed.

Lemma preserves_handle_dependency (handle : PELoaderInfo -> M unit) pefile dep :
  (forall item, preserves loaded_grows (handle item)) ->
  preserves loaded_grows (handle_dependency handle pefile dep).
Proof.
  intros Hh. unfold handle_dependency.
  pbind; [pres |]. intros w0.
  pbind; [apply preserves_scan_loaded, Hh |]. intros r.
  destruct r as [m | [m |]].
  - apply preserves_load_iat_grows.
  - apply preserves_load_iat_grows.
  - pres. repeat split; auto.
Qed.

Lemma preserves_handle_iats (handle : PELoaderInfo -> M unit) pefile :
  (forall item, preserves loaded_grows (handle item)) ->
  preserves loaded_grows (_handle_iats handle pefile).
Proof.
  intros Hh. unfold _handle_iats.
  pbind; [papply preserves_self_ready |]. intros rdy.
  destruct (negb rdy); [pres |].
  pbind; [papply preserves_loaded_item_of |]. intros m.
  apply (preserves_for_each loaded_grows). intros dep.
  apply preserves_handle_dependency, Hh.
Qed.

(** Entering a new file in the table keeps every entry that is there. *)
Lemma loaded_grows_register (w : World) (k : string) (m : MappedPE) :
  file (info m) = k ->
  dict_has (_loaded (loader w)) k = false ->
  loaded_grows w (set_loader (set_loaded (dict_set (_loaded (loader w)) k m)
                                         (loader w)) w).
Proof.
  intros Hfile Hk. repeat split; simpl.
  - intros k0 v Hv.
    rewrite dict_get_set_ne; [exact Hv |].
    intros ->. unfold dict_has in Hk. rewrite Hv in Hk. discriminate Hk.
  - intros Hwf k0 v. unfold table_wf in *. simpl.
    destruct (String.eqb_spec k0 k) as [-> | Hne].
    + rewrite dict_get_set_eq. intros [= <-]. exact Hfile.
    + rewrite dict_get_set_ne by exact Hne. apply Hwf.
Qed.

(** One level of [_handle], with the nested calls left folded. *)
Lemma handle_unfold (depth : nat) (obj : PELoaderInfo) :
  _handle ext (S depth) obj =
  (w <- get ;;
   if dict_has (_loaded (loader w)) (file obj) then ret tt
   else
     log_msg INFO (MsgMappingPE obj) ;;
     let parsed := ext_parse ext (file obj) in
     base_address <- _pick_base ext obj parsed ;;
     match parsed with
     | None => raise AttributeError
     | Some parsed =>
         modify (fun w =>
           set_loader (set_loaded (dict_set (_loaded (loader w)) (file obj)
                                            (mkMapped obj base_address parsed))
                                  (loader w)) w) ;;
         _map_headers ext obj ;;
         for_each (sections parsed) (fun section => _map_section ext section obj) ;;
         _handle_iats (_handle ext depth) obj ;;
         _handle_reloc obj
     end).
Proof. reflexivity. Qed.

(** However [_handle] ends, the entries of the table are kept; and when it
    returns, the file of the request is in the table. *)
Lemma handle_grows (depth : nat) :
  forall (obj : PELoaderInfo) (w : World) (r : Res unit) (w' : World),
    _handle ext depth obj w = (r, w') ->
    loaded_grows w w' /\
    (r = Ok tt -> dict_has (_loaded (loader w')) (file obj) = true).
Proof.
  induction depth as [| depth IH]; intros obj w r w' H.
  - inversion H; subst. split; [reflexivity | discriminate].
  - simpl in H. unfold bind at 1, get at 1 in H.
    destruct (dict_has (_loaded (loader w)) (file obj)) eqn:Hhas.
    { inversion H; subst. split; [reflexivity | intros _; exact Hhas]. }
    unfold bind at 1, log_msg at 1, modify at 1 in H.
    set (w1 := set_log (log w ++ [(INFO, MsgMappingPE obj)]) w) in H.
    unfold bind at 1 in H.
    destruct (_pick_base ext obj (ext_parse ext (file obj)) w1)
      as [[b | e] w2] eqn:Hpick.
    2:{ inversion H; subst. split; [| discriminate].
        apply same_loader_grows, same_but_log_random_loader.
        apply (preserves_pick_base ext) in Hpick. exact Hpick. }
    assert (Hl2 : loader w2 = loader w).
    { apply (preserves_pick_base ext) in Hpick.
      apply same_but_log_random_loader in Hpick. exact Hpick. }
    destruct (ext_parse ext (file obj)) as [parsed |].
    2:{ inversion H; subst. split; [| discriminate].
        apply same_loader_grows. exact Hl2. }
    unfold bind at 1, modify at 1 in H.
    set (w3 := set_loader _ w2) in H.
    assert (H23 : loaded_grows w2 w3).
    { apply loaded_grows_register; [reflexivity |]. rewrite Hl2. exact Hhas. }
    assert (H3 : loaded_grows w3 w').
    { refine ((_ : preserves loaded_grows
        (_map_headers ext obj ;;
         for_each (sections parsed) (fun section => _map_section ext section obj) ;;
         _handle_iats (_handle ext depth) obj ;;
         _handle_reloc obj)) w3 r w' H).
      pbind.
      { eapply preserves_weaken;
          [apply same_loader_grows | apply preserves_map_headers]. }
      intros _. pbind.
      { apply (preserves_for_each loaded_grows). intros section.
        eapply preserves_weaken;
          [apply same_loader_grows | apply preserves_map_section]. }
      intros _. pbind.
      { apply preserves_handle_iats. intros item w0 r0 w0' H0.
        apply (IH item w0 r0 w0' H0). }
      intros _.
      eapply preserves_weaken;
        [apply same_loader_grows | apply preserves_handle_reloc]. }
    split.
    + transitivity w2; [apply same_loader_grows; exact Hl2 |].
      transitivity w3; assumption.
    + intros _. apply dict_has_get.
      exists (mkMapped obj b parsed).
      destruct H3 as (_ & _ & _ & _ & H3 & _). apply H3.
      subst w3. simpl. apply dict_get_set_eq.
Qed.

(** [_handle] on a file that is in the table returns at once. *)
Lemma handle_loaded_run (depth : nat) (obj : PELoaderInfo) (w : World) :
  dict_has (_loaded (loader w)) (file obj) = true ->
  _handle ext (S depth) obj w = (Ok tt, w).
Proof.
  intros H. simpl. unfold bind, get. rewrite H. reflexivity.
Qed.

End TableGrows.

(** ** The depth of nested loads

    [_handle] calls itself only on pending requests, and enters the file of
    a request in the table before it resolves its imports: each nested load
    takes one pending file off those not yet mapped.  So the nesting is
    bounded, also when images depend on each other in a cycle, and
    [RecursionError] is not raised at a depth above that bound. *)

Lemma steady_ret {A} (a : A) : steady (ret a).
Proof. intros w r w' H. inversion H. discriminate. Qed.

Lemma steady_raise {A} (e : Exc) : e <> RecursionError -> steady (raise (A := A) e).
Proof. intros He w r w' H. inversion H. congruence. Qed.

Lemma steady_get : steady get.
Proof. intros w r w' H. inversion H. discriminate. Qed.

Lemma steady_modify (f : World -> World) : steady (modify f).
Proof. intros w r w' H. inversion H. discriminate. Qed.

Lemma steady_bind {A B} (m : M A) (k : A -> M B) :
  steady m -> (forall a, steady (k a)) -> steady (bind m k).
Proof.
  intros Hm Hk w r w' H. unfold bind in H.
  destruct (m w) as [[a | e] w1] eqn:E.
  - eapply Hk, H.
  - inversion H; subst. intros Heq. inversion Heq; subst.
    exact (Hm _ _ _ E eq_refl).
Qed.

Lemma steady_for_each {A} (l : list A) (body : A -> M unit) :
  (forall x, steady (body x)) -> steady (for_each l body).
Proof.
  intros Hb. induction l as [| x l IH]; simpl.
  - apply steady_ret.
  - apply steady_bind; [apply Hb | intros _; exact IH].
Qed.

Lemma steady_self_ready : steady self_ready.
Proof. intros w r w' H. inversion H. discriminate. Qed.

Lemma steady_loaded_item_of (k : string) : steady (loaded_item_of k).
Proof.
  intros w r w' H. unfold loaded_item_of in H.
  destruct (dict_get (_loaded (loader w)) k); inversion H; discriminate.
Qed.

Lemma steady_the_stream_mapper : steady the_stream_mapper.
Proof.
  intros w r w' H. unfold the_stream_mapper in H.
  destruct (_stream_mapper (loader w)); inversion H; discriminate.
Qed.

Lemma steady_Plugin_interact {I} (C : PluginClass I) (objs : list I) :
  steady (_handle_interact C objs) -> steady (Plugin_interact C objs).
Proof.
  intros HC. unfold Plugin_interact. apply steady_bind.
  - intros w r w' H. inversion H. discriminate.
  - intros self. destruct (ready self); [exact HC | apply steady_modify].
Qed.

Lemma steady_Plugin_prepare {I} (C : PluginClass I) (e : HyperEmu) :
  (forall objs, steady (_handle_interact C objs)) -> steady (Plugin_prepare C e).
Proof.
  intros HC. unfold Plugin_prepare. apply steady_bind.
  - intros w r w' H. inversion H. discriminate.
  - intros self. destruct (ready self); [apply steady_ret |].
    apply steady_bind; [apply steady_modify |]. intros _.
    apply steady_bind; [intros w r w' H; inversion H; discriminate |].
    intros queue. apply steady_bind; [apply HC |]. intros _. apply steady_modify.
Qed.

Ltac steady_step :=
  match goal with
  | |- steady (bind _ _) => apply steady_bind; [| intros ?]
  | |- steady (ret _) => apply steady_ret
  | |- steady (raise _) => apply steady_raise; discriminate
  | |- steady get => apply steady_get
  | |- steady self_ready => apply steady_self_ready
  | |- steady (loaded_item_of _) => apply steady_loaded_item_of
  | |- steady the_stream_mapper => apply steady_the_stream_mapper
  | |- steady (for_each _ _) => apply steady_for_each; intros ?
  | |- steady (modify _) => apply steady_modify
  | |- steady (log_msg _ _) => unfold log_msg; apply steady_modify
  | |- steady (if ?b then _ else _) => destruct b
  | |- steady (match ?x with _ => _ end) => destruct x
  end.

Ltac steady_auto := repeat steady_step.

Section Depth.

Context (ext : External).

Lemma steady_StreamMapper_handler objs :
  steady (StreamMapper_handle_interact ext objs).
Proof. unfold StreamMapper_handle_interact. steady_auto. Qed.

Lemma steady_EnforceMemory_handler objs :
  steady (EnforceMemory_handle_interact objs).
Proof. unfold EnforceMemory_handle_interact. steady_auto. Qed.

Lemma steady_is_base_ok a obj : steady (is_base_ok ext a obj).
Proof. unfold is_base_ok. steady_auto. Qed.

Lemma steady_calculate_aslr he dll : steady (calculate_aslr ext he dll).
Proof. intros w r w' H. rewrite calculate_aslr_run in H. inversion H. discriminate. Qed.

Lemma steady_aslr_retry obj parsed he dll retry :
  forall c, steady (aslr_retry ext obj parsed he dll retry c).
Proof.
  induction retry as [| retry IH]; intros c; simpl.
  - apply steady_bind; [apply steady_is_base_ok | intros ok; steady_auto].
  - apply steady_bind; [apply steady_is_base_ok |]. intros ok.
    destruct ok; [steady_auto |].
    apply steady_bind; [steady_auto |]. intros _.
    apply steady_bind; [apply steady_calculate_aslr |]. intros c'. apply IH.
Qed.

Lemma steady_pick_base obj parsed : steady (_pick_base ext obj parsed).
Proof.
  unfold _pick_base. apply steady_bind; [apply steady_self_ready |].
  intros rdy. destruct (negb rdy); [steady_auto |].
  destruct parsed as [parsed |]; [| steady_auto].
  apply steady_bind.
  { unfold pick_user_base. destruct (base obj); [| steady_auto].
    destruct (negb (is_pie parsed)); [steady_auto |].
    apply steady_bind; [apply steady_is_base_ok | intros ok; steady_auto]. }
  intros user. destruct user; [steady_auto |].
  apply steady_bind.
  { unfold pick_preferred_base.
    destruct (negb (prefer_aslr obj && DYNAMIC_BASE parsed)); [| steady_auto].
    apply steady_bind; [apply steady_is_base_ok | intros ok; steady_auto]. }
  intros preferred. destruct preferred; [steady_auto |].
  apply steady_bind.
  { unfold pick_aslr_base. destruct (is_pie parsed); [| steady_auto].
    apply steady_bind; [apply steady_calculate_aslr |]. intros c.
    apply steady_bind; [apply steady_aslr_retry |]. intros b.
    apply steady_bind; [apply steady_is_base_ok | intros ok; steady_auto]. }
  intros aslr. steady_auto.
Qed.

Lemma steady_map_headers pefile : steady (_map_headers ext pefile).
Proof.
  unfold _map_headers. apply steady_bind; [apply steady_self_ready |].
  intros rdy. destruct (negb rdy); [steady_auto |].
  apply steady_bind; [apply steady_the_stream_mapper |]. intros _.
  apply steady_bind; [apply steady_loaded_item_of |]. intros m.
  apply steady_Plugin_interact. apply steady_StreamMapper_handler.
Qed.

Lemma steady_map_section section pefile : steady (_map_section ext section pefile).
Proof.
  unfold _map_section. apply steady_bind; [apply steady_self_ready |].
  intros rdy. destruct (negb rdy); [steady_auto |].
  apply steady_bind; [unfold section_perms_to_ms; steady_auto |].
  intros permission. apply steady_bind; [apply steady_get |]. intros w0.
  apply steady_bind; [steady_auto |]. intros _.
  apply steady_bind; [apply steady_the_stream_mapper |]. intros _.
  apply steady_bind; [apply steady_loaded_item_of |]. intros m.
  apply steady_bind.
  { apply steady_Plugin_interact. apply steady_StreamMapper_handler. }
  intros _. destruct (_enforce_plugin (loader w0)); [| steady_auto].
  apply steady_bind.
  { apply steady_Plugin_prepare. apply steady_StreamMapper_handler. }
  intros _. apply steady_bind; [steady_auto |]. intros _.
  apply steady_bind; [apply steady_get |]. intros w1.
  apply steady_Plugin_interact. apply steady_EnforceMemory_handler.
Qed.

Lemma steady_load_iat pefile dependency lib : steady (_load_iat pefile dependency lib).
Proof.
  unfold _load_iat. apply steady_bind; [apply steady_self_ready |].
  intros rdy. destruct (negb rdy); [steady_auto |].
  apply steady_bind; [apply steady_loaded_item_of |]. intros me.
  apply steady_bind; [apply steady_loaded_item_of |]. intros l.
  destruct (get_export (pe l)) as [directory |]; [| steady_auto].
  apply steady_for_each. intros entry. unfold load_iat_entry.
  destruct (build_exports (export_entries directory) !! import_entry_name entry);
    steady_auto.
Qed.

Lemma steady_handle_reloc pefile : steady (_handle_reloc pefile).
Proof.
  unfold _handle_reloc. apply steady_bind; [apply steady_loaded_item_of |].
  intros m. apply steady_for_each. intros reloc.
  apply steady_for_each. intros entry. unfold reloc_entry.
  destruct (is_ABS (reloc_type entry)); [steady_auto |].
  apply steady_bind; [apply steady_self_ready |]. intros rdy. steady_auto.
Qed.

End Depth.

Lemma filter_length_le {A} (p p' : A -> bool) (l : list A) :
  (forall x, In x l -> p' x = true -> p x = true) ->
  (length (List.filter p' l) <= length (List.filter p l))%nat.
Proof.
  induction l as [| x l IH]; simpl; intros H; [lia |].
  assert (IH' := IH (fun y Hy => H y (or_intror Hy))).
  destruct (p' x) eqn:E'.
  - rewrite (H x (or_introl eq_refl) E'). simpl. lia.
  - destruct (p x); simpl; lia.
Qed.

Lemma filter_length_lt {A} (p p' : A -> bool) (l : list A) (x0 : A) :
  (forall x, In x l -> p' x = true -> p x = true) ->
  In x0 l -> p x0 = true -> p' x0 = false ->
  (length (List.filter p' l) < length (List.filter p l))%nat.
Proof.
  induction l as [| x l IH]; simpl; intros H Hin Hp Hp'; [destruct Hin |].
  assert (Hle := filter_length_le p p' l (fun y Hy => H y (or_intror Hy))).
  destruct Hin as [-> | Hin].
  - rewrite Hp, Hp'. simpl. lia.
  - assert (IH' := IH (fun y Hy => H y (or_intror Hy)) Hin Hp Hp').
    destruct (p' x) eqn:E'.
    + rewrite (H x (or_introl eq_refl) E'). simpl. lia.
    + destruct (p x); simpl; lia.
Qed.

Lemma loaded_grows_pending (w w' : World) :
  loaded_grows w w' ->
  _interact_queue (loader_plugin (loader w')) =
  _interact_queue (loader_plugin (loader w)) /\
  (pending_unloaded w' <= pending_unloaded w)%nat.
Proof.
  intros (Hp & _ & _ & _ & Hg & _). split; [rewrite Hp; reflexivity |].
  unfold pending_unloaded. rewrite Hp. apply filter_length_le.
  intros item _ Hn. apply negb_true_iff in Hn. apply negb_true_iff.
  destruct (dict_has (_loaded (loader w)) (file item)) eqn:E; [| reflexivity].
  apply dict_has_get in E. destruct E as (v & Hv).
  apply Hg in Hv. unfold dict_has in Hn. rewrite Hv in Hn. discriminate Hn.
Qed.

(** Entering the file of a pending request that is not yet mapped takes it
    off the pending requests not mapped. *)
Lemma register_pending (w : World) (obj : PELoaderInfo) (m : MappedPE) :
  dict_has (_loaded (loader w)) (file obj) = false ->
  let w3 := set_loader (set_loaded (dict_set (_loaded (loader w)) (file obj) m)
                                   (loader w)) w in
  (pending_unloaded w3 <= pending_unloaded w)%nat /\
  (In obj (_interact_queue (loader_plugin (loader w))) ->
   (pending_unloaded w3 < pending_unloaded w)%nat).
Proof.
  intros Hnew w3.
  assert (Hmono : forall item,
             negb (dict_has (_loaded (loader w3)) (file item)) = true ->
             negb (dict_has (_loaded (loader w)) (file item)) = true).
  { intros item Hn. apply negb_true_iff in Hn. apply negb_true_iff.
    destruct (dict_has (_loaded (loader w)) (file item)) eqn:E; [| reflexivity].
    apply dict_has_get in E. destruct E as (v & Hv).
    unfold dict_has in Hn. subst w3. simpl in Hn.
    rewrite dict_get_set_ne in Hn.
    - rewrite Hv in Hn. discriminate Hn.
    - intros Heq. rewrite Heq in Hv. unfold dict_has in Hnew.
      rewrite Hv in Hnew. discriminate Hnew. }
  unfold pending_unloaded. change (loader_plugin (loader w3))
    with (loader_plugin (loader w)).
  split.
  - apply filter_length_le. intros item _. apply Hmono.
  - intros Hin. apply filter_length_lt with (x0 := obj).
    + intros item _. apply Hmono.
    + exact Hin.
    + rewrite Hnew. reflexivity.
    + subst w3. simpl. unfold dict_has. rewrite dict_get_set_eq. reflexivity.
Qed.

Section NestedLoads.

Context (ext : External).

(** [handle], called on a pending request of the queue [q] while fewer
    than [d] of them are not mapped, does not run out of depth and keeps
    the table growing. *)
Context (handle : PELoaderInfo -> M unit) (d : nat) (q : list PELoaderInfo).

Hypothesis handle_within :
  forall item w r w',
    In item q -> within d q w -> handle item w = (r, w') ->
    r <> Raise RecursionError /\ loaded_grows w w'.

Lemma within_grows (w w' : World) : within d q w -> loaded_grows w w' -> within d q w'.
Proof.
  intros (Hq & Hn) Hg. apply loaded_grows_pending in Hg. destruct Hg as (Hq' & Hn').
  split; [congruence | lia].
Qed.

Lemma scan_queue_within name queue :
  incl queue q ->
  forall li w r w',
    within d q w -> scan_queue handle name queue li w = (r, w') ->
    r <> Raise RecursionError /\ loaded_grows w w'.
Proof.
  induction queue as [| item queue IH]; intros Hincl li w r w' Hw H; simpl in H.
  - inversion H; subst. split; [discriminate | reflexivity].
  - destruct (str_in name (file item)).
    + unfold bind at 1 in H.
      destruct (handle item w) as [[[] | e] w1] eqn:Hh.
      * destruct (handle_within item w _ _ (Hincl item (or_introl eq_refl)) Hw Hh)
          as (_ & Hg).
        unfold bind, loaded_item_of in H.
        destruct (dict_get (_loaded (loader w1)) (file item));
          inversion H; subst; (split; [discriminate | exact Hg]).
      * destruct (handle_within item w _ _ (Hincl item (or_introl eq_refl)) Hw Hh)
          as (Hne & Hg).
        inversion H; subst. split; [| exact Hg].
        intros Heq. inversion Heq; subst. apply Hne. reflexivity.
    + apply (IH (fun x Hx => Hincl x (or_intror Hx)) li w r w' Hw H).
Qed.

Lemma scan_loaded_within name keys :
  forall li w r w',
    within d q w -> scan_loaded handle name keys li w = (r, w') ->
    r <> Raise RecursionError /\ loaded_grows w w'.
Proof.
  induction keys as [| k keys IH]; intros li w r w' Hw H; simpl in H.
  - inversion H; subst. split; [discriminate | reflexivity].
  - destruct (str_in name k); simpl in H.
    + unfold bind, loaded_item_of in H.
      destruct (dict_get (_loaded (loader w)) k);
        inversion H; subst; (split; [discriminate | reflexivity]).
    + unfold bind at 1, get at 1 in H. unfold bind at 1 in H.
      destruct (scan_queue handle name (_interact_queue (loader_plugin (loader w)))
                           li w) as [[li' | e] w1] eqn:Hs.
      * assert (Hincl : incl (_interact_queue (loader_plugin (loader w))) q).
        { destruct Hw as (Hq & _). rewrite Hq. apply incl_refl. }
        destruct (scan_queue_within name _ Hincl li w _ _ Hw Hs) as (_ & Hg).
        destruct (IH li' w1 r w' (within_grows _ _ Hw Hg) H) as (Hne & Hg').
        split; [exact Hne | transitivity w1; assumption].
      * assert (Hincl : incl (_interact_queue (loader_plugin (loader w))) q).
        { destruct Hw as (Hq & _). rewrite Hq. apply incl_refl. }
        destruct (scan_queue_within name _ Hincl li w _ _ Hw Hs) as (Hne & Hg).
        inversion H; subst. split; [| exact Hg].
        intros Heq. inversion Heq; subst. apply Hne. reflexivity.
Qed.

Lemma handle_dependency_within pefile dependency :
  forall w r w',
    within d q w -> handle_dependency handle pefile dependency w = (r, w') ->
    r <> Raise RecursionError /\ loaded_grows w w'.
Proof.
  intros w r w' Hw H. unfold handle_dependency in H.
  unfold bind at 1, get at 1 in H. unfold bind at 1 in H.
  destruct (scan_loaded handle (import_name dependency)
              (dict_keys (_loaded (loader w))) None w) as [[x | e] w1] eqn:Hs.
  - destruct (scan_loaded_within _ _ _ w _ _ Hw Hs) as (_ & Hg).
    assert (Hload : forall m, _load_iat pefile dependency m w1 = (r, w') ->
                              r <> Raise RecursionError /\ loaded_grows w w').
    { intros m Hl. split; [apply (steady_load_iat _ _ _ _ _ _ Hl) |].
      transitivity w1; [exact Hg |].
      apply same_loader_grows. apply (preserves_load_iat _ _ _ _ _ _ Hl). }
    destruct x as [m | [m |]]; try (apply (Hload m H)).
    inversion H; subst. split; [discriminate |].
    transitivity w1; [exact Hg | apply same_loader_grows; reflexivity].
  - destruct (scan_loaded_within _ _ _ w _ _ Hw Hs) as (Hne & Hg).
    inversion H; subst. split; [| exact Hg].
    intros Heq. inversion Heq; subst. apply Hne. reflexivity.
Qed.

Lemma handle_iats_within pefile :
  forall w r w',
    within d q w -> _handle_iats handle pefile w = (r, w') ->
    r <> Raise RecursionError.
Proof.
  intros w r w' Hw H. unfold _handle_iats in H.
  unfold bind at 1, self_ready at 1 in H.
  destruct (negb (ready (loader_plugin (loader w)))).
  { inversion H. discriminate. }
  unfold bind at 1, loaded_item_of at 1 in H.
  destruct (dict_get (_loaded (loader w)) (file pefile)) as [m |];
    [| inversion H; discriminate].
  revert w r w' Hw H. generalize (imports (pe m)) as deps.
  induction deps as [| dep deps IH]; intros w r w' Hw H; simpl in H.
  - inversion H. discriminate.
  - unfold bind at 1 in H.
    destruct (handle_dependency handle pefile dep w) as [[[] | e] w1] eqn:Hd.
    + destruct (handle_dependency_within _ _ _ _ _ Hw Hd) as (_ & Hg).
      apply (IH w1 r w' (within_grows _ _ Hw Hg) H).
    + destruct (handle_dependency_within _ _ _ _ _ Hw Hd) as (Hne & _).
      inversion H; subst. intros Heq. inversion Heq; subst. apply Hne. reflexivity.
Qed.

End NestedLoads.

Section DepthBound.

Context (ext : External).

Lemma pending_unloaded_loader (w w' : World) :
  loader w' = loader w -> pending_unloaded w' = pending_unloaded w.
Proof. intros H. unfold pending_unloaded. rewrite H. reflexivity. Qed.

(** One level of [_handle]: if the nested calls at depth [d] are safe while
    fewer than [d] pending requests are not mapped, and entering the file of
    [obj] leaves fewer than [d] of them, then [_handle] at depth [S d] does
    not run out of depth. *)
Lemma handle_step_depth (d : nat) (obj : PELoaderInfo) (w : World) :
  (forall item w0 r w', In item (_interact_queue (loader_plugin (loader w0))) ->
      (pending_unloaded w0 < d)%nat ->
      _handle ext d item w0 = (r, w') -> r <> Raise RecursionError) ->
  (dict_has (_loaded (loader w)) (file obj) = false ->
   forall m, (pending_unloaded
                (set_loader (set_loaded (dict_set (_loaded (loader w)) (file obj) m)
                                        (loader w)) w) < d)%nat) ->
  forall r w', _handle ext (S d) obj w = (r, w') -> r <> Raise RecursionError.
Proof.
  intros Hnested Hafter r w' H.
  rewrite handle_unfold in H. unfold bind at 1, get at 1 in H.
  destruct (dict_has (_loaded (loader w)) (file obj)) eqn:Hhas.
  { inversion H. discriminate. }
  specialize (Hafter eq_refl).
  unfold bind at 1, log_msg at 1, modify at 1 in H.
  set (w1 := set_log (log w ++ [(INFO, MsgMappingPE obj)]) w) in H.
  cbv zeta in H. unfold bind at 1 in H.
  destruct (_pick_base ext obj (ext_parse ext (file obj)) w1)
    as [[b | e] w2] eqn:Hpick.
  2:{ inversion H; subst. intros Heq. inversion Heq; subst.
      exact (steady_pick_base ext _ _ _ _ _ Hpick eq_refl). }
  assert (Hl2 : loader w2 = loader w).
  { apply (preserves_pick_base ext) in Hpick.
    apply same_but_log_random_loader in Hpick. exact Hpick. }
  destruct (ext_parse ext (file obj)) as [parsed |];
    [| inversion H; discriminate].
  unfold bind at 1, modify at 1 in H.
  set (mx := mkMapped obj b parsed) in H.
  set (w3 := set_loader (set_loaded (dict_set (_loaded (loader w2)) (file obj) mx)
                                    (loader w2)) w2) in H.
  set (q := _interact_queue (loader_plugin (loader w))).
  assert (Hw3 : within d q w3).
  { split.
    - subst w3 q. simpl. rewrite Hl2. reflexivity.
    - specialize (Hafter mx).
      erewrite pending_unloaded_loader; [exact Hafter |].
      subst w3. simpl. rewrite Hl2. reflexivity. }
  assert (Hstage : forall (m : M unit) wa ra wb,
             steady m -> preserves same_loader m -> within d q wa ->
             m wa = (ra, wb) -> ra <> Raise RecursionError /\ within d q wb).
  { intros m wa ra wb Hs Hp Hwa Hm. split; [apply (Hs _ _ _ Hm) |].
    apply Hp in Hm. destruct Hwa as (Hq & Hn). split.
    - rewrite Hm. exact Hq.
    - rewrite (pending_unloaded_loader _ _ Hm). exact Hn. }
  unfold bind at 1 in H.
  destruct (_map_headers ext obj w3) as [[[] | e] w4] eqn:Hhead.
  2:{ inversion H; subst. intros Heq. inversion Heq; subst.
      exact (steady_map_headers ext _ _ _ _ Hhead eq_refl). }
  destruct (Hstage _ _ _ _ (steady_map_headers ext obj)
              (preserves_map_headers ext obj) Hw3 Hhead) as (_ & Hw4).
  unfold bind at 1 in H.
  destruct (for_each (sections parsed)
              (fun section => _map_section ext section obj) w4)
    as [[[] | e] w5] eqn:Hsec.
  2:{ inversion H; subst. intros Heq. inversion Heq; subst.
      refine (steady_for_each _ _ _ _ _ _ Hsec eq_refl).
      intros section. apply steady_map_section. }
  assert (Hw5 : within d q w5).
  { refine (proj2 (Hstage _ _ _ _ _ _ Hw4 Hsec)).
    - apply steady_for_each. intros section. apply steady_map_section.
    - apply (preserves_for_each same_loader). intros section.
      apply preserves_map_section. }
  unfold bind at 1 in H.
  destruct (_handle_iats (_handle ext d) obj w5) as [[[] | e] w6] eqn:Hiat.
  2:{ inversion H; subst. intros Heq. inversion Heq; subst.
      refine (handle_iats_within (_handle ext d) d q _ obj w5 _ _ Hw5 Hiat eq_refl).
      intros item w0 r0 w0' Hin (Hq0 & Hn0) Hh. split.
      - apply (Hnested item w0 r0 w0'); [rewrite Hq0; exact Hin | exact Hn0 | exact Hh].
      - apply (handle_grows ext d item w0 r0 w0' Hh). }
  exact (steady_handle_reloc _ _ _ _ H).
Qed.

(** A nested load, on a pending request, needs a depth above the number of
    pending requests not yet mapped. *)
Lemma handle_pending_depth (d : nat) :
  forall item w r w',
    In item (_interact_queue (loader_plugin (loader w))) ->
    (pending_unloaded w < d)%nat ->
    _handle ext d item w = (r, w') -> r <> Raise RecursionError.
Proof.
  induction d as [| d IH]; intros item w r w' Hin Hn H; [lia |].
  refine (handle_step_depth d item w IH _ r w' H).
  intros Hnew m.
  pose proof (proj2 (register_pending w item m Hnew) Hin) as Hlt.
  simpl in Hlt. lia.
Qed.

(** A load needs a depth of two above the number of pending requests not
    yet mapped; at such a depth [_handle] never raises [RecursionError]. *)
Lemma handle_depth_enough (depth : nat) (obj : PELoaderInfo) (w : World)
    (r : Res unit) (w' : World) :
  (pending_unloaded w + 1 < depth)%nat ->
  _handle ext depth obj w = (r, w') -> r <> Raise RecursionError.
Proof.
  destruct depth as [| d]; intros Hn H; [lia |].
  refine (handle_step_depth d obj w (handle_pending_depth d) _ r w' H).
  intros Hnew m.
  pose proof (proj1 (register_pending w obj m Hnew)) as Hle.
  simpl in Hle. lia.
Qed.

End DepthBound.

(** ** Placement: the theorems *)

Lemma no_segment_overlaps_forall (segs : list Segment) (address size : Z) :
  no_segment_overlaps segs address size = true <->
  forall s, In s segs -> overlaps s address size = false.
Proof.
  induction segs as [| s segs IH]; simpl.
  - split; [intros _ s [] | reflexivity].
  - destruct (overlaps s address size) eqn:E.
    + split; [discriminate |]. intros H.
      specialize (H s (or_introl eq_refl)). congruence.
    + rewrite IH. split.
      * intros H s' [<- | Hin]; [exact E | apply H, Hin].
      * intros H s' Hin. apply H. right. exact Hin.
Qed.

Lemma pick_base_spec_free ext obj parsed m n b :
  pick_base_spec ext obj parsed m n = Some b -> base_free ext m b parsed = true.
Proof.
  unfold pick_base_spec, user_choice, preferred_choice, aslr_choice.
  destruct (base obj) as [ub |].
  - destruct (is_pie parsed && base_free ext m ub parsed) eqn:Eu.
    { intros [= <-]. apply andb_prop in Eu. apply Eu. }
    destruct (negb (prefer_aslr obj && DYNAMIC_BASE parsed) &&
              base_free ext m (imagebase parsed) parsed) eqn:Ep.
    { intros [= <-]. apply andb_prop in Ep. apply Ep. }
    destruct (is_pie parsed); [| discriminate].
    intros H. apply find_some in H. apply H.
  - destruct (negb (prefer_aslr obj && DYNAMIC_BASE parsed) &&
              base_free ext m (imagebase parsed) parsed) eqn:Ep.
    { intros [= <-]. apply andb_prop in Ep. apply Ep. }
    destruct (is_pie parsed); [| discriminate].
    intros H. apply find_some in H. apply H.
Qed.

Lemma find_none_all {A} (f : A -> bool) (l : list A) :
  (forall x, In x l -> f x = false) -> List.find f l = None.
Proof.
  induction l as [| x l IH]; simpl; intros H; [reflexivity |].
  rewrite (H x (or_introl eq_refl)). apply IH. intros y Hy. apply H. right. exact Hy.
Qed.

(** C3, in the form that holds: on the ASLR path of a relocatable image the first
    candidate is floor + (r << 16) + preferred base, with the floor
    0x7ff000000000 for (high-entropy, library) only and r a draw of
    19/17/14/8 bits; each of the at most five retries takes a fresh result of
    [calculate_aslr] as its candidate, floor + (r' << 16): the floor is part
    of every attempt, the preferred base of the first only.  The first free
    candidate in this order is the base, and no draw is made after it. *)
Theorem aslr_path_candidates (ext : External) (obj : PELoaderInfo)
    (parsed : Binary) (w : World) :
  ready (loader_plugin (loader w)) = true ->
  is_pie parsed = true ->
  let floor := match HIGH_ENTROPY_VA parsed, DLL parsed with
               | true, true => 0x7ff000000000
               | _, _ => 0
               end in
  let bits := match HIGH_ENTROPY_VA parsed, DLL parsed with
              | true, true => 19
              | true, false => 17
              | false, true => 14
              | false, false => 8
              end in
  let r := fun i : nat => ext_random ext (random_draws w + i) mod 2 ^ bits in
  let candidates :=
    (floor + Z.shiftl (r 0%nat) 16 + imagebase parsed) ::
    map (fun i => floor + Z.shiftl (r i) 16) [1; 2; 3; 4; 5]%nat in
  (forall i, 0 <= r i < 2 ^ bits) /\
  exists w',
    pick_aslr_base ext obj parsed w =
      (Ok (List.find (fun c => base_free ext (mem w) c parsed) candidates), w') /\
    same_but_log_random w w' /\
    (random_draws w < random_draws w' <= random_draws w + 6)%nat /\
    (base_free ext (mem w) (floor + Z.shiftl (r 0%nat) 16 + imagebase parsed) parsed
       = true -> random_draws w' = S (random_draws w)).
Proof.
  intros Hr Hpie floor bits r candidates.
  split.
  { intros i. apply Z.mod_pos_bound.
    subst bits. destruct (HIGH_ENTROPY_VA parsed), (DLL parsed); reflexivity. }
  assert (Hc : candidates = aslr_candidates ext parsed (random_draws w)).
  { subst candidates r floor bits. unfold aslr_candidates, aslr_value.
    unfold aslr_base_value, aslr_bits_amount. cbn [map seq].
    rewrite !Nat.add_succ_r, !Nat.add_0_r.
    destruct (HIGH_ENTROPY_VA parsed), (DLL parsed); reflexivity. }
  rewrite Hc.
  unfold pick_aslr_base. rewrite Hpie.
  unfold bind at 1. rewrite calculate_aslr_run.
  set (he := HIGH_ENTROPY_VA parsed). set (dll := DLL parsed).
  set (w1 := set_random_draws (S (random_draws w)) w).
  assert (Hr1 : ready (loader_plugin (loader w1)) = true) by exact Hr.
  destruct (aslr_retry_run ext obj parsed he dll 5
              (aslr_value ext he dll (random_draws w) + imagebase parsed) w1 Hr1)
    as (b & w2 & Hrun & Hfr & Hn & Hfind).
  assert (Hfirst : base_free ext (mem w)
             (aslr_value ext he dll (random_draws w) + imagebase parsed) parsed = true ->
           w2 = w1).
  { intros Hfree. simpl in Hrun. unfold bind at 1 in Hrun.
    rewrite is_base_ok_run in Hrun by exact Hr1.
    change (mem w1) with (mem w) in Hrun. rewrite Hfree in Hrun.
    inversion Hrun. reflexivity. }
  unfold bind at 1. rewrite Hrun.
  assert (Hr2 : ready (loader_plugin (loader w2)) = true).
  { destruct Hfr as (_ & Hl & _). rewrite Hl. exact Hr. }
  unfold bind at 1. rewrite is_base_ok_run by exact Hr2.
  assert (Hm2 : mem w2 = mem w) by (destruct Hfr as (Hm & _); exact Hm).
  rewrite Hm2. change (mem w1) with (mem w) in Hfind.
  change (random_draws w1) with (S (random_draws w)) in Hfind, Hn.
  unfold aslr_candidates. fold he dll. rewrite <- Hfind.
  rewrite find_singleton_true.
  assert (Hfr' : same_but_log_random w w2).
  { transitivity w1; [repeat split | exact Hfr]. }
  assert (Hfirst' : floor + Z.shiftl (r 0%nat) 16 + imagebase parsed =
                    aslr_value ext he dll (random_draws w) + imagebase parsed).
  { subst candidates. unfold aslr_candidates in Hc. fold he dll in Hc.
    inversion Hc. reflexivity. }
  rewrite Hfirst'.
  destruct (base_free ext (mem w) b parsed); simpl;
    eexists; (split; [reflexivity |]); (split; [| split]).
  - transitivity w2; [exact Hfr' | repeat split].
  - simpl. lia.
  - intros Hfree. simpl. rewrite (Hfirst Hfree). reflexivity.
  - transitivity w2; [exact Hfr' | repeat split].
  - simpl. lia.
  - intros Hfree. simpl. rewrite (Hfirst Hfree). reflexivity.
Qed.

(** C4, in the form that holds: a base that base selection returns has passed
    [is_base_ok] on the memory as the emulator has it at that moment: the
    range [base, base + virtual size) is not reported mapped by the memory
    subsystem and meets none of the segments it lists, and selection leaves
    that memory as it is.  The loader's own table is not consulted. *)
Theorem pick_base_free_in_memory (ext : External) (obj : PELoaderInfo)
    (parsed : Binary) (w w' : World) (b : Z) :
  _pick_base ext obj (Some parsed) w = (Ok b, w') ->
  ext_is_mapped ext (mem w) b (virtual_size parsed) = false /\
  (forall s, In s (segments (mem w)) ->
             b + virtual_size parsed <= seg_start s \/
             seg_start s + seg_size s <= b) /\
  mem w' = mem w /\ loader w' = loader w.
Proof.
  intros H.
  destruct (ready (loader_plugin (loader w))) eqn:Hr.
  2:{ unfold _pick_base, bind, self_ready in H. rewrite Hr in H. discriminate H. }
  destruct (pick_base_run ext obj parsed w Hr) as (w2 & Hrun & Hfr).
  rewrite Hrun in H.
  destruct (pick_base_spec ext obj parsed (mem w) (random_draws w)) as [b' |] eqn:Hs;
    [| discriminate H].
  inversion H; subst b' w2. clear H.
  apply pick_base_spec_free in Hs. unfold base_free in Hs.
  apply andb_prop in Hs. destruct Hs as [Hm Hseg].
  split; [apply negb_true_iff, Hm |]. split.
  - intros s Hin.
    pose proof (proj1 (no_segment_overlaps_forall _ _ _) Hseg s Hin) as Ho.
    unfold overlaps in Ho. apply andb_false_iff in Ho.
    destruct Ho as [Ho | Ho]; apply Z.ltb_ge in Ho; [left | right]; lia.
  - destruct Hfr as (Hm' & Hl & _). split; assumption.
Qed.

(** C5: when placement has no viable base - the explicit base absent or not
    accepted, the preferred base occupied (or not tried because
    randomization is requested and supported), ASLR unavailable or its six
    candidates all occupied - [_handle] raises the bad-placement error and
    the failure is atomic: the loader (its table included), the memory, the
    stream mapper and the permission-override plugin are as before; only the
    log and the random module have moved. *)
Theorem handle_bad_placement_atomic (ext : External) (depth : nat)
    (obj : PELoaderInfo) (parsed : Binary) (w : World) :
  ready (loader_plugin (loader w)) = true ->
  dict_has (_loaded (loader w)) (file obj) = false ->
  ext_parse ext (file obj) = Some parsed ->
  (base obj = None \/ is_pie parsed = false \/
   exists b, base obj = Some b /\ base_free ext (mem w) b parsed = false) ->
  (base_free ext (mem w) (imagebase parsed) parsed = false \/
   prefer_aslr obj && DYNAMIC_BASE parsed = true) ->
  (is_pie parsed = false \/
   forall c, In c (aslr_candidates ext parsed (random_draws w)) ->
             base_free ext (mem w) c parsed = false) ->
  exists w',
    _handle ext (S depth) obj w = (Raise HSPluginBadStateError, w') /\
    loader w' = loader w /\
    mem w' = mem w /\
    stream_mapper w' = stream_mapper w /\
    enforce_memory w' = enforce_memory w /\
    enforced w' = enforced w.
Proof.
  intros Hr Hnew Hparse Huser Hpref Haslr.
  assert (Hspec : forall n, n = random_draws w ->
             pick_base_spec ext obj parsed (mem w) n = None).
  { intros n ->. unfold pick_base_spec.
    assert (Hu : user_choice ext obj parsed (mem w) = None).
    { unfold user_choice. destruct Huser as [-> | [Hp | (b & -> & Hb)]].
      - reflexivity.
      - destruct (base obj); [rewrite Hp |]; reflexivity.
      - rewrite Hb, andb_false_r. reflexivity. }
    assert (Hp : preferred_choice ext obj parsed (mem w) = None).
    { unfold preferred_choice. destruct Hpref as [-> | ->].
      - rewrite andb_false_r. reflexivity.
      - reflexivity. }
    rewrite Hu, Hp. unfold aslr_choice.
    destruct Haslr as [-> | Hall]; [reflexivity |].
    destruct (is_pie parsed); [| reflexivity].
    apply find_none_all. exact Hall. }
  simpl _handle. unfold bind at 1, get at 1. rewrite Hnew.
  unfold bind at 1, log_msg at 1, modify at 1.
  set (w1 := set_log (log w ++ [(INFO, MsgMappingPE obj)]) w).
  rewrite Hparse.
  destruct (pick_base_run ext obj parsed w1 Hr) as (w2 & Hrun & Hfr).
  change (mem w1) with (mem w) in Hrun.
  rewrite (Hspec (random_draws w1) eq_refl) in Hrun.
  unfold bind at 1. rewrite Hrun.
  exists w2. split; [reflexivity |].
  destruct Hfr as (Hm & Hl & Hs & He & Hd). repeat split; assumption.
Qed.

(** C9: a request whose file is in the table of mapped images is a no-op,
    whatever explicit base or randomization preference it carries: [_handle]
    returns at once and the world - the existing entry with its base, the
    memory, the stream mapper, the log, the random module - is untouched.
    In particular, once [_handle] has returned for a request, every later
    request for the same file is such a no-op. *)
Theorem handle_repeated_request_noop (ext : External) (depth : nat)
    (obj : PELoaderInfo) (w : World) :
  (forall m, dict_get (_loaded (loader w)) (file obj) = Some m ->
             _handle ext (S depth) obj w = (Ok tt, w)) /\
  (forall depth0 first w0,
      _handle ext depth0 first w0 = (Ok tt, w) ->
      file obj = file first ->
      _handle ext (S depth) obj w = (Ok tt, w)).
Proof.
  split.
  - intros m Hm. apply handle_loaded_run. apply dict_has_get. exists m. exact Hm.
  - intros depth0 first w0 Hfirst Hfile. apply handle_loaded_run.
    rewrite Hfile. apply (handle_grows ext depth0 first w0 (Ok tt) w Hfirst).
    reflexivity.
Qed.

(** ** Relocation *)

Lemma read_write_word (m : Memory) (a v a' : Z) :
  read_word (write_word m a v) a' = if decide (a = a') then v else read_word m a'.
Proof.
  unfold read_word, write_word; simpl. rewrite lookup_insert.
  destruct (decide (a = a')); reflexivity.
Qed.

Lemma for_each_app {A} (l1 l2 : list A) (body : A -> M unit) (w : World) :
  for_each (l1 ++ l2) body w = (for_each l1 body ;; for_each l2 body) w.
Proof.
  revert w. induction l1 as [| x l1 IH]; intros w; simpl.
  - reflexivity.
  - unfold bind in *. destruct (body x w) as [[[] | e] w1]; [| reflexivity].
    rewrite IH. reflexivity.
Qed.

Lemma patched_nil delta w : patched delta [] w w.
Proof.
  split; [destruct w; reflexivity |]. split; [reflexivity |].
  intros a. simpl. lia.
Qed.

Lemma patched_app delta t1 t2 w w1 w2 :
  patched delta t1 w w1 -> patched delta t2 w1 w2 ->
  patched delta (t1 ++ t2) w w2.
Proof.
  intros (E1 & S1 & R1) (E2 & S2 & R2). split; [| split].
  - rewrite E2, E1. reflexivity.
  - congruence.
  - intros a. rewrite R2, R1, count_occ_app. lia.
Qed.


Lemma reloc_entry_run (parsed : Binary) (base : Z) (reloc : Relocation)
    (entry : RelocationEntry) (w : World) :
  ready (loader_plugin (loader w)) = true ->
  exists w',
    reloc_entry parsed base reloc entry w = (Ok tt, w') /\
    patched (base - imagebase parsed)
            (if is_ABS (reloc_type entry) then []
             else [base + reloc_virtual_address reloc + position entry]) w w'.
Proof.
  intros Hr. unfold reloc_entry.
  destruct (is_ABS (reloc_type entry)).
  - exists w. split; [reflexivity | apply patched_nil].
  - unfold bind, self_ready. rewrite Hr. simpl.
    eexists. split; [reflexivity |]. split; [reflexivity |]. split; [reflexivity |].
    intros a. simpl mem. rewrite read_write_word.
    destruct (decide (base + reloc_virtual_address reloc + position entry = a))
      as [-> | Hne]; simpl.
    + destruct (Z.eq_dec a a); [lia | congruence].
    + destruct (Z.eq_dec _ a); [congruence | lia].
Qed.

Lemma patched_ready delta targets w w' :
  patched delta targets w w' ->
  ready (loader_plugin (loader w')) = ready (loader_plugin (loader w)).
Proof. intros (E & _). rewrite E. reflexivity. Qed.

Lemma reloc_block_run (parsed : Binary) (base : Z) (reloc : Relocation)
    (entries : list RelocationEntry) :
  forall w,
    ready (loader_plugin (loader w)) = true ->
    exists w',
      for_each entries (reloc_entry parsed base reloc) w = (Ok tt, w') /\
      patched (base - imagebase parsed)
        (map (fun entry => base + reloc_virtual_address reloc + position entry)
             (List.filter (fun entry => negb (is_ABS (reloc_type entry))) entries)) w w'.
Proof.
  induction entries as [| entry entries IH]; intros w Hr.
  - exists w. split; [reflexivity | apply patched_nil].
  - destruct (reloc_entry_run parsed base reloc entry w Hr) as (w1 & Hrun & Hp).
    assert (Hr1 : ready (loader_plugin (loader w1)) = true).
    { rewrite (patched_ready _ _ _ _ Hp). exact Hr. }
    destruct (IH w1 Hr1) as (w' & Hrest & Hp').
    exists w'. split.
    + simpl. unfold bind. rewrite Hrun. exact Hrest.
    + simpl List.filter. destruct (is_ABS (reloc_type entry)); simpl.
      * exact (patched_app _ [] _ _ _ _ Hp Hp').
      * exact (patched_app _ [_] _ _ _ _ Hp Hp').
Qed.

Lemma reloc_blocks_run (parsed : Binary) (base : Z) (relocs : list Relocation) :
  forall w,
    ready (loader_plugin (loader w)) = true ->
    exists w',
      for_each relocs (fun reloc =>
        for_each (reloc_entries reloc) (reloc_entry parsed base reloc)) w
      = (Ok tt, w') /\
      patched (base - imagebase parsed) (flat_map (block_targets base) relocs) w w'.
Proof.
  induction relocs as [| reloc relocs IH]; intros w Hr.
  - exists w. split; [reflexivity | apply patched_nil].
  - destruct (reloc_block_run parsed base reloc (reloc_entries reloc) w Hr)
      as (w1 & Hrun & Hp).
    assert (Hr1 : ready (loader_plugin (loader w1)) = true).
    { rewrite (patched_ready _ _ _ _ Hp). exact Hr. }
    destruct (IH w1 Hr1) as (w' & Hrest & Hp').
    exists w'. split.
    + simpl. unfold bind. rewrite Hrun. exact Hrest.
    + simpl flat_map. exact (patched_app _ _ _ _ _ _ Hp Hp').
Qed.

Lemma handle_reloc_run (pefile : PELoaderInfo) (m : MappedPE) (w : World) :
  ready (loader_plugin (loader w)) = true ->
  dict_get (_loaded (loader w)) (file pefile) = Some m ->
  exists w',
    _handle_reloc pefile w = (Ok tt, w') /\
    patched (mapped_base m - imagebase (pe m)) (reloc_targets m) w w'.
Proof.
  intros Hr Hm. unfold _handle_reloc, bind at 1, loaded_item_of. rewrite Hm.
  apply reloc_blocks_run, Hr.
Qed.

(** C6: [_handle_reloc] visits every entry of every relocation block of the
    mapped image; an [ABS] entry changes nothing, and every other entry
    rewrites the word at (resolved base + block virtual address + entry
    position) from its value v to v - preferred base + resolved base.  So
    afterwards each word has moved by (resolved - preferred) once per
    non-[ABS] entry that points at it: a word no such entry points at is
    unchanged, and a word exactly one such entry points at holds
    v - preferred base + resolved base. *)
Theorem handle_reloc_rewrites (pefile : PELoaderInfo) (m : MappedPE) (w : World) :
  ready (loader_plugin (loader w)) = true ->
  dict_get (_loaded (loader w)) (file pefile) = Some m ->
  exists w',
    _handle_reloc pefile w = (Ok tt, w') /\
    w' = set_mem (mem w') w /\
    segments (mem w') = segments (mem w) /\
    (forall a,
        read_word (mem w') a =
        read_word (mem w) a +
        Z.of_nat (count_occ Z.eq_dec (reloc_targets m) a) *
        (mapped_base m - imagebase (pe m))) /\
    (forall a, ~ In a (reloc_targets m) ->
               read_word (mem w') a = read_word (mem w) a) /\
    (forall a, count_occ Z.eq_dec (reloc_targets m) a = 1%nat ->
               read_word (mem w') a =
               read_word (mem w) a - imagebase (pe m) + mapped_base m) /\
    (forall a,
        In a (reloc_targets m) <->
        exists reloc entry,
          In reloc (relocations (pe m)) /\ In entry (reloc_entries reloc) /\
          reloc_type entry <> ABS /\
          a = mapped_base m + reloc_virtual_address reloc + position entry).
Proof.
  intros Hr Hm.
  destruct (handle_reloc_run pefile m w Hr Hm) as (w' & Hrun & HE & HS & HR).
  exists w'. split; [exact Hrun |]. split; [exact HE |]. split; [exact HS |].
  split; [exact HR |]. split; [| split].
  - intros a Hna. rewrite HR.
    rewrite (proj1 (count_occ_not_In Z.eq_dec _ _) Hna). lia.
  - intros a H1. rewrite HR, H1. lia.
  - intros a. unfold reloc_targets, block_targets.
    rewrite in_flat_map. split.
    + intros (reloc & Hin & Hmap). apply in_map_iff in Hmap.
      destruct Hmap as (entry & Heq & Hf). apply filter_In in Hf.
      destruct Hf as (Hine & Hty). exists reloc, entry.
      repeat split; try assumption; [| symmetry; exact Heq].
      intros Habs. rewrite Habs in Hty. discriminate Hty.
    + intros (reloc & entry & Hin & Hine & Hty & Heq).
      exists reloc. split; [exact Hin |]. apply in_map_iff.
      exists entry. split; [symmetry; exact Heq |]. apply filter_In.
      split; [exact Hine |]. destruct (reloc_type entry); try reflexivity.
      congruence.
Qed.

(** ** Import resolution: filling the table of one dependency *)

(** The dictionary [exports] maps a name to the last export entry that
    bears it. *)
Lemma build_exports_lookup (entries : list ExportEntry) (name : string) :
  build_exports entries !! name =
  List.find (fun e => String.eqb (export_name e) name) (rev entries).
Proof.
  unfold build_exports.
  induction entries as [| e entries IH] using rev_ind; [reflexivity |].
  rewrite fold_left_app, rev_app_distr. simpl.
  destruct (String.eqb (export_name e) name) eqn:E.
  - apply String.eqb_eq in E. subst name. apply lookup_insert_eq.
  - rewrite lookup_insert_ne; [exact IH |].
    intros Heq. rewrite Heq, String.eqb_refl in E. discriminate E.
Qed.

Lemma apply_writes_app ws1 ws2 m :
  apply_writes (ws1 ++ ws2) m = apply_writes ws2 (apply_writes ws1 m).
Proof. unfold apply_writes. apply fold_left_app. Qed.

Lemma apply_writes_untouched ws : forall m a,
  (forall v, ~ In (a, v) ws) ->
  read_word (apply_writes ws m) a = read_word m a.
Proof.
  induction ws as [| [a0 v0] ws IH]; intros m a Hn; [reflexivity |].
  simpl. rewrite IH.
  - rewrite read_write_word. destruct (decide (a0 = a)) as [-> | _]; [| reflexivity].
    exfalso. apply (Hn v0). left. reflexivity.
  - intros v Hin. apply (Hn v). right. exact Hin.
Qed.

Lemma load_iat_entry_run pefile dependency lib my_base exports entry w :
  load_iat_entry pefile dependency lib my_base exports entry w =
  (Ok tt,
   match exports !! import_entry_name entry with
   | None =>
       set_log (log w ++ [(ERROR, MsgMissingSymbol (import_name dependency)
                                    (import_entry_name entry) pefile)]) w
   | Some export =>
       set_mem (write_word (mem w) (my_base + iat_address entry)
                           (mapped_base lib + function_rva export))
         (set_log (log w ++ [(DEBUG, MsgLoadingIAT (import_name dependency)
                                       (export_name export) pefile)]) w)
   end).
Proof.
  unfold load_iat_entry. destruct (exports !! import_entry_name entry); reflexivity.
Qed.

Lemma load_iat_entries_run pefile dependency lib my_base exports entries :
  forall w, exists w',
    for_each entries (load_iat_entry pefile dependency lib my_base exports) w
      = (Ok tt, w') /\
    same_but_words_log w w' /\
    mem w' = apply_writes (iat_writes lib my_base exports entries) (mem w).
Proof.
  induction entries as [| entry entries IH]; intros w.
  - exists w. repeat split.
  - simpl for_each. unfold bind. rewrite load_iat_entry_run.
    match goal with |- context [for_each _ _ ?w1] =>
      destruct (IH w1) as (w' & Hrun & Hfr & Hmem) end.
    exists w'. split; [exact Hrun |].
    destruct Hfr as (Hl & Hs & Hn & Hsm & Hem & Hen).
    unfold iat_writes in *. simpl flat_map. rewrite apply_writes_app.
    destruct (exports !! import_entry_name entry) as [export |];
      simpl in *; (split; [repeat split; assumption | exact Hmem]).
Qed.

Lemma load_iat_run pefile dependency lib me l directory w :
  ready (loader_plugin (loader w)) = true ->
  dict_get (_loaded (loader w)) (file pefile) = Some me ->
  dict_get (_loaded (loader w)) (file (info lib)) = Some l ->
  get_export (pe l) = Some directory ->
  exists w',
    _load_iat pefile dependency lib w = (Ok tt, w') /\
    same_but_words_log w w' /\
    mem w' = apply_writes
               (iat_writes lib (mapped_base me)
                  (build_exports (export_entries directory))
                  (import_entries dependency)) (mem w).
Proof.
  intros Hr Hme Hl Hdir. unfold _load_iat.
  unfold bind at 1, self_ready at 1. rewrite Hr. cbn [negb].
  unfold bind at 1, loaded_item_of at 1. rewrite Hme.
  unfold bind at 1, loaded_item_of at 1. rewrite Hl, Hdir.
  apply load_iat_entries_run.
Qed.

(** The unguarded [parsed.get_export().entries]: for a library without
    export directory [_load_iat] raises [AttributeError], and nothing has
    been written or logged. *)
Lemma load_iat_no_directory pefile dependency lib me l w :
  ready (loader_plugin (loader w)) = true ->
  dict_get (_loaded (loader w)) (file pefile) = Some me ->
  dict_get (_loaded (loader w)) (file (info lib)) = Some l ->
  get_export (pe l) = None ->
  _load_iat pefile dependency lib w = (Raise AttributeError, w).
Proof.
  intros Hr Hme Hl Hdir. unfold _load_iat.
  unfold bind at 1, self_ready at 1. rewrite Hr. cbn [negb].
  unfold bind at 1, loaded_item_of at 1. rewrite Hme.
  unfold bind at 1, loaded_item_of at 1. rewrite Hl, Hdir.
  reflexivity.
Qed.

Lemma iat_writes_slot lib my_base (exports : gmap string ExportEntry)
    pre entry post export m :
  exports !! import_entry_name entry = Some export ->
  (forall later, In later post ->
                 exports !! import_entry_name later <> None ->
                 iat_address later <> iat_address entry) ->
  read_word (apply_writes (iat_writes lib my_base exports (pre ++ entry :: post)) m)
            (my_base + iat_address entry)
  = mapped_base lib + function_rva export.
Proof.
  intros Hex Hlater. unfold iat_writes.
  rewrite flat_map_app. simpl flat_map. rewrite Hex.
  rewrite apply_writes_app. simpl app. simpl apply_writes at 1.
  rewrite apply_writes_untouched.
  - rewrite read_write_word. destruct (decide _); [reflexivity | congruence].
  - intros v Hin. apply in_flat_map in Hin.
    destruct Hin as (later & Hlin & Hv).
    destruct (exports !! import_entry_name later) as [ex' |] eqn:E;
      [| destruct Hv].
    destruct Hv as [Hv | []]. inversion Hv as [[Ha Hval]].
    apply (Hlater later Hlin); [rewrite E; discriminate | lia].
Qed.

Lemma iat_writes_untouched lib my_base (exports : gmap string ExportEntry)
    entries m a :
  (forall entry, In entry entries ->
                 exports !! import_entry_name entry <> None ->
                 my_base + iat_address entry <> a) ->
  read_word (apply_writes (iat_writes lib my_base exports entries) m) a
  = read_word m a.
Proof.
  intros Hno. apply apply_writes_untouched.
  intros v Hin. apply in_flat_map in Hin.
  destruct Hin as (entry & Hein & Hv).
  destruct (exports !! import_entry_name entry) as [ex' |] eqn:E;
    [| destruct Hv].
  destruct Hv as [Hv | []]. inversion Hv as [[Ha Hval]].
  apply (Hno entry Hein); [rewrite E; discriminate | exact Ha].
Qed.


(** ** Import resolution: locating the image of a dependency *)

Lemma bind_ok {A B} (m : M A) (k : A -> M B) (w w1 : World) (a : A) :
  m w = (Ok a, w1) -> bind m k w = k a w1.
Proof. intros H. unfold bind. rewrite H. reflexivity. Qed.

Lemma bind_raise {A B} (m : M A) (k : A -> M B) (w w1 : World) (e : Exc) :
  m w = (Raise e, w1) -> bind m k w = (Raise e, w1).
Proof. intros H. unfold bind. rewrite H. reflexivity. Qed.

Lemma bind_cong {A B} (m m' : M A) (k : A -> M B) (w w' : World) :
  m w = m' w' -> bind m k w = bind m' k w'.
Proof. intros H. unfold bind. rewrite H. reflexivity. Qed.

Section DependencyLookup.

Context (ext : External).

Lemma scan_queue_none (handle : PELoaderInfo -> M unit) name queue li w :
  queue_candidate name queue = None ->
  scan_queue handle name queue li w = (Ok li, w).
Proof.
  unfold queue_candidate. induction queue as [| item queue IH]; simpl; intros H.
  - reflexivity.
  - destruct (str_in name (file item)); [discriminate H | apply IH, H].
Qed.

Lemma scan_queue_some (handle : PELoaderInfo -> M unit) name queue li w item :
  queue_candidate name queue = Some item ->
  scan_queue handle name queue li w =
  (handle item ;; m <- loaded_item_of (file item) ;; ret (Some m)) w.
Proof.
  unfold queue_candidate. induction queue as [| item0 queue IH]; simpl; intros H.
  - discriminate H.
  - destruct (str_in name (file item0)).
    + inversion H; subst. reflexivity.
    + apply IH, H.
Qed.

Lemma scan_loaded_no_pending (handle : PELoaderInfo -> M unit) name keys li w :
  queue_candidate name (_interact_queue (loader_plugin (loader w))) = None ->
  scan_loaded handle name keys li w = walk_outcome name keys li w.
Proof.
  intros Hq. unfold walk_outcome, mapped_candidate.
  induction keys as [| k keys IH]; simpl; [reflexivity |].
  destruct (str_in name k); simpl; [reflexivity |].
  unfold bind at 1, get at 1.
  rewrite (bind_ok _ _ _ _ _ (scan_queue_none handle name _ li w Hq)).
  exact IH.
Qed.

Lemma scan_loaded_settled (handle : PELoaderInfo -> M unit) name keys item m1 w :
  queue_candidate name (_interact_queue (loader_plugin (loader w))) = Some item ->
  handle item w = (Ok tt, w) ->
  dict_get (_loaded (loader w)) (file item) = Some m1 ->
  scan_loaded handle name keys (Some m1) w = walk_outcome name keys (Some m1) w.
Proof.
  intros Hq Hnoop Hm1. unfold walk_outcome, mapped_candidate.
  induction keys as [| k keys IH]; cbn [scan_loaded List.find];
    [reflexivity |].
  destruct (str_in name k); cbn [negb]; [reflexivity |].
  unfold bind at 1, get at 1.
  assert (Hscan : scan_queue handle name
                    (_interact_queue (loader_plugin (loader w))) (Some m1) w
                  = (Ok (Some m1), w)).
  { rewrite (scan_queue_some _ _ _ _ _ _ Hq).
    rewrite (bind_ok _ _ _ _ _ Hnoop).
    unfold bind, loaded_item_of. rewrite Hm1. reflexivity. }
  rewrite (bind_ok _ _ _ _ _ Hscan). exact IH.
Qed.

Lemma handle_dependency_resolve (depth : nat) (pefile : PELoaderInfo)
    (dependency : Import) (w : World) :
  handle_dependency (_handle ext (S depth)) pefile dependency w =
  resolve_dependency ext (S depth) pefile dependency w.
Proof.
  pose proof (handle_grows ext (S depth)) as Hgrows.
  pose proof (handle_loaded_run ext depth) as Hnoop.
  unfold resolve_dependency.
  remember (_handle ext (S depth)) as handle eqn:Hhandle. clear Hhandle.
  unfold handle_dependency.
  change (bind get ?k w) with (k w w). cbv beta.
  set (name := import_name dependency).
  set (queue := _interact_queue (loader_plugin (loader w))).
  destruct (dict_keys (_loaded (loader w))) as [| first keys] eqn:Hkeys.
  { reflexivity. }
  cbn [scan_loaded]. unfold mapped_candidate. cbn [List.find].
  destruct (str_in name first) eqn:Hfirst; cbn [negb].
  { unfold bind, ret. destruct (loaded_item_of first w) as [[m | e] w1];
      reflexivity. }
  destruct (queue_candidate name queue) as [item |] eqn:Hq.
  - assert (Hwalk :
      (w0 <- get ;;
       loaded_item' <- scan_queue handle name
                         (_interact_queue (loader_plugin (loader w0))) None ;;
       scan_loaded handle name keys loaded_item') w =
      (handle item ;;
       m <- loaded_item_of (file item) ;;
       scan_loaded handle name keys (Some m)) w).
    { change (bind get ?k w) with (k w w). cbv beta. fold queue.
      unfold bind at 1. rewrite (scan_queue_some _ name queue None w item Hq).
      unfold bind. destruct (handle item w) as [[[] | e] w1]; [| reflexivity].
      destruct (loaded_item_of (file item) w1) as [[m | e] w2]; reflexivity. }
    rewrite (bind_cong _ _ _ _ _ Hwalk). clear Hwalk.
    destruct (handle item w) as [[[] | e] w1] eqn:Hh.
    2:{ rewrite (bind_raise _ _ _ _ _ Hh).
        apply bind_raise. apply bind_raise. exact Hh. }
    rewrite (bind_ok _ _ _ _ _ Hh).
    destruct (Hgrows item w (Ok tt) w1 Hh) as (Hg & Hin).
    pose proof (Hnoop item w1 (Hin eq_refl)) as Hnoop1.
    apply dict_has_get in Hin; [| reflexivity]. destruct Hin as (m1 & Hm1).
    assert (Hq1 : queue_candidate name
                    (_interact_queue (loader_plugin (loader w1))) = Some item).
    { destruct Hg as (Hp & _). rewrite Hp. exact Hq. }
    assert (Hwalk :
      (handle item ;;
       m <- loaded_item_of (file item) ;;
       scan_loaded handle name keys (Some m)) w =
      walk_outcome name keys (Some m1) w1).
    { rewrite (bind_ok _ _ _ _ _ Hh).
      unfold bind at 1, loaded_item_of at 1. rewrite Hm1.
      apply scan_loaded_settled with (item := item); assumption. }
    rewrite (bind_cong _ _ _ _ _ Hwalk). clear Hwalk.
    unfold walk_outcome, mapped_candidate.
    destruct (List.find (str_in name) keys) as [key |].
    + unfold bind, ret. destruct (loaded_item_of key w1) as [[m | e'] w2];
        reflexivity.
    + unfold bind, ret, loaded_item_of. rewrite Hm1. reflexivity.
  - assert (Hwalk :
      (w0 <- get ;;
       loaded_item' <- scan_queue handle name
                         (_interact_queue (loader_plugin (loader w0))) None ;;
       scan_loaded handle name keys loaded_item') w =
      walk_outcome name keys None w).
    { change (bind get ?k w) with (k w w). cbv beta. fold queue.
      rewrite (bind_ok _ _ _ _ _ (scan_queue_none handle name queue None w Hq)).
      apply scan_loaded_no_pending. exact Hq. }
    rewrite (bind_cong _ _ _ _ _ Hwalk). clear Hwalk.
    unfold walk_outcome, mapped_candidate.
    destruct (List.find (str_in name) keys) as [key |].
    + unfold bind, ret. destruct (loaded_item_of key w) as [[m | e] w1];
        reflexivity.
    + reflexivity.
Qed.

(** C2, in the form that holds: the lookup of a dependency by
    [_handle_iats] is [resolve_dependency].  Mapped images are matched by
    their key containing the dependency's declared name as a substring, the
    first such key in table order supplying the exports; when that key is
    the first of the table, or no pending request's path contains the name,
    nothing is loaded.  When the walk starts on a key that does not contain
    the name, the first pending request whose path contains it is loaded
    through the full pipeline before any export is used, and it supplies the
    exports if no key of the table contains the name.  With neither
    candidate all imports of the dependency are skipped with a warning. *)
Theorem handle_dependency_lookup (depth : nat) (pefile : PELoaderInfo)
    (dependency : Import) (w : World) :
  let name := import_name dependency in
  let keys := dict_keys (_loaded (loader w)) in
  let queue := _interact_queue (loader_plugin (loader w)) in
  let run := handle_dependency (_handle ext (S depth)) pefile dependency w in
  run = resolve_dependency ext (S depth) pefile dependency w /\
  (forall key,
      mapped_candidate name keys = Some key ->
      queue_candidate name queue = None \/ hd_error keys = Some key ->
      run = (m <- loaded_item_of key ;; _load_iat pefile dependency m) w) /\
  (forall key item first,
      mapped_candidate name keys = Some key ->
      queue_candidate name queue = Some item ->
      hd_error keys = Some first -> str_in name first = false ->
      run = (_handle ext (S depth) item ;;
             m <- loaded_item_of key ;; _load_iat pefile dependency m) w) /\
  (forall item,
      keys <> [] ->
      mapped_candidate name keys = None ->
      queue_candidate name queue = Some item ->
      run = (_handle ext (S depth) item ;;
             m <- loaded_item_of (file item) ;; _load_iat pefile dependency m) w) /\
  (mapped_candidate name keys = None ->
   queue_candidate name queue = None ->
   run = (Ok tt, set_log (log w ++ [(WARNING, MsgDependencyNotFound name pefile)]) w)).
Proof.
  intros name keys queue run.
  assert (Hrun : run = resolve_dependency ext (S depth) pefile dependency w)
    by apply handle_dependency_resolve.
  split; [exact Hrun |].
  rewrite Hrun. clear Hrun run. unfold resolve_dependency.
  change (bind get ?k w) with (k w w). cbv beta zeta.
  fold name keys queue.
  assert (Hfirst : forall first rest, keys = first :: rest ->
             str_in name first = false ->
             mapped_candidate name keys = mapped_candidate name rest).
  { intros first rest -> Hf. unfold mapped_candidate. simpl. rewrite Hf.
    reflexivity. }
  repeat split.
  - intros key Hkey Hcase. destruct keys as [| first rest] eqn:Ekeys.
    { discriminate Hkey. }
    rewrite Hkey. destruct Hcase as [Hq | Hhd].
    + rewrite Hq. destruct (str_in name first); reflexivity.
    + inversion Hhd; subst first.
      assert (Hk : str_in name key = true).
      { unfold mapped_candidate in Hkey. apply find_some in Hkey. apply Hkey. }
      rewrite Hk. reflexivity.
  - intros key item first Hkey Hq Hhd Hf. destruct keys as [| first' rest] eqn:Ekeys.
    { discriminate Hkey. }
    inversion Hhd; subst first'. rewrite Hkey, Hq, Hf. reflexivity.
  - intros item Hne Hkey Hq. destruct keys as [| first rest] eqn:Ekeys.
    { congruence. }
    rewrite Hkey, Hq.
    assert (Hf : str_in name first = false).
    { unfold mapped_candidate in Hkey. simpl in Hkey.
      destruct (str_in name first); [discriminate Hkey | reflexivity]. }
    rewrite Hf. reflexivity.
  - intros Hkey Hq. destruct keys as [| first rest] eqn:Ekeys; [reflexivity |].
    rewrite Hkey, Hq.
    assert (Hf : str_in name first = false).
    { unfold mapped_candidate in Hkey. simpl in Hkey.
      destruct (str_in name first); [discriminate Hkey | reflexivity]. }
    rewrite Hf. reflexivity.
Qed.

End DependencyLookup.

(** ** A full load fills the import slots *)


(** * Further properties of the loader *)

(** ** [calculate_aslr] and [section_perms_to_ms] *)

(** X1: [calculate_aslr] takes one draw of the random module and returns a
    multiple of 64 KiB that lies in the window of its entropy class: from
    the floor (0x7ff000000000 for a high-entropy library, 0 otherwise) up to
    the floor plus 2^(bits + 16), the draw being its quotient by 64 KiB. *)
Theorem calculate_aslr_aligned (ext : External) (high_entropy is_dll : bool)
    (w : World) :
  let floor := match high_entropy, is_dll with
               | true, true => 0x7ff000000000
               | _, _ => 0
               end in
  let bits := match high_entropy, is_dll with
              | true, true => 19
              | true, false => 17
              | false, true => 14
              | false, false => 8
              end in
  exists v,
    calculate_aslr ext high_entropy is_dll w =
      (Ok v, set_random_draws (S (random_draws w)) w) /\
    v mod 0x10000 = 0 /\
    floor <= v < floor + 2 ^ (bits + 16) /\
    (v - floor) / 0x10000 = ext_random ext (random_draws w) mod 2 ^ bits.
Proof.
  intros floor bits. rewrite calculate_aslr_run. eexists. split; [reflexivity |].
  unfold aslr_value, aslr_base_value, aslr_bits_amount.
  assert (Hshape : forall k r b, 0 <= r < 2 ^ b -> 0 <= b ->
             (k * 65536 + Z.shiftl r 16) mod 65536 = 0 /\
             k * 65536 <= k * 65536 + Z.shiftl r 16 < k * 65536 + 2 ^ (b + 16) /\
             (k * 65536 + Z.shiftl r 16 - k * 65536) / 65536 = r).
  { intros k r b Hr Hb. rewrite Z.shiftl_mul_pow2 by lia.
    change (2 ^ 16) with 65536. split; [| split].
    - replace (k * 65536 + r * 65536) with ((k + r) * 65536) by lia.
      apply Z.mod_mul. lia.
    - rewrite Z.pow_add_r by lia. change (2 ^ 16) with 65536. nia.
    - replace (k * 65536 + r * 65536 - k * 65536) with (r * 65536) by lia.
      apply Z.div_mul. lia. }
  subst floor bits. destruct high_entropy, is_dll; simpl andb; cbv iota.
  - apply (Hshape 0x7ff00000 _ 19); [apply Z.mod_pos_bound; reflexivity | lia].
  - apply (Hshape 0 _ 17); [apply Z.mod_pos_bound; reflexivity | lia].
  - apply (Hshape 0 _ 14); [apply Z.mod_pos_bound; reflexivity | lia].
  - apply (Hshape 0 _ 8); [apply Z.mod_pos_bound; reflexivity | lia].
Qed.

(** X2: [section_perms_to_ms] returns exactly the read, write and execute
    characteristics of the section, raises nothing, and leaves the world as
    it is but for one INFO record, written exactly when the section is both
    writable and executable. *)
Theorem section_perms_reads_characteristics (section : PESection) (w : World) :
  section_perms_to_ms section w =
  (Ok (section_access section),
   if MEM_WRITE section && MEM_EXECUTE section
   then set_log (log w ++ [(INFO, MsgWXDetected (section_name section))]) w
   else w).
Proof.
  unfold section_perms_to_ms, section_access.
  destruct (MEM_READ section), (MEM_WRITE section), (MEM_EXECUTE section);
    reflexivity.
Qed.

(** ** Placement and the early failures of [_handle] *)

(** X3: the explicit base of a request is honoured: for a relocatable image
    whose range at that base is free, [_pick_base] returns exactly that
    base, draws nothing, logs nothing and leaves the world as it is. *)
Theorem pick_base_honours_user_base (ext : External) (obj : PELoaderInfo)
    (parsed : Binary) (w : World) (b : Z) :
  ready (loader_plugin (loader w)) = true ->
  base obj = Some b ->
  is_pie parsed = true ->
  base_free ext (mem w) b parsed = true ->
  _pick_base ext obj (Some parsed) w = (Ok b, w).
Proof.
  intros Hr Hb Hpie Hfree. unfold _pick_base.
  unfold bind at 1, self_ready at 1. rewrite Hr. cbn [negb].
  unfold bind at 1, pick_user_base. rewrite Hb, Hpie. cbn [negb].
  unfold bind at 1. rewrite is_base_ok_run by exact Hr. rewrite Hfree.
  reflexivity.
Qed.

(** X4: an image that is not relocatable is placed at its preferred base or
    not at all: [_pick_base] returns the preferred base when it is tried
    (randomization not both requested and supported) and free, and raises
    the bad-placement error otherwise, whatever explicit base the request
    carries; it never draws from the random module. *)
Theorem nonrelocatable_only_at_preferred (ext : External) (obj : PELoaderInfo)
    (parsed : Binary) (w : World) :
  ready (loader_plugin (loader w)) = true ->
  is_pie parsed = false ->
  exists w',
    _pick_base ext obj (Some parsed) w =
      ((if negb (prefer_aslr obj && DYNAMIC_BASE parsed) &&
           base_free ext (mem w) (imagebase parsed) parsed
        then Ok (imagebase parsed)
        else Raise HSPluginBadStateError), w') /\
    same_but_log_random w w' /\
    random_draws w' = random_draws w.
Proof.
  intros Hr Hpie. unfold _pick_base.
  unfold bind at 1, self_ready at 1. rewrite Hr. cbn [negb].
  destruct (pick_user_base_run ext obj parsed w Hr) as (w1 & Hu & Hf1 & Hn1).
  unfold bind at 1. rewrite Hu.
  assert (Hnone : user_choice ext obj parsed (mem w) = None).
  { unfold user_choice. rewrite Hpie. destruct (base obj); reflexivity. }
  rewrite Hnone.
  assert (Hr1 : ready (loader_plugin (loader w1)) = true).
  { destruct Hf1 as (_ & Hl & _). rewrite Hl. exact Hr. }
  assert (Hm1 : mem w1 = mem w) by (destruct Hf1 as (Hm & _); exact Hm).
  destruct (pick_preferred_base_run ext obj parsed w1 Hr1) as (w2 & Hp & Hf2 & Hn2).
  unfold bind at 1. rewrite Hp, Hm1. unfold preferred_choice.
  destruct (negb (prefer_aslr obj && DYNAMIC_BASE parsed) &&
            base_free ext (mem w) (imagebase parsed) parsed).
  - exists w2. split; [reflexivity |].
    split; [transitivity w1; assumption | congruence].
  - unfold pick_aslr_base. rewrite Hpie.
    eexists. split; [reflexivity |]. split.
    + transitivity w1; [exact Hf1 |]. transitivity w2; [exact Hf2 | repeat split].
    + simpl. congruence.
Qed.

(** X5: on a loader that has no emulator, [is_base_ok], [_pick_base],
    [_map_headers], [_map_section], [_handle_iats] and [_load_iat] each
    raise [HSPluginInteractNotReadyError] before doing anything: the world
    is left exactly as it was. *)
Theorem unattached_stages_refuse (ext : External) (w : World) :
  ready (loader_plugin (loader w)) = false ->
  (forall address obj,
      is_base_ok ext address obj w = (Raise HSPluginInteractNotReadyError, w)) /\
  (forall obj parsed,
      _pick_base ext obj parsed w = (Raise HSPluginInteractNotReadyError, w)) /\
  (forall pefile,
      _map_headers ext pefile w = (Raise HSPluginInteractNotReadyError, w)) /\
  (forall section pefile,
      _map_section ext section pefile w
      = (Raise HSPluginInteractNotReadyError, w)) /\
  (forall handle pefile,
      _handle_iats handle pefile w = (Raise HSPluginInteractNotReadyError, w)) /\
  (forall pefile dependency lib,
      _load_iat pefile dependency lib w
      = (Raise HSPluginInteractNotReadyError, w)).
Proof.
  intros Hr. repeat split; intros.
  - unfold is_base_ok, bind, self_ready. rewrite Hr. reflexivity.
  - unfold _pick_base, bind, self_ready. rewrite Hr. reflexivity.
  - unfold _map_headers, bind, self_ready. rewrite Hr. reflexivity.
  - unfold _map_section, bind, self_ready. rewrite Hr. reflexivity.
  - unfold _handle_iats, bind, self_ready. rewrite Hr. reflexivity.
  - unfold _load_iat, bind, self_ready. rewrite Hr. reflexivity.
Qed.

(** X6: [_handle] on a file that is not in the table fails early, and then
    atomically, in two cases: on a loader without emulator it raises
    [HSPluginInteractNotReadyError], and on a file that [lief.PE.parse]
    does not parse it raises [AttributeError]; either way the table, the
    memory, the stream mapper and the random module are untouched and only
    the record of the attempt is in the log. *)
Theorem handle_early_failures (ext : External) (depth : nat)
    (obj : PELoaderInfo) (w : World) :
  dict_has (_loaded (loader w)) (file obj) = false ->
  ready (loader_plugin (loader w)) = false \/ ext_parse ext (file obj) = None ->
  _handle ext (S depth) obj w =
  (Raise (if ready (loader_plugin (loader w))
          then AttributeError else HSPluginInteractNotReadyError),
   set_log (log w ++ [(INFO, MsgMappingPE obj)]) w).
Proof.
  intros Hnew Hcase. rewrite handle_unfold.
  unfold bind at 1, get at 1. rewrite Hnew.
  unfold bind at 1, log_msg at 1, modify at 1. cbv zeta.
  unfold bind at 1, _pick_base, bind at 1, self_ready at 1.
  change (ready (loader_plugin (loader (set_log (log w ++ [(INFO, MsgMappingPE obj)]) w))))
    with (ready (loader_plugin (loader w))).
  destruct (ready (loader_plugin (loader w))) eqn:Hr; cbn [negb].
  - destruct Hcase as [Hc | Hc]; [discriminate Hc |]. rewrite Hc. reflexivity.
  - reflexivity.
Qed.

(** The part of [_handle] that follows the entry in the table keeps the
    table growing. *)
Lemma handle_tail_grows (ext : External) (depth : nat) (obj : PELoaderInfo)
    (parsed : Binary) :
  preserves loaded_grows
    (_map_headers ext obj ;;
     for_each (sections parsed) (fun section => _map_section ext section obj) ;;
     _handle_iats (_handle ext depth) obj ;;
     _handle_reloc obj).
Proof.
  pbind.
  { eapply preserves_weaken;
      [apply same_loader_grows | apply preserves_map_headers]. }
  intros _. pbind.
  { apply (preserves_for_each loaded_grows). intros section.
    eapply preserves_weaken;
      [apply same_loader_grows | apply preserves_map_section]. }
  intros _. pbind.
  { apply preserves_handle_iats. intros item w0 r0 w0' H0.
    apply (handle_grows ext depth item w0 r0 w0' H0). }
  intros _.
  eapply preserves_weaken;
    [apply same_loader_grows | apply preserves_handle_reloc].
Qed.

(** [_handle] on a new file that parses: either placement raises and the
    loader is as before, or the image is entered in the table, behind the
    entries that were there, at the base that placement chose, and stays
    there however the rest of the load ends. *)
Lemma handle_new_entry (ext : External) (depth : nat) (obj : PELoaderInfo)
    (parsed : Binary) (w : World) (r : Res unit) (w' : World) :
  ready (loader_plugin (loader w)) = true ->
  dict_has (_loaded (loader w)) (file obj) = false ->
  ext_parse ext (file obj) = Some parsed ->
  _handle ext (S depth) obj w = (r, w') ->
  match pick_base_spec ext obj parsed (mem w) (random_draws w) with
  | None => r = Raise HSPluginBadStateError /\ loader w' = loader w /\ mem w' = mem w
  | Some b =>
      dict_get (_loaded (loader w')) (file obj) = Some (mkMapped obj b parsed) /\
      exists w3,
        same_but_log_random w
          (set_loader (set_loaded (_loaded (loader w)) (loader w3)) w3) /\
        _loaded (loader w3)
          = (_loaded (loader w) ++ [(file obj, mkMapped obj b parsed)])%list /\
        (_map_headers ext obj ;;
         for_each (sections parsed) (fun section => _map_section ext section obj) ;;
         _handle_iats (_handle ext depth) obj ;;
         _handle_reloc obj) w3 = (r, w')
  end.
Proof.
  intros Hr Hnew Hparse H. rewrite handle_unfold in H.
  unfold bind at 1, get at 1 in H. rewrite Hnew in H.
  unfold bind at 1, log_msg at 1, modify at 1 in H.
  set (w1 := set_log (log w ++ [(INFO, MsgMappingPE obj)]) w) in H.
  cbv zeta in H. rewrite Hparse in H.
  destruct (pick_base_run ext obj parsed w1 Hr) as (w2 & Hpick & Hfr).
  change (mem w1) with (mem w) in Hpick.
  change (random_draws w1) with (random_draws w) in Hpick.
  unfold bind at 1 in H. rewrite Hpick in H.
  assert (Hfr' : same_but_log_random w w2).
  { transitivity w1; [repeat split | exact Hfr]. }
  destruct (pick_base_spec ext obj parsed (mem w) (random_draws w)) as [b |].
  - unfold bind at 1, modify at 1 in H.
    set (mx := mkMapped obj b parsed) in *.
    set (w3 := set_loader (set_loaded (dict_set (_loaded (loader w2)) (file obj) mx)
                                      (loader w2)) w2) in H.
    assert (Hl2 : loader w2 = loader w) by (destruct Hfr' as (_ & Hl & _); exact Hl).
    assert (Hnone : dict_get (_loaded (loader w)) (file obj) = None).
    { unfold dict_has in Hnew.
      destruct (dict_get (_loaded (loader w)) (file obj)); [discriminate | reflexivity]. }
    split.
    + pose proof (handle_tail_grows ext depth obj parsed w3 r w' H)
        as (_ & _ & _ & _ & Hg & _).
      apply Hg. subst w3. simpl. apply dict_get_set_eq.
    + exists w3. split; [| split; [| exact H]].
      * subst w3. simpl. rewrite Hl2.
        destruct Hfr' as (Hm & Hl & Hs & He & Hd).
        repeat split; simpl; try assumption.
        destruct (loader w) as [p d sp sm ep]; reflexivity.
      * subst w3. simpl. rewrite Hl2. apply dict_set_fresh. exact Hnone.
  - inversion H; subst. destruct Hfr' as (Hm & Hl & _). repeat split; assumption.
Qed.

(** X7: a failure after placement is not rolled back.  On a loader that has
    no stream mapper ([_prepare] has not run), [_handle] on a new file that
    can be placed raises [AttributeError], but the file is then in the table
    with its base, though nothing was mapped; every later request for that
    file returns at once, as if the image were mapped. *)
Theorem handle_failure_keeps_entry (ext : External) (depth : nat)
    (obj : PELoaderInfo) (parsed : Binary) (w : World) (b : Z) :
  ready (loader_plugin (loader w)) = true ->
  dict_has (_loaded (loader w)) (file obj) = false ->
  ext_parse ext (file obj) = Some parsed ->
  pick_base_spec ext obj parsed (mem w) (random_draws w) = Some b ->
  _stream_mapper (loader w) = false ->
  exists w',
    _handle ext (S depth) obj w = (Raise AttributeError, w') /\
    _loaded (loader w')
      = (_loaded (loader w) ++ [(file obj, mkMapped obj b parsed)])%list /\
    mem w' = mem w /\
    stream_mapper w' = stream_mapper w /\
    forall depth' again,
      file again = file obj ->
      _handle ext (S depth') again w' = (Ok tt, w').
Proof.
  intros Hr Hnew Hparse Hspec Hsm.
  destruct (_handle ext (S depth) obj w) as [r w'] eqn:H.
  pose proof (handle_new_entry ext depth obj parsed w r w' Hr Hnew Hparse H) as Hn.
  rewrite Hspec in Hn. destruct Hn as (Hentry & w3 & Hfr & Hl3 & Htail).
  destruct Hfr as (Hm & Hl & Hs & He & Hd). simpl in Hm, Hl, Hs, He, Hd.
  assert (Hr3 : ready (loader_plugin (loader w3)) = true).
  { rewrite <- Hl in Hr. exact Hr. }
  assert (Hsm3 : _stream_mapper (loader w3) = false).
  { rewrite <- Hl in Hsm. exact Hsm. }
  unfold bind at 1, _map_headers, bind at 1, self_ready at 1 in Htail.
  rewrite Hr3 in Htail. cbn [negb] in Htail.
  unfold bind at 1, the_stream_mapper at 1 in Htail. rewrite Hsm3 in Htail.
  inversion Htail; subst r w'. clear Htail.
  exists w3. split; [reflexivity |]. split; [exact Hl3 |].
  split; [exact Hm |]. split; [exact Hs |].
  intros depth' again Hfile. apply handle_loaded_run.
  rewrite Hfile. apply dict_has_get. eexists. exact Hentry.
Qed.

(** X8: what [loader[file]] answers.  After [_handle] has returned for a
    file that was not in the table, [__getitem__] of that file gives the
    request itself, the parsed image and a base that was free in the memory
    when it was chosen - the explicit base of the request when that one is
    acceptable; the entries that were there are given as before; and a file
    that is not in the table is a [KeyError]. *)
Theorem getitem_after_handle (ext : External) (depth : nat) (obj : PELoaderInfo)
    (parsed : Binary) (w w' : World) :
  ready (loader_plugin (loader w)) = true ->
  dict_has (_loaded (loader w)) (file obj) = false ->
  ext_parse ext (file obj) = Some parsed ->
  _handle ext (S depth) obj w = (Ok tt, w') ->
  exists b,
    PELoader__getitem__ (file obj) w' = (Ok (mkMapped obj b parsed), w') /\
    base_free ext (mem w) b parsed = true /\
    (forall ub, base obj = Some ub -> is_pie parsed = true ->
                base_free ext (mem w) ub parsed = true -> b = ub) /\
    (forall k m, dict_get (_loaded (loader w)) k = Some m ->
                 PELoader__getitem__ k w' = (Ok m, w')) /\
    (forall k, dict_has (_loaded (loader w')) k = false ->
               PELoader__getitem__ k w' = (Raise KeyError, w')).
Proof.
  intros Hr Hnew Hparse H.
  pose proof (handle_new_entry ext depth obj parsed w (Ok tt) w' Hr Hnew Hparse H)
    as Hn.
  destruct (pick_base_spec ext obj parsed (mem w) (random_draws w)) as [b |] eqn:Hspec.
  2:{ destruct Hn as (Hn & _). discriminate Hn. }
  destruct Hn as (Hentry & _).
  exists b. split; [| split; [| split; [| split]]].
  - unfold PELoader__getitem__. rewrite Hentry. reflexivity.
  - apply (pick_base_spec_free ext obj parsed _ _ _ Hspec).
  - intros ub Hub Hpie Hfree. unfold pick_base_spec, user_choice in Hspec.
    rewrite Hub, Hpie, Hfree in Hspec. simpl in Hspec. congruence.
  - intros k m Hk. unfold PELoader__getitem__.
    destruct (handle_grows ext (S depth) obj w (Ok tt) w' H)
      as ((_ & _ & _ & _ & Hg & _) & _).
    rewrite (Hg k m Hk). reflexivity.
  - intros k Hk. unfold PELoader__getitem__. unfold dict_has in Hk.
    destruct (dict_get (_loaded (loader w')) k); [discriminate Hk | reflexivity].
Qed.

(** ** Relocation and import tables: edges *)

Lemma reloc_block_idle (parsed : Binary) (base : Z) (reloc : Relocation)
    (entries : list RelocationEntry) (w : World) :
  List.filter (fun entry => negb (is_ABS (reloc_type entry))) entries = [] ->
  for_each entries (reloc_entry parsed base reloc) w = (Ok tt, w).
Proof.
  induction entries as [| entry entries IH]; intros Hf; [reflexivity |].
  simpl in Hf. simpl for_each. unfold bind, reloc_entry at 1.
  destruct (is_ABS (reloc_type entry)); simpl in Hf; [| discriminate Hf].
  simpl. apply IH, Hf.
Qed.

Lemma reloc_block_unattached (parsed : Binary) (base : Z) (reloc : Relocation)
    (entries : list RelocationEntry) (w : World) :
  ready (loader_plugin (loader w)) = false ->
  List.filter (fun entry => negb (is_ABS (reloc_type entry))) entries <> [] ->
  for_each entries (reloc_entry parsed base reloc) w = (Raise AttributeError, w).
Proof.
  intros Hr. induction entries as [| entry entries IH]; intros Hf.
  - contradiction Hf. reflexivity.
  - simpl in Hf. simpl for_each. unfold bind, reloc_entry at 1.
    destruct (is_ABS (reloc_type entry)); simpl in Hf.
    + simpl. apply IH, Hf.
    + unfold bind, self_ready. rewrite Hr. reflexivity.
Qed.

Lemma map_eq_nil_inv {A B} (f : A -> B) (l : list A) : map f l = [] -> l = [].
Proof. destruct l; [reflexivity | discriminate]. Qed.

(** X9: the edges of [_handle_reloc].  For a file that is not in the table
    it raises [KeyError]; for an image none of whose relocation entries has
    a type other than [ABS] it returns without reading or writing anything,
    attached or not; and on a loader without emulator an image that has
    such an entry gets [AttributeError], raised at the first of them.  In
    all three cases the world is left exactly as it was. *)
Theorem handle_reloc_edges (pefile : PELoaderInfo) (w : World) :
  (dict_get (_loaded (loader w)) (file pefile) = None ->
   _handle_reloc pefile w = (Raise KeyError, w)) /\
  (forall m,
      dict_get (_loaded (loader w)) (file pefile) = Some m ->
      reloc_targets m = [] ->
      _handle_reloc pefile w = (Ok tt, w)) /\
  (forall m,
      dict_get (_loaded (loader w)) (file pefile) = Some m ->
      reloc_targets m <> [] ->
      ready (loader_plugin (loader w)) = false ->
      _handle_reloc pefile w = (Raise AttributeError, w)).
Proof.
  split; [| split].
  - intros Hm. unfold _handle_reloc, bind, loaded_item_of. rewrite Hm. reflexivity.
  - intros m Hm Ht. unfold _handle_reloc, bind at 1, loaded_item_of. rewrite Hm.
    unfold reloc_targets in Ht.
    induction (relocations (pe m)) as [| reloc relocs IH]; [reflexivity |].
    simpl in Ht. apply app_eq_nil in Ht. destruct Ht as (Hb & Hrest).
    simpl for_each. unfold bind at 1.
    rewrite reloc_block_idle by (eapply map_eq_nil_inv; exact Hb).
    apply IH, Hrest.
  - intros m Hm Ht Hr. unfold _handle_reloc, bind at 1, loaded_item_of. rewrite Hm.
    unfold reloc_targets in Ht.
    induction (relocations (pe m)) as [| reloc relocs IH];
      [contradiction Ht; reflexivity |].
    simpl in Ht. simpl for_each. unfold bind at 1.
    destruct (List.filter (fun entry => negb (is_ABS (reloc_type entry)))
                          (reloc_entries reloc)) eqn:Hf.
    + rewrite reloc_block_idle by exact Hf.
      apply IH. unfold block_targets in Ht. rewrite Hf in Ht. exact Ht.
    + rewrite reloc_block_unattached; [reflexivity | exact Hr |].
      rewrite Hf. discriminate.
Qed.

(** X10: relocation is relative to the words as they are, so it does not
    compose with itself: running [_handle_reloc] a second time for the same
    image moves every patched word a second time, to twice the distance
    between the resolved and the preferred base.  Only for an image mapped
    at its preferred base is every word read as before - after one run and
    after two. *)
Theorem handle_reloc_twice (pefile : PELoaderInfo) (m : MappedPE) (w : World) :
  ready (loader_plugin (loader w)) = true ->
  dict_get (_loaded (loader w)) (file pefile) = Some m ->
  exists w1 w2,
    _handle_reloc pefile w = (Ok tt, w1) /\
    _handle_reloc pefile w1 = (Ok tt, w2) /\
    (forall a,
        read_word (mem w2) a =
        read_word (mem w) a +
        2 * Z.of_nat (count_occ Z.eq_dec (reloc_targets m) a) *
        (mapped_base m - imagebase (pe m))) /\
    (mapped_base m = imagebase (pe m) ->
     forall a, read_word (mem w1) a = read_word (mem w) a /\
               read_word (mem w2) a = read_word (mem w) a).
Proof.
  intros Hr Hm.
  destruct (handle_reloc_run pefile m w Hr Hm) as (w1 & Hrun1 & HE1 & HS1 & HR1).
  assert (Hl1 : loader w1 = loader w) by (rewrite HE1; reflexivity).
  assert (Hr1 : ready (loader_plugin (loader w1)) = true) by (rewrite Hl1; exact Hr).
  assert (Hm1 : dict_get (_loaded (loader w1)) (file pefile) = Some m)
    by (rewrite Hl1; exact Hm).
  destruct (handle_reloc_run pefile m w1 Hr1 Hm1) as (w2 & Hrun2 & HE2 & HS2 & HR2).
  exists w1, w2. split; [exact Hrun1 |]. split; [exact Hrun2 |]. split.
  - intros a. rewrite HR2, HR1. lia.
  - intros Hsame a. rewrite HR2, HR1, Hsame. split; lia.
Qed.

Lemma find_first {A} (f : A -> bool) (l1 : list A) (x : A) (l2 : list A) :
  (forall y, In y l1 -> f y = false) -> f x = true ->
  List.find f (l1 ++ x :: l2) = Some x.
Proof.
  intros Hl1 Hx. induction l1 as [| y l1 IH]; simpl.
  - rewrite Hx. reflexivity.
  - rewrite (Hl1 y) by (left; reflexivity). apply IH.
    intros z Hz. apply Hl1. right. exact Hz.
Qed.

Lemma build_exports_last (pre : list ExportEntry) (export : ExportEntry)
    (post : list ExportEntry) :
  (forall e, In e post -> export_name e <> export_name export) ->
  build_exports (pre ++ export :: post) !! export_name export = Some export.
Proof.
  intros Hpost. rewrite build_exports_lookup, rev_app_distr. simpl rev.
  rewrite <- app_assoc. simpl app. apply find_first.
  - intros y Hy. apply in_rev in Hy. apply String.eqb_neq. apply Hpost, Hy.
  - apply String.eqb_refl.
Qed.

(** X11: when the export table of the dependency has several entries of
    one name, the last of them is the one that is imported: the slot of an
    import entry of that name receives the address of the last such export.
    The exports are those of the table entry under the library's file; the
    base that is added is the one the library record itself carries. *)
Theorem load_iat_last_export_wins (pefile : PELoaderInfo) (dependency : Import)
    (lib me l : MappedPE) (w : World)
    (epre epost : list ExportEntry) (export : ExportEntry)
    (ipre ipost : list ImportEntry) (entry : ImportEntry) :
  ready (loader_plugin (loader w)) = true ->
  dict_get (_loaded (loader w)) (file pefile) = Some me ->
  dict_get (_loaded (loader w)) (file (info lib)) = Some l ->
  get_export (pe l) = Some (mkExport (epre ++ export :: epost)) ->
  (forall e, In e epost -> export_name e <> export_name export) ->
  import_entries dependency = (ipre ++ entry :: ipost)%list ->
  import_entry_name entry = export_name export ->
  (forall later, In later ipost -> iat_address later <> iat_address entry) ->
  exists w',
    _load_iat pefile dependency lib w = (Ok tt, w') /\
    read_word (mem w') (mapped_base me + iat_address entry)
    = mapped_base lib + function_rva export.
Proof.
  intros Hr Hme Hl Hex Hlast Him Hname Hlater.
  destruct (load_iat_run pefile dependency lib me l _ w Hr Hme Hl Hex)
    as (w' & Hrun & _ & Hmem).
  exists w'. split; [exact Hrun |].
  rewrite Hmem, Him. cbn [export_entries]. apply iat_writes_slot.
  - rewrite Hname. apply build_exports_last, Hlast.
  - intros later Hin _. apply Hlater, Hin.
Qed.

(** ** [MappedPE.function] *)

Lemma function_scan_first (base : Z) (name : string)
    (pre : list PEFunction) (f : PEFunction) (post : list PEFunction) :
  function_name f = name ->
  (forall g, In g pre -> function_name g <> name) ->
  function_scan base name (pre ++ f :: post) = Some (base + function_address f).
Proof.
  intros Hf Hpre. induction pre as [| g pre IH]; simpl.
  - rewrite Hf, String.eqb_refl. reflexivity.
  - rewrite (proj2 (String.eqb_neq _ _) (Hpre g (or_introl eq_refl))).
    apply IH. intros h Hh. apply Hpre. right. exact Hh.
Qed.

Lemma function_scan_in (base : Z) (name : string) (l1 l2 : list PEFunction)
    (f : PEFunction) :
  In f l1 -> function_name f = name ->
  exists g, In g l1 /\ function_name g = name /\
            function_scan base name (l1 ++ l2) = Some (base + function_address g).
Proof.
  induction l1 as [| h l1 IH]; intros Hin Hf; [destruct Hin |].
  simpl. destruct (String.eqb (function_name h) name) eqn:E.
  - exists h. split; [left; reflexivity |].
    split; [apply String.eqb_eq, E | reflexivity].
  - destruct Hin as [-> | Hin].
    + rewrite Hf, String.eqb_refl in E. discriminate E.
    + destruct (IH Hin Hf) as (g & Hg & Hn & Hs).
      exists g. split; [right; exact Hg | split; assumption].
Qed.

Lemma function_scan_none (base : Z) (name : string) (l : list PEFunction) :
  (forall g, In g l -> function_name g <> name) ->
  function_scan base name l = None.
Proof.
  induction l as [| g l IH]; intros Hl; [reflexivity |]. simpl.
  rewrite (proj2 (String.eqb_neq _ _) (Hl g (or_introl eq_refl))).
  apply IH. intros h Hh. apply Hl. right. exact Hh.
Qed.

(** X12: [MappedPE.function] gives the address, moved to the mapped base,
    of the first function of that name in the exported functions followed
    by the other functions of the image, and logs nothing; so a name that
    is exported is answered from the exports whatever the other functions
    hold.  For a name that no function bears it returns [None] - it does
    not raise - after one error-level record. *)
Theorem MappedPE_function_first_match (self : MappedPE) (code : PECode)
    (name : string) :
  (forall pre f post,
      (exported_functions code ++ functions code)%list = (pre ++ f :: post)%list ->
      function_name f = name ->
      (forall g, In g pre -> function_name g <> name) ->
      MappedPE_function self code name
      = (Some (mapped_base self + function_address f), [])) /\
  (forall f,
      In f (exported_functions code) -> function_name f = name ->
      exists g, In g (exported_functions code) /\ function_name g = name /\
                MappedPE_function self code name
                = (Some (mapped_base self + function_address g), [])) /\
  ((forall g, In g (exported_functions code ++ functions code) ->
              function_name g <> name) ->
   MappedPE_function self code name
   = (None, [(ERROR, ("Function " ++ name ++ " not found")%string)])).
Proof.
  unfold MappedPE_function. split; [| split].
  - intros pre f post Heq Hf Hpre.
    rewrite Heq, (function_scan_first _ _ _ _ _ Hf Hpre). reflexivity.
  - intros f Hin Hf.
    destruct (function_scan_in (mapped_base self) name (exported_functions code)
                (functions code) f Hin Hf) as (g & Hg & Hn & Hs).
    exists g. rewrite Hs. repeat split; assumption.
  - intros Hnone. rewrite (function_scan_none _ _ _ Hnone). reflexivity.
Qed.

(** ** [Plugin]: the queue of requests *)

(** X13: requests made to a plugin before it has an emulator are queued,
    in order, behind those already queued, and handled in one call when the
    plugin is attached: [interact xs], [interact ys], [prepare e] on an
    unattached plugin amount to one call of the handler with the old queue
    followed by [xs] and [ys], made once the emulator is set, after which -
    if the handler returns - the queue is emptied.  If the handler raises,
    the exception leaves [prepare] and the queue is not emptied. *)
Theorem plugin_queue_then_flush {I} (C : PluginClass I) (xs ys : list I)
    (e : HyperEmu) (w : World) :
  lawful C ->
  ready (self_get C w) = false ->
  let queue := (_interact_queue (self_get C w) ++ xs ++ ys)%list in
  let attached := self_set C (mkPlugin queue (Some e)) w in
  (Plugin_interact C xs ;; Plugin_interact C ys ;; Plugin_prepare C e) w
  = match _handle_interact C queue attached with
    | (Ok _, w1) => (Ok tt, self_set C (mkPlugin [] (emu (self_get C w1))) w1)
    | (Raise err, w1) => (Raise err, w1)
    end.
Proof.
  intros (Hgs & Hss) Hr queue attached.
  assert (Hemu : emu (self_get C w) = None).
  { unfold ready in Hr. destruct (emu (self_get C w)); [discriminate | reflexivity]. }
  unfold Plugin_interact at 1. unfold bind at 1, bind at 1. rewrite Hr.
  unfold modify at 1. unfold bind at 1.
  unfold Plugin_interact at 1. unfold bind at 1.
  rewrite Hgs. unfold ready at 1. cbn [emu]. rewrite Hemu.
  unfold modify at 1. rewrite Hgs, Hss. cbn [_interact_queue emu].
  unfold Plugin_prepare, bind at 1. rewrite Hgs. unfold ready at 1. cbn [emu].
  unfold bind at 1, modify at 1. rewrite Hgs, Hss. cbn [_interact_queue].
  unfold bind at 1. rewrite Hgs. cbn [_interact_queue].
  rewrite <- app_assoc. fold queue. fold attached.
  unfold bind, modify.
  destruct (_handle_interact C queue attached) as [[[] | err] w1]; reflexivity.
Qed.

(** X14: a flush that failed is never retried.  When the handler raises on
    the queued requests (and leaves the attributes of the plugin alone),
    [prepare] raises likewise, the plugin stays attached with its queue
    full, and every later [prepare] returns at once without calling the
    handler: the queued requests are not handled again. *)
Theorem plugin_failed_flush_not_retried {I} (C : PluginClass I) (e : HyperEmu)
    (w w1 : World) (err : Exc) :
  lawful C ->
  ready (self_get C w) = false ->
  let queue := _interact_queue (self_get C w) in
  let attached := self_set C (mkPlugin queue (Some e)) w in
  _handle_interact C queue attached = (Raise err, w1) ->
  self_get C w1 = self_get C attached ->
  Plugin_prepare C e w = (Raise err, w1) /\
  self_get C w1 = mkPlugin queue (Some e) /\
  forall e', Plugin_prepare C e' w1 = (Ok tt, w1).
Proof.
  intros (Hgs & Hss) Hr queue attached Hh Hkeep.
  assert (Hself : self_get C w1 = mkPlugin queue (Some e)).
  { rewrite Hkeep. unfold attached. apply Hgs. }
  split; [| split; [exact Hself |]].
  - unfold Plugin_prepare, bind at 1. rewrite Hr.
    unfold bind at 1, modify at 1. unfold bind at 1. rewrite Hgs.
    cbn [_interact_queue]. fold queue. fold attached.
    unfold bind at 1. rewrite Hh. reflexivity.
  - intros e'. unfold Plugin_prepare, bind at 1. rewrite Hself. reflexivity.
Qed.

(** ** The table is append-only *)

Lemma dict_has_keys {V} (d : list (string * V)) (k : string) :
  dict_has d k = true <-> In k (dict_keys d).
Proof.
  unfold dict_has, dict_keys. induction d as [| [k' v] d IH]; simpl.
  - split; [discriminate | intros []].
  - destruct (String.eqb_spec k' k) as [-> | Hne].
    + split; [intros _; left; reflexivity | reflexivity].
    + rewrite IH. split; [intros H; right; exact H |].
      intros [H | H]; [contradiction | exact H].
Qed.

Lemma dict_has_false_keys {V} (d : list (string * V)) (k : string) :
  dict_has d k = false <-> ~ In k (dict_keys d).
Proof.
  rewrite <- dict_has_keys. destruct (dict_has d k); split; congruence.
Qed.

#[export] Instance table_extends_preorder : PreOrder table_extends.
Proof.
  split.
  - intros w. split; [reflexivity |]. exists []. rewrite app_nil_r.
    repeat split; [constructor | constructor | intros k []].
  - intros a b c (Hq1 & a1 & He1 & Hf1 & Hn1 & Hfr1) (Hq2 & a2 & He2 & Hf2 & Hn2 & Hfr2).
    split; [congruence |]. exists (a1 ++ a2)%list.
    assert (Hsep : forall k, In k (dict_keys a2) ->
                             ~ In k (dict_keys (_loaded (loader a))) /\
                             ~ In k (dict_keys a1)).
    { intros k Hk. apply Hfr2, dict_has_false_keys in Hk.
      rewrite He1 in Hk. unfold dict_keys in *. rewrite map_app, in_app_iff in Hk.
      split; intros H; apply Hk; [left | right]; exact H. }
    split; [| split; [| split]].
    + rewrite He2, He1, app_assoc. reflexivity.
    + apply Forall_app. split; assumption.
    + unfold dict_keys in *. rewrite map_app.
      apply List.NoDup_app; [exact Hn1 | exact Hn2 |].
      intros k Hk1 Hk2. apply (proj2 (Hsep k Hk2)), Hk1.
    + intros k Hk. unfold dict_keys in Hk. rewrite map_app, in_app_iff in Hk.
      destruct Hk as [Hk | Hk]; [apply Hfr1, Hk |].
      apply dict_has_false_keys, (proj1 (Hsep k Hk)).
Qed.

Lemma same_loader_extends (w w' : World) : same_loader w w' -> table_extends w w'.
Proof.
  unfold same_loader. intros H. split; [rewrite H; reflexivity |].
  exists []. rewrite H, app_nil_r.
  repeat split; [constructor | constructor | intros k []].
Qed.

Lemma table_extends_register (w : World) (k : string) (m : MappedPE) :
  file (info m) = k ->
  dict_has (_loaded (loader w)) k = false ->
  table_extends w (set_loader (set_loaded (dict_set (_loaded (loader w)) k m)
                                          (loader w)) w).
Proof.
  intros Hfile Hk. split; [reflexivity |]. exists [(k, m)]. simpl.
  split; [| split; [| split]].
  - apply dict_set_fresh. unfold dict_has in Hk.
    destruct (dict_get (_loaded (loader w)) k); [discriminate | reflexivity].
  - constructor; [exact Hfile | constructor].
  - constructor; [intros [] | constructor].
  - intros k0 [<- | []]. exact Hk.
Qed.

Section ScanFrames.

Context (P : relation World) `{!PreOrder P}.
Context (Hsl : forall w w', same_loader w w' -> P w w').
Context (handle : PELoaderInfo -> M unit).
Context (Hh : forall item, preserves P (handle item)).

Lemma scan_queue_frame name queue loaded_item :
  preserves P (scan_queue handle name queue loaded_item).
Proof.
  induction queue as [| item queue IH]; simpl.
  - pres.
  - destruct (str_in name (file item)); [| apply IH].
    pbind; [apply Hh |]. intros _.
    pbind; [papply preserves_loaded_item_of |]. intros m. pres.
Qed.

Lemma scan_loaded_frame name keys :
  forall loaded_item, preserves P (scan_loaded handle name keys loaded_item).
Proof.
  induction keys as [| k keys IH]; intros loaded_item; simpl.
  - pres.
  - destruct (negb (str_in name k)).
    + pbind; [pres |]. intros w0.
      pbind; [apply scan_queue_frame |]. intros li. apply IH.
    + pbind; [papply preserves_loaded_item_of |]. intros m. pres.
Qed.

Lemma handle_iats_frame pefile : preserves P (_handle_iats handle pefile).
Proof.
  unfold _handle_iats.
  pbind; [papply preserves_self_ready |]. intros rdy.
  destruct (negb rdy); [pres |].
  pbind; [papply preserves_loaded_item_of |]. intros m.
  apply (preserves_for_each P). intros dep. unfold handle_dependency.
  pbind; [pres |]. intros w0.
  pbind; [apply scan_loaded_frame |]. intros r.
  destruct r as [lib | [lib |]].
  - eapply preserves_weaken; [exact Hsl | apply preserves_load_iat].
  - eapply preserves_weaken; [exact Hsl | apply preserves_load_iat].
  - pres. apply Hsl. reflexivity.
Qed.

End ScanFrames.

Lemma handle_extends (ext : External) (depth : nat) :
  forall obj, preserves table_extends (_handle ext depth obj).
Proof.
  induction depth as [| depth IH]; intros obj w r w' H.
  - inversion H; subst. reflexivity.
  - rewrite handle_unfold in H. unfold bind at 1, get at 1 in H.
    destruct (dict_has (_loaded (loader w)) (file obj)) eqn:Hhas.
    { inversion H; subst. reflexivity. }
    unfold bind at 1, log_msg at 1, modify at 1 in H.
    set (w1 := set_log (log w ++ [(INFO, MsgMappingPE obj)]) w) in H.
    unfold bind at 1 in H.
    destruct (_pick_base ext obj (ext_parse ext (file obj)) w1)
      as [[b | e] w2] eqn:Hpick.
    2:{ inversion H; subst.
        apply same_loader_extends, same_but_log_random_loader.
        apply (preserves_pick_base ext) in Hpick. exact Hpick. }
    assert (Hl2 : loader w2 = loader w).
    { apply (preserves_pick_base ext) in Hpick.
      apply same_but_log_random_loader in Hpick. exact Hpick. }
    destruct (ext_parse ext (file obj)) as [parsed |].
    2:{ inversion H; subst. apply same_loader_extends. exact Hl2. }
    unfold bind at 1, modify at 1 in H.
    set (w3 := set_loader _ w2) in H.
    assert (H23 : table_extends w2 w3).
    { apply table_extends_register; [reflexivity |]. rewrite Hl2. exact Hhas. }
    assert (H3 : table_extends w3 w').
    { refine ((_ : preserves table_extends
        (_map_headers ext obj ;;
         for_each (sections parsed) (fun section => _map_section ext section obj) ;;
         _handle_iats (_handle ext depth) obj ;;
         _handle_reloc obj)) w3 r w' H).
      pbind.
      { eapply preserves_weaken;
          [apply same_loader_extends | apply preserves_map_headers]. }
      intros _. pbind.
      { apply (preserves_for_each table_extends). intros section.
        eapply preserves_weaken;
          [apply same_loader_extends | apply preserves_map_section]. }
      intros _. pbind.
      { apply (handle_iats_frame table_extends same_loader_extends). exact IH. }
      intros _.
      eapply preserves_weaken;
        [apply same_loader_extends | apply preserves_handle_reloc]. }
    transitivity w2; [apply same_loader_extends; exact Hl2 |].
    transitivity w3; assumption.
Qed.

(** X15: the table of mapped images is append-only.  However [_handle]
    ends - by returning, by an exception of any stage, or for want of
    depth - and however many images it loads on the way, the table it
    leaves is the table it found, every entry in its place and with its
    value, followed by the entries added; each added entry is for a file
    that was not in the table, sits under the file of its own request, and
    no file is added twice.  The pending queue of the loader is not
    consumed. *)
Theorem handle_table_append_only (ext : External) (depth : nat)
    (obj : PELoaderInfo) (w : World) (r : Res unit) (w' : World) :
  _handle ext depth obj w = (r, w') ->
  loader_plugin (loader w') = loader_plugin (loader w) /\
  exists added,
    _loaded (loader w') = (_loaded (loader w) ++ added)%list /\
    Forall (fun km => file (info (snd km)) = fst km) added /\
    List.NoDup (dict_keys added) /\
    (forall k, In k (dict_keys added) -> dict_has (_loaded (loader w)) k = false) /\
    (forall k m, dict_get (_loaded (loader w)) k = Some m ->
                 dict_get (_loaded (loader w')) k = Some m) /\
    (r = Ok tt -> dict_has (_loaded (loader w)) (file obj) = false ->
     In (file obj) (dict_keys added)).
Proof.
  intros H.
  destruct (handle_extends ext depth obj w r w' H)
    as (Hq & added & He & Hf & Hn & Hfr).
  split; [exact Hq |]. exists added.
  split; [exact He |]. split; [exact Hf |]. split; [exact Hn |].
  split; [exact Hfr |].
  destruct (handle_grows ext depth obj w r w' H)
    as ((_ & _ & _ & _ & Hg & _) & Hin).
  split; [exact Hg |].
  intros Hr Hnew. specialize (Hin Hr).
  apply dict_has_keys in Hin. apply dict_has_false_keys in Hnew.
  rewrite He in Hin. unfold dict_keys in *. rewrite map_app, in_app_iff in Hin.
  destruct Hin as [Hin | Hin]; [contradiction | exact Hin].
Qed.

(** ** The result of a load does not depend on the depth *)

Lemma refines_refl {A} (m : M A) : refines m m.
Proof. intros w r w' H _. exact H. Qed.

Lemma refines_bind {A B} (m1 m2 : M A) (k1 k2 : A -> M B) :
  refines m1 m2 -> (forall a, refines (k1 a) (k2 a)) ->
  refines (bind m1 k1) (bind m2 k2).
Proof.
  intros Hm Hk w r w' H Hr. unfold bind in *.
  destruct (m1 w) as [[a | e] w1] eqn:E.
  - rewrite (Hm w (Ok a) w1 E) by discriminate. apply Hk; assumption.
  - inversion H; subst. rewrite (Hm w (Raise e) w' E); [reflexivity |].
    intros Heq. apply Hr. inversion Heq. reflexivity.
Qed.

Lemma refines_for_each {A} (l : list A) (body1 body2 : A -> M unit) :
  (forall x, refines (body1 x) (body2 x)) ->
  refines (for_each l body1) (for_each l body2).
Proof.
  intros Hb. induction l as [| x l IH]; simpl.
  - apply refines_refl.
  - apply refines_bind; [apply Hb | intros _; exact IH].
Qed.

Section DepthMonotone.

Context (handle1 handle2 : PELoaderInfo -> M unit).
Context (Hh : forall item, refines (handle1 item) (handle2 item)).

Lemma scan_queue_refines name queue loaded_item :
  refines (scan_queue handle1 name queue loaded_item)
          (scan_queue handle2 name queue loaded_item).
Proof.
  induction queue as [| item queue IH]; simpl.
  - apply refines_refl.
  - destruct (str_in name (file item)); [| exact IH].
    apply refines_bind; [apply Hh | intros _; apply refines_refl].
Qed.

Lemma scan_loaded_refines name keys :
  forall loaded_item,
    refines (scan_loaded handle1 name keys loaded_item)
            (scan_loaded handle2 name keys loaded_item).
Proof.
  induction keys as [| k keys IH]; intros loaded_item; simpl.
  - apply refines_refl.
  - destruct (negb (str_in name k)); [| apply refines_refl].
    apply refines_bind; [apply refines_refl |]. intros w0.
    apply refines_bind; [apply scan_queue_refines |]. intros li. apply IH.
Qed.

Lemma handle_iats_refines pefile :
  refines (_handle_iats handle1 pefile) (_handle_iats handle2 pefile).
Proof.
  unfold _handle_iats.
  apply refines_bind; [apply refines_refl |]. intros rdy.
  destruct (negb rdy); [apply refines_refl |].
  apply refines_bind; [apply refines_refl |]. intros m.
  apply refines_for_each. intros dep. unfold handle_dependency.
  apply refines_bind; [apply refines_refl |]. intros w0.
  apply refines_bind; [apply scan_loaded_refines |]. intros r.
  apply refines_refl.
Qed.

End DepthMonotone.

(** More depth never changes how a load ends. *)
Lemma handle_depth_mono (ext : External) (d : nat) :
  forall d' obj, (d <= d')%nat -> refines (_handle ext d obj) (_handle ext d' obj).
Proof.
  induction d as [| d IH]; intros d' obj Hle.
  - intros w r w' H Hr. inversion H; subst. contradiction Hr. reflexivity.
  - destruct d' as [| d']; [lia |].
    rewrite !handle_unfold.
    apply refines_bind; [apply refines_refl |]. intros w0.
    destruct (dict_has (_loaded (loader w0)) (file obj)); [apply refines_refl |].
    apply refines_bind; [apply refines_refl |]. intros _. cbv zeta.
    apply refines_bind; [apply refines_refl |]. intros b.
    destruct (ext_parse ext (file obj)) as [parsed |]; [| apply refines_refl].
    apply refines_bind; [apply refines_refl |]. intros _.
    apply refines_bind; [apply refines_refl |]. intros _.
    apply refines_bind; [apply refines_refl |]. intros _.
    apply refines_bind; [| intros _; apply refines_refl].
    apply handle_iats_refines. intros item. apply IH. lia.
Qed.

(** X16: the nesting depth is no part of the behaviour.  At any depth of
    two or more above the number of pending requests that are not mapped,
    [_handle] ends the same way and leaves the same world, and it does not
    end for want of depth: even when the imports of the images form a
    cycle, the nested loads come to an end. *)
Theorem handle_depth_independent (ext : External) (d1 d2 : nat)
    (obj : PELoaderInfo) (w : World) :
  (pending_unloaded w + 1 < d1)%nat ->
  (pending_unloaded w + 1 < d2)%nat ->
  _handle ext d1 obj w = _handle ext d2 obj w /\
  fst (_handle ext d1 obj w) <> Raise RecursionError.
Proof.
  intros H1 H2.
  destruct (_handle ext d1 obj w) as [r1 w1] eqn:E1.
  destruct (_handle ext d2 obj w) as [r2 w2] eqn:E2.
  pose proof (handle_depth_enough ext d1 obj w r1 w1 H1 E1) as Hr1.
  pose proof (handle_depth_enough ext d2 obj w r2 w2 H2 E2) as Hr2.
  split; [| exact Hr1].
  destruct (Nat.le_ge_cases d1 d2) as [Hle | Hle].
  - pose proof (handle_depth_mono ext d1 d2 obj Hle w r1 w1 E1 Hr1) as E.
    rewrite E2 in E. symmetry. exact E.
  - pose proof (handle_depth_mono ext d2 d1 obj Hle w r2 w2 E2 Hr2) as E.
    rewrite E1 in E. exact E.
Qed.

(** ** What a load asks of the stream mapper *)

Lemma StreamMapper_handle_run (ext : External) (objs : list StreamMapperInfo) :
  forall w,
    StreamMapper_handle_interact ext objs w
    = (Ok tt, set_mem (bind_requests ext objs (mem w)) w).
Proof.
  unfold StreamMapper_handle_interact.
  induction objs as [| o objs IH]; intros w.
  - destruct w; reflexivity.
  - simpl for_each. unfold bind at 1, modify at 1. rewrite IH. reflexivity.
Qed.

Lemma bind_requests_segments (ext : External) (requests : list StreamMapperInfo) :
  forall m,
    segments (bind_requests ext requests m)
    = (segments m ++ map segment requests)%list.
Proof.
  unfold bind_requests.
  induction requests as [| o requests IH]; intros m; simpl.
  - rewrite app_nil_r. reflexivity.
  - rewrite IH. simpl. rewrite <- app_assoc. reflexivity.
Qed.

Lemma submitted_app (ext : External) (r1 r2 : list StreamMapperInfo)
    (w w1 w2 : World) :
  submitted ext r1 w w1 -> submitted ext r2 w1 w2 ->
  submitted ext (r1 ++ r2) w w2.
Proof.
  unfold submitted. intros (Hl1 & He1 & Hd1 & H1) (Hl2 & He2 & Hd2 & H2).
  split; [congruence |]. split; [congruence |]. split; [congruence |].
  destruct (ready (stream_mapper w)) eqn:Hr.
  - destruct H1 as (Hs1 & Hm1). rewrite Hs1, Hr in H2.
    destruct H2 as (Hs2 & Hm2). split; [congruence |].
    rewrite Hm2, Hm1. unfold bind_requests. rewrite fold_left_app. reflexivity.
  - destruct H1 as (Hemu1 & Hq1 & Hm1).
    assert (Hr1 : ready (stream_mapper w1) = false).
    { unfold ready in *. rewrite Hemu1. exact Hr. }
    rewrite Hr1 in H2. destruct H2 as (Hemu2 & Hq2 & Hm2).
    split; [congruence |]. split; [| congruence].
    rewrite Hq2, Hq1, app_assoc. reflexivity.
Qed.

Lemma submitted_log (ext : External) (l : list (LogLevel * LogMessage)) (w : World) :
  submitted ext [] w (set_log l w).
Proof.
  unfold submitted. simpl. repeat split.
  destruct (ready (stream_mapper w)); repeat split.
  rewrite app_nil_r. reflexivity.
Qed.

Lemma StreamMapper_interact_submitted (ext : External)
    (requests : list StreamMapperInfo) (w : World) :
  exists w',
    Plugin_interact (StreamMapperClass ext) requests w = (Ok tt, w') /\
    submitted ext requests w w'.
Proof.
  unfold Plugin_interact, bind, submitted, StreamMapperClass.
  cbn [self_get self_set _handle_interact].
  destruct (ready (stream_mapper w)) eqn:Hr.
  - rewrite StreamMapper_handle_run.
    eexists. split; [reflexivity |]. simpl. repeat split.
  - eexists. split; [reflexivity |]. simpl. repeat split.
Qed.

Lemma section_perms_frame (section : PESection) (w : World) :
  exists l,
    section_perms_to_ms section w = (Ok (section_access section), set_log l w).
Proof.
  unfold section_perms_to_ms, section_access.
  destruct (MEM_READ section), (MEM_WRITE section), (MEM_EXECUTE section);
    simpl; unfold bind, log_msg, modify, ret;
    first [ eexists; reflexivity
          | exists (log w); destruct w; reflexivity ].
Qed.

Section Requests.

Context (ext : External).

Lemma map_headers_submitted (pefile : PELoaderInfo) (m : MappedPE) (w : World) :
  ready (loader_plugin (loader w)) = true ->
  _stream_mapper (loader w) = true ->
  dict_get (_loaded (loader w)) (file pefile) = Some m ->
  exists w',
    _map_headers ext pefile w = (Ok tt, w') /\
    submitted ext [header_request pefile m] w w'.
Proof.
  intros Hr Hsm Hm. unfold _map_headers.
  unfold bind at 1, self_ready at 1. rewrite Hr. cbn [negb].
  unfold bind at 1, the_stream_mapper at 1. rewrite Hsm.
  unfold bind at 1, loaded_item_of at 1. rewrite Hm.
  apply StreamMapper_interact_submitted.
Qed.

Lemma map_section_submitted (section : PESection) (pefile : PELoaderInfo)
    (m : MappedPE) (w : World) :
  ready (loader_plugin (loader w)) = true ->
  _stream_mapper (loader w) = true ->
  _enforce_plugin (loader w) = false ->
  dict_get (_loaded (loader w)) (file pefile) = Some m ->
  exists w',
    _map_section ext section pefile w = (Ok tt, w') /\
    submitted ext [section_request pefile m (section_access section) section] w w'.
Proof.
  intros Hr Hsm Hen Hm. unfold _map_section.
  unfold bind at 1, self_ready at 1. rewrite Hr. cbn [negb].
  destruct (section_perms_frame section w) as (l & Hperm).
  unfold bind at 1. rewrite Hperm.
  unfold bind at 1, get at 1. cbn [loader set_log]. rewrite Hen.
  unfold bind at 1, log_msg at 1, modify at 1.
  unfold bind at 1, the_stream_mapper at 1. cbn [loader set_log]. rewrite Hsm.
  unfold bind at 1, loaded_item_of at 1. cbn [loader set_log]. rewrite Hm.
  unfold bind at 1.
  match goal with
  | |- context [Plugin_interact _ ?reqs ?w2] =>
      destruct (StreamMapper_interact_submitted ext reqs w2) as (w' & Hrun & Hsub)
  end.
  rewrite Hrun. exists w'. split; [reflexivity |].
  match type of Hsub with
  | submitted _ _ (set_log ?l2 _) _ =>
      exact (submitted_app ext [] _ w _ w' (submitted_log ext l2 w) Hsub)
  end.
Qed.

Lemma map_sections_submitted (pefile : PELoaderInfo) (m : MappedPE)
    (secs : list PESection) :
  forall w,
    ready (loader_plugin (loader w)) = true ->
    _stream_mapper (loader w) = true ->
    _enforce_plugin (loader w) = false ->
    dict_get (_loaded (loader w)) (file pefile) = Some m ->
    exists w',
      for_each secs (fun section => _map_section ext section pefile) w
      = (Ok tt, w') /\
      submitted ext
        (map (fun section => section_request pefile m (section_access section) section)
             secs) w w'.
Proof.
  induction secs as [| section secs IH]; intros w Hr Hsm Hen Hm.
  - exists w. split; [reflexivity |]. destruct w. apply (submitted_log ext).
  - destruct (map_section_submitted section pefile m w Hr Hsm Hen Hm)
      as (w1 & Hrun & Hsub).
    assert (Hl1 : loader w1 = loader w) by (destruct Hsub as (H & _); exact H).
    rewrite <- Hl1 in Hr, Hsm, Hen, Hm.
    destruct (IH w1 Hr Hsm Hen Hm) as (w' & Hrest & Hsub').
    exists w'. split.
    + simpl for_each. unfold bind. rewrite Hrun. exact Hrest.
    + exact (submitted_app ext [_] _ w w1 w' Hsub Hsub').
Qed.

End Requests.

(** X17: what the load of an image without imports amounts to.  On an
    attached loader with a stream mapper and no enforce plugin, [_handle]
    on a new file that can be placed returns; the file is entered last in
    the table; the stream mapper has been handed the request for the
    headers (read-only, at the chosen base) and then one request per
    section, in order, each at base + virtual address with the permissions
    of its characteristics - carried out at once by an attached mapper,
    queued by one that is not; and the relocations are applied on top.
    With an unattached mapper the relocations thus patch the memory before
    any byte of the image is bound to it. *)
Theorem handle_import_free_image (ext : External) (depth : nat)
    (obj : PELoaderInfo) (parsed : Binary) (w : World) (b : Z) :
  ready (loader_plugin (loader w)) = true ->
  dict_has (_loaded (loader w)) (file obj) = false ->
  ext_parse ext (file obj) = Some parsed ->
  pick_base_spec ext obj parsed (mem w) (random_draws w) = Some b ->
  _stream_mapper (loader w) = true ->
  _enforce_plugin (loader w) = false ->
  imports parsed = [] ->
  let m := mkMapped obj b parsed in
  let delta := b - imagebase parsed in
  exists w',
    _handle ext (S depth) obj w = (Ok tt, w') /\
    _loaded (loader w') = (_loaded (loader w) ++ [(file obj, m)])%list /\
    if ready (stream_mapper w)
    then stream_mapper w' = stream_mapper w /\
         segments (mem w')
         = (segments (mem w) ++ map segment (image_requests obj m))%list /\
         forall a,
           read_word (mem w') a =
           read_word (bind_requests ext (image_requests obj m) (mem w)) a +
           Z.of_nat (count_occ Z.eq_dec (reloc_targets m) a) * delta
    else ready (stream_mapper w') = false /\
         _interact_queue (stream_mapper w')
         = (_interact_queue (stream_mapper w) ++ image_requests obj m)%list /\
         segments (mem w') = segments (mem w) /\
         forall a,
           read_word (mem w') a =
           read_word (mem w) a +
           Z.of_nat (count_occ Z.eq_dec (reloc_targets m) a) * delta.
Proof.
  intros Hr Hnew Hparse Hspec Hsm Hen Himp m delta.
  destruct (_handle ext (S depth) obj w) as [r w'] eqn:H.
  pose proof (handle_new_entry ext depth obj parsed w r w' Hr Hnew Hparse H) as Hn.
  rewrite Hspec in Hn. destruct Hn as (_ & w3 & Hfr & Hl3 & Htail).
  fold m in Hl3.
  destruct Hfr as (Hm3 & Hlo3 & Hs3 & _ & _). simpl in Hm3, Hlo3, Hs3.
  assert (Hr3 : ready (loader_plugin (loader w3)) = true)
    by (rewrite <- Hlo3 in Hr; exact Hr).
  assert (Hsm3 : _stream_mapper (loader w3) = true)
    by (rewrite <- Hlo3 in Hsm; exact Hsm).
  assert (Hen3 : _enforce_plugin (loader w3) = false)
    by (rewrite <- Hlo3 in Hen; exact Hen).
  assert (Hget3 : dict_get (_loaded (loader w3)) (file obj) = Some m).
  { rewrite Hl3, <- dict_set_fresh; [apply dict_get_set_eq |].
    unfold dict_has in Hnew.
    destruct (dict_get (_loaded (loader w)) (file obj)); [discriminate | reflexivity]. }
  destruct (map_headers_submitted ext obj m w3 Hr3 Hsm3 Hget3) as (w4 & Hhead & Sub4).
  unfold bind at 1 in Htail. rewrite Hhead in Htail.
  assert (Hl4 : loader w4 = loader w3) by (destruct Sub4 as (Hx & _); exact Hx).
  assert (Hr4 := Hr3). assert (Hsm4 := Hsm3). assert (Hen4 := Hen3).
  assert (Hget4 := Hget3). rewrite <- Hl4 in Hr4, Hsm4, Hen4, Hget4.
  destruct (map_sections_submitted ext obj m (sections parsed) w4 Hr4 Hsm4 Hen4 Hget4)
    as (w5 & Hsecs & Sub5).
  unfold bind at 1 in Htail. rewrite Hsecs in Htail.
  assert (Hl5 : loader w5 = loader w4) by (destruct Sub5 as (Hx & _); exact Hx).
  assert (Hr5 := Hr4). assert (Hget5 := Hget4). rewrite <- Hl5 in Hr5, Hget5.
  unfold bind at 1, _handle_iats, bind at 1, self_ready at 1 in Htail.
  rewrite Hr5 in Htail. cbn [negb] in Htail.
  unfold bind at 1, loaded_item_of at 1 in Htail. rewrite Hget5 in Htail.
  change (imports (pe m)) with (imports parsed) in Htail. rewrite Himp in Htail.
  cbn [for_each] in Htail. unfold ret at 1 in Htail.
  destruct (handle_reloc_run obj m w5 Hr5 Hget5) as (w6 & Hrel & HE & HS & HR).
  rewrite Hrel in Htail. inversion Htail; subst r w'. clear Htail.
  exists w6. split; [reflexivity |].
  assert (Hl6 : loader w6 = loader w5) by (rewrite HE; reflexivity).
  assert (Hs6 : stream_mapper w6 = stream_mapper w5) by (rewrite HE; reflexivity).
  split; [rewrite Hl6, Hl5, Hl4; exact Hl3 |].
  pose proof (submitted_app ext [_] _ w3 w4 w5 Sub4 Sub5) as Sub.
  change ([header_request obj m] ++
          map (fun section => section_request obj m (section_access section) section)
              (sections parsed))%list
    with (image_requests obj m) in Sub.
  destruct Sub as (_ & _ & _ & Sub). rewrite Hs3, Hm3 in Sub.
  change (mapped_base m - imagebase (pe m)) with delta in HR.
  destruct (ready (stream_mapper w)) eqn:Hrs.
  - destruct Sub as (Hs5 & Hm5). split; [congruence |]. split.
    + rewrite HS, Hm5. apply bind_requests_segments.
    + intros a. rewrite HR, Hm5. reflexivity.
  - destruct Sub as (Hemu5 & Hq5 & Hm5). split; [| split; [| split]].
    + unfold ready in *. rewrite Hs6, Hemu5. exact Hrs.
    + rewrite Hs6. exact Hq5.
    + rewrite HS, Hm5. reflexivity.
    + intros a. rewrite HR, Hm5. reflexivity.
Qed.

(** X18: [_map_section] in the presence of an enforce plugin.  The segment
    of the section is requested with every permission, not with those of
    its characteristics; the stream mapper is made to act at once - an
    unattached mapper is attached and carries out all it had queued, then
    the new request, and is left with an empty queue; and the enforce
    plugin receives one record: the segment that the registrar finds under
    the name of the section, with the permissions of the characteristics.
    Without a segment registrar the call raises [AttributeError], after the
    segment has been mapped. *)
Theorem map_section_enforced (ext : External) (section : PESection)
    (pefile : PELoaderInfo) (m : MappedPE) (w : World) :
  ready (loader_plugin (loader w)) = true ->
  _stream_mapper (loader w) = true ->
  _enforce_plugin (loader w) = true ->
  dict_get (_loaded (loader w)) (file pefile) = Some m ->
  let request := section_request pefile m AccessType_RWX section in
  let pending := if ready (stream_mapper w) then []
                 else _interact_queue (stream_mapper w) in
  let memory := bind_requests ext (pending ++ [request]) (mem w) in
  let note := mkEnforceInfo
                (Segment_mapped (section_segment_name pefile section) memory)
                (section_access section) in
  exists w',
    _map_section ext section pefile w
    = (if _segment_plugin (loader w) then Ok tt else Raise AttributeError, w') /\
    loader w' = loader w /\
    mem w' = memory /\
    stream_mapper w' = (if ready (stream_mapper w) then stream_mapper w
                        else mkPlugin [] (Some TheEmu)) /\
    if _segment_plugin (loader w) then
      if ready (enforce_memory w)
      then enforce_memory w' = enforce_memory w /\
           enforced w' = (enforced w ++ [note])%list
      else enforce_memory w'
           = mkPlugin (_interact_queue (enforce_memory w) ++ [note])
                      (emu (enforce_memory w)) /\
           enforced w' = enforced w
    else enforce_memory w' = enforce_memory w /\ enforced w' = enforced w.
Proof.
  intros Hr Hsm Hen Hm request pending memory note. unfold _map_section.
  unfold bind at 1, self_ready at 1. rewrite Hr. cbn [negb].
  destruct (section_perms_frame section w) as (l & Hperm).
  unfold bind at 1. rewrite Hperm.
  unfold bind at 1, get at 1. cbn [loader set_log]. rewrite Hen.
  unfold bind at 1, log_msg at 1, modify at 1.
  unfold bind at 1, the_stream_mapper at 1. cbn [loader set_log]. rewrite Hsm.
  unfold bind at 1, loaded_item_of at 1. cbn [loader set_log]. rewrite Hm.
  fold request.
  unfold Plugin_interact, Plugin_prepare, bind, modify, get, ret, raise,
    StreamMapperClass, EnforceMemoryClass, EnforceMemory_handle_interact.
  cbn [self_get self_set _handle_interact].
  subst note memory pending.
  destruct w as [mem0 draws0 log0 loader0 sm0 em0 enforced0].
  cbn [stream_mapper enforce_memory set_log loader mem enforced] in *.
  destruct sm0 as [queue0 [[] |]]; cbn [ready emu _interact_queue].
  - rewrite StreamMapper_handle_run.
    cbn [stream_mapper set_mem ready emu set_log loader].
    destruct (_segment_plugin loader0);
      [| eexists; repeat split; reflexivity].
    destruct em0 as [equeue0 [[] |]];
      cbn [enforce_memory set_mem set_log ready emu mem];
      eexists; repeat split; reflexivity.
  - cbn [stream_mapper set_stream_mapper set_log ready emu _interact_queue].
    rewrite StreamMapper_handle_run.
    cbn [stream_mapper set_stream_mapper set_mem set_log ready emu
         _interact_queue loader mem].
    destruct (_segment_plugin loader0);
      [| eexists; repeat split; reflexivity].
    destruct em0 as [equeue0 [[] |]];
      cbn [enforce_memory set_stream_mapper set_mem set_log ready emu mem];
      eexists; repeat split; reflexivity.
Qed.

(** ** A full load fills the import slots *)






Section FullLoad.

Context (ext : External).



End FullLoad.


(** C8: the failing input.  [w.exe] imports [f] from [noexp.dll], an image
    without export directory, and then from [a.dll]; both libraries are
    pending.  The load of [w.exe] loads [noexp.dll] and then ends in
    [AttributeError], raised by [_load_iat] at [get_export().entries]:
    no record of a missing symbol is logged, the second dependency is never
    looked up ([lib/a.dll] is not loaded, its slot is not written), and
    [w.exe] stays in the table, its load unfinished.  Likewise the load of
    [g.exe], whose dependency [ghost.dll] is pending but is no image that
    [lief.PE.parse] parses, ends in the [AttributeError] of the nested
    load. *)
Theorem missing_export_directory_aborts_load :
  (let X := request "w.exe" in
   let w0 := attached_world [request "noexp.dll"; request "lib/a.dll"] in
   let w' := snd (_handle wide_ext 4 X w0) in
   imports w_exe = [mkImport "noexp.dll" [mkImportEntry "f" 0x40];
                    mkImport "a.dll" [mkImportEntry "f" 0x48]] /\
   get_export noexp_dll = None /\
   _handle wide_ext 4 X w0 = (Raise AttributeError, w') /\
   bases w' = [("w.exe", 0x60000); ("noexp.dll", 0xB0000)] /\
   log w' = [(INFO, MsgMappingPE X); (INFO, MsgMappingPE (request "noexp.dll"))] /\
   dict_has (_loaded (loader w')) "lib/a.dll" = false /\
   words (mem w') !! (0x60000 + 0x48) = None) /\
  (let X := request "g.exe" in
   let w0 := attached_world [request "ghost.dll"] in
   let w' := snd (_handle wide_ext 4 X w0) in
   imports g_exe = [mkImport "ghost.dll" [mkImportEntry "f" 0x40]] /\
   ext_parse wide_ext "ghost.dll" = None /\
   _handle wide_ext 4 X w0 = (Raise AttributeError, w') /\
   bases w' = [("g.exe", 0x60000)] /\
   log w' = [(INFO, MsgMappingPE X); (INFO, MsgMappingPE (request "ghost.dll"))]).
Proof.
  split; vm_compute; repeat split.
Qed.

(** ** Missing symbols and missing dependencies *)

Lemma load_iat_entries_log pefile dependency lib my_base exports entries :
  forall w,
    log (snd (for_each entries
                (load_iat_entry pefile dependency lib my_base exports) w))
    = (log w ++ map (iat_record pefile dependency exports) entries)%list.
Proof.
  induction entries as [| entry entries IH]; intros w.
  - simpl. rewrite app_nil_r. reflexivity.
  - simpl for_each. unfold bind. rewrite load_iat_entry_run. rewrite IH.
    unfold iat_record at 2. simpl map.
    destruct (exports !! import_entry_name entry) as [export |];
      simpl; rewrite <- app_assoc; reflexivity.
Qed.

(** X19: a symbol that the dependency does not export is skipped.  For a
    dependency whose image has an export directory, [_load_iat] returns; it
    logs one record per import entry, in order - an error-level record for
    a name the exports lack, a debug record for one they hold; it writes
    exactly the slots of the entries that are resolved, those after a
    missing one included; and the slot of a missing entry, like every word
    no resolved entry points at, reads as before. *)
Theorem load_iat_skips_missing_symbols (pefile : PELoaderInfo)
    (dependency : Import) (lib me l : MappedPE) (directory : Export) (w : World) :
  ready (loader_plugin (loader w)) = true ->
  dict_get (_loaded (loader w)) (file pefile) = Some me ->
  dict_get (_loaded (loader w)) (file (info lib)) = Some l ->
  get_export (pe l) = Some directory ->
  let exports := build_exports (export_entries directory) in
  exists w',
    _load_iat pefile dependency lib w = (Ok tt, w') /\
    log w' = (log w ++ map (iat_record pefile dependency exports)
                           (import_entries dependency))%list /\
    loader w' = loader w /\
    segments (mem w') = segments (mem w) /\
    (forall a,
        (forall entry, In entry (import_entries dependency) ->
                       exports !! import_entry_name entry <> None ->
                       mapped_base me + iat_address entry <> a) ->
        read_word (mem w') a = read_word (mem w) a) /\
    (forall pre entry post export,
        import_entries dependency = (pre ++ entry :: post)%list ->
        exports !! import_entry_name entry = Some export ->
        (forall later, In later post ->
                       exports !! import_entry_name later <> None ->
                       iat_address later <> iat_address entry) ->
        read_word (mem w') (mapped_base me + iat_address entry) =
        mapped_base lib + function_rva export).
Proof.
  intros Hr Hme Hl Hdir exports.
  destruct (load_iat_run pefile dependency lib me l directory w Hr Hme Hl Hdir)
    as (w' & Hrun & Hfr & Hmem).
  fold exports in Hmem.
  exists w'. split; [exact Hrun |]. split; [| split; [| split; [| split]]].
  - unfold _load_iat in Hrun.
    unfold bind at 1, self_ready at 1 in Hrun. rewrite Hr in Hrun.
    cbn [negb] in Hrun.
    unfold bind at 1, loaded_item_of at 1 in Hrun. rewrite Hme in Hrun.
    unfold bind at 1, loaded_item_of at 1 in Hrun. rewrite Hl, Hdir in Hrun.
    fold exports in Hrun.
    pose proof (load_iat_entries_log pefile dependency lib (mapped_base me) exports
                  (import_entries dependency) w) as Hlog.
    rewrite Hrun in Hlog. exact Hlog.
  - apply Hfr.
  - apply Hfr.
  - intros a Hno. rewrite Hmem. apply iat_writes_untouched. exact Hno.
  - intros pre entry post export Hsplit Hex Hlater.
    rewrite Hmem, Hsplit. apply iat_writes_slot; assumption.
Qed.

#[export] Instance keys_from_queue_preorder (extra : list string) :
  PreOrder (keys_from_queue extra).
Proof.
  split.
  - intros w. split; [reflexivity |]. intros k Hk. left. exact Hk.
  - intros a b c (Hq1 & H1) (Hq2 & H2). split; [congruence |].
    intros k Hk. destruct (H2 k Hk) as [Hb | [He | Hqb]].
    + apply H1, Hb.
    + right. left. exact He.
    + right. right. rewrite <- Hq1. exact Hqb.
Qed.

Lemma same_loader_keys (extra : list string) (w w' : World) :
  same_loader w w' -> keys_from_queue extra w w'.
Proof.
  unfold same_loader. intros H. split; [rewrite H; reflexivity |].
  intros k Hk. left. rewrite <- H. exact Hk.
Qed.

Lemma keys_from_queue_item (item : PELoaderInfo) (w w' : World) :
  In item (_interact_queue (loader_plugin (loader w))) ->
  keys_from_queue [file item] w w' -> keys_from_queue [] w w'.
Proof.
  intros Hin (Hq & H). split; [exact Hq |].
  intros k Hk. destruct (H k Hk) as [Hw | [[<- | []] | Hqk]].
  - left. exact Hw.
  - right. right. apply in_map. exact Hin.
  - right. right. exact Hqk.
Qed.

Lemma keys_from_queue_extra (extra : list string) (w w' : World) :
  keys_from_queue [] w w' -> keys_from_queue extra w w'.
Proof.
  intros (Hq & H). split; [exact Hq |].
  intros k Hk. destruct (H k Hk) as [Hw | [[] | Hqk]]; auto.
Qed.

Section KeysFromQueue.

Context (handle : PELoaderInfo -> M unit).
Context (Hh : forall item, preserves (keys_from_queue [file item]) (handle item)).

Lemma scan_queue_keys name queue :
  forall loaded_item w r w',
    incl queue (_interact_queue (loader_plugin (loader w))) ->
    scan_queue handle name queue loaded_item w = (r, w') ->
    keys_from_queue [] w w'.
Proof.
  induction queue as [| item queue IH]; intros li w r w' Hincl H; simpl in H.
  - inversion H; subst. reflexivity.
  - destruct (str_in name (file item)).
    + unfold bind at 1 in H.
      destruct (handle item w) as [[[] | e] w1] eqn:Hitem.
      * assert (Hk : keys_from_queue [] w w1).
        { apply (keys_from_queue_item item); [apply Hincl; left; reflexivity |].
          exact (Hh item w _ _ Hitem). }
        unfold bind, loaded_item_of in H.
        destruct (dict_get (_loaded (loader w1)) (file item));
          inversion H; subst; exact Hk.
      * inversion H; subst.
        apply (keys_from_queue_item item); [apply Hincl; left; reflexivity |].
        exact (Hh item w _ _ Hitem).
    + apply (IH li w r w'); [| exact H].
      intros x Hx. apply Hincl. right. exact Hx.
Qed.

Lemma scan_loaded_keys name keys :
  forall loaded_item w r w',
    scan_loaded handle name keys loaded_item w = (r, w') ->
    keys_from_queue [] w w'.
Proof.
  induction keys as [| k keys IH]; intros li w r w' H; simpl in H.
  - inversion H; subst. reflexivity.
  - destruct (negb (str_in name k)).
    + unfold bind at 1, get at 1 in H. unfold bind at 1 in H.
      destruct (scan_queue handle name
                  (_interact_queue (loader_plugin (loader w))) li w)
        as [[li' | e] w1] eqn:Hscan.
      * transitivity w1.
        -- apply (scan_queue_keys _ _ _ _ _ _ (incl_refl _) Hscan).
        -- apply (IH _ _ _ _ H).
      * inversion H; subst.
        apply (scan_queue_keys _ _ _ _ _ _ (incl_refl _) Hscan).
    + unfold bind, loaded_item_of in H.
      destruct (dict_get (_loaded (loader w)) k); inversion H; subst; reflexivity.
Qed.

Lemma handle_dependency_keys pefile dependency :
  preserves (keys_from_queue []) (handle_dependency handle pefile dependency).
Proof.
  intros w r w' H. unfold handle_dependency in H.
  change (bind get ?k w) with (k w w) in H. cbv beta in H.
  unfold bind at 1 in H.
  destruct (scan_loaded handle (import_name dependency)
              (dict_keys (_loaded (loader w))) None w) as [[exit | e] w1] eqn:Hscan.
  - transitivity w1; [apply (scan_loaded_keys _ _ _ _ _ _ Hscan) |].
    apply same_loader_keys.
    destruct exit as [m | [m |]].
    + apply (preserves_load_iat _ _ _ _ _ _ H).
    + apply (preserves_load_iat _ _ _ _ _ _ H).
    + inversion H; subst. reflexivity.
  - inversion H; subst. apply (scan_loaded_keys _ _ _ _ _ _ Hscan).
Qed.

Lemma handle_iats_keys pefile :
  preserves (keys_from_queue []) (_handle_iats handle pefile).
Proof.
  unfold _handle_iats.
  pbind; [papply preserves_self_ready |]. intros rdy.
  destruct (negb rdy); [pres |].
  pbind; [papply preserves_loaded_item_of |]. intros m.
  apply (preserves_for_each (keys_from_queue [])). intros dep.
  apply handle_dependency_keys.
Qed.

End KeysFromQueue.

(** Whatever [_handle] adds to the table is the file of its request or of
    a pending request. *)
Lemma handle_keys (ext : External) (depth : nat) :
  forall obj, preserves (keys_from_queue [file obj]) (_handle ext depth obj).
Proof.
  induction depth as [| depth IH]; intros obj w r w' H.
  - inversion H; subst. reflexivity.
  - rewrite handle_unfold in H. unfold bind at 1, get at 1 in H.
    destruct (dict_has (_loaded (loader w)) (file obj)) eqn:Hhas.
    { inversion H; subst. reflexivity. }
    unfold bind at 1, log_msg at 1, modify at 1 in H.
    set (w1 := set_log (log w ++ [(INFO, MsgMappingPE obj)]) w) in H.
    unfold bind at 1 in H.
    destruct (_pick_base ext obj (ext_parse ext (file obj)) w1)
      as [[b | e] w2] eqn:Hpick.
    2:{ inversion H; subst.
        apply same_loader_keys, same_but_log_random_loader.
        apply (preserves_pick_base ext) in Hpick. exact Hpick. }
    assert (Hl2 : loader w2 = loader w).
    { apply (preserves_pick_base ext) in Hpick.
      apply same_but_log_random_loader in Hpick. exact Hpick. }
    destruct (ext_parse ext (file obj)) as [parsed |].
    2:{ inversion H; subst. apply same_loader_keys. exact Hl2. }
    unfold bind at 1, modify at 1 in H.
    set (w3 := set_loader _ w2) in H.
    assert (H23 : keys_from_queue [file obj] w2 w3).
    { split; [reflexivity |]. intros k Hk. subst w3. simpl in Hk.
      destruct (String.eqb_spec k (file obj)) as [-> | Hne].
      - right. left. left. reflexivity.
      - left. apply dict_has_keys. apply dict_has_keys in Hk.
        unfold dict_has in *. rewrite dict_get_set_ne in Hk by exact Hne.
        exact Hk. }
    assert (H3 : keys_from_queue [file obj] w3 w').
    { refine ((_ : preserves (keys_from_queue [file obj])
        (_map_headers ext obj ;;
         for_each (sections parsed) (fun section => _map_section ext section obj) ;;
         _handle_iats (_handle ext depth) obj ;;
         _handle_reloc obj)) w3 r w' H).
      pbind.
      { eapply preserves_weaken;
          [apply same_loader_keys | apply preserves_map_headers]. }
      intros _. pbind.
      { apply (preserves_for_each (keys_from_queue [file obj])). intros section.
        eapply preserves_weaken;
          [apply same_loader_keys | apply preserves_map_section]. }
      intros _. pbind.
      { eapply preserves_weaken; [apply keys_from_queue_extra |].
        apply handle_iats_keys. exact IH. }
      intros _.
      eapply preserves_weaken;
        [apply same_loader_keys | apply preserves_handle_reloc]. }
    transitivity w2; [apply same_loader_keys; exact Hl2 |].
    transitivity w3; assumption.
Qed.

(** A dependency whose name neither a key of the table nor the path of a
    pending request contains: one warning, and nothing else. *)
Lemma handle_dependency_missing (handle : PELoaderInfo -> M unit)
    (pefile : PELoaderInfo) (dependency : Import) (w : World) :
  (forall k, In k (dict_keys (_loaded (loader w))) ->
             str_in (import_name dependency) k = false) ->
  (forall item, In item (_interact_queue (loader_plugin (loader w))) ->
                str_in (import_name dependency) (file item) = false) ->
  handle_dependency handle pefile dependency w =
  log_msg WARNING (MsgDependencyNotFound (import_name dependency) pefile) w.
Proof.
  intros Hkeys Hqueue. unfold handle_dependency.
  change (bind get ?k w) with (k w w). cbv beta. unfold bind at 1.
  rewrite scan_loaded_no_pending
    by (apply find_none_all; exact Hqueue).
  unfold walk_outcome, mapped_candidate.
  rewrite (find_none_all _ _ Hkeys). reflexivity.
Qed.

(** X20: a dependency that is nowhere is skipped.  When neither a key of
    the table nor the path of a pending request contains the name of a
    dependency, [_handle_iats] resolves the dependencies before it, logs one
    warning for it, writes nothing for it, and goes on with the dependencies
    after it - whatever the earlier ones have loaded meanwhile.  When that
    holds of every dependency of the image, [_handle_iats] returns, having
    logged one warning per dependency and changed nothing else. *)
Theorem handle_iats_skips_missing_dependency (ext : External) (depth : nat)
    (X : PELoaderInfo) (mx : MappedPE) (w : World) :
  ready (loader_plugin (loader w)) = true ->
  dict_get (_loaded (loader w)) (file X) = Some mx ->
  let nowhere := fun dependency : Import =>
    (forall k, In k (dict_keys (_loaded (loader w))) ->
               str_in (import_name dependency) k = false) /\
    (forall item, In item (_interact_queue (loader_plugin (loader w))) ->
                  str_in (import_name dependency) (file item) = false) in
  let resolve := handle_dependency (_handle ext depth) X in
  (forall before dependency after,
      imports (pe mx) = (before ++ dependency :: after)%list ->
      nowhere dependency ->
      _handle_iats (_handle ext depth) X w =
      (for_each before resolve ;;
       log_msg WARNING (MsgDependencyNotFound (import_name dependency) X) ;;
       for_each after resolve) w) /\
  ((forall dependency, In dependency (imports (pe mx)) -> nowhere dependency) ->
   _handle_iats (_handle ext depth) X w =
   (Ok tt,
    set_log (log w ++ map (fun dependency =>
                             (WARNING,
                              MsgDependencyNotFound (import_name dependency) X))
                          (imports (pe mx))) w)).
Proof.
  intros Hr Hx nowhere resolve.
  assert (Hrun : _handle_iats (_handle ext depth) X w
                 = for_each (imports (pe mx)) resolve w).
  { unfold _handle_iats. unfold bind at 1, self_ready at 1. rewrite Hr.
    cbn [negb]. unfold bind at 1, loaded_item_of at 1. rewrite Hx. reflexivity. }
  split.
  - intros before dependency after Himports (Hkeys & Hqueue).
    rewrite Hrun, Himports, for_each_app.
    destruct (for_each before resolve w) as [[[] | e] wa] eqn:Hbefore.
    2:{ rewrite !(bind_raise _ _ _ _ _ Hbefore). reflexivity. }
    rewrite !(bind_ok _ _ _ _ _ Hbefore).
    assert (Hk : keys_from_queue [] w wa).
    { revert Hbefore. apply (preserves_for_each (keys_from_queue [])).
      intros d. apply handle_dependency_keys. intros item. apply handle_keys. }
    destruct Hk as (Hq & Hk).
    cbn [for_each]. apply bind_cong. unfold resolve.
    apply handle_dependency_missing.
    + intros k Hin. destruct (Hk k Hin) as [Hw | [[] | Hfile]].
      * apply Hkeys, Hw.
      * apply in_map_iff in Hfile. destruct Hfile as (item & <- & Hitem).
        apply Hqueue, Hitem.
    + intros item Hin. rewrite Hq in Hin. apply Hqueue, Hin.
  - intros Hall. rewrite Hrun. clear Hrun Hx Hr.
    assert (Hgen : forall deps l,
              (forall dependency, In dependency deps -> nowhere dependency) ->
              for_each deps resolve (set_log l w) =
              (Ok tt,
               set_log (l ++ map (fun dependency =>
                                    (WARNING,
                                     MsgDependencyNotFound
                                       (import_name dependency) X)) deps) w)).
    { induction deps as [| d deps IH]; intros l Hdeps.
      - simpl. rewrite app_nil_r. reflexivity.
      - simpl for_each. unfold bind. unfold resolve at 1.
        destruct (Hdeps d (or_introl eq_refl)) as (Hkeys & Hqueue).
        rewrite handle_dependency_missing by assumption.
        unfold log_msg, modify. cbn [log set_log].
        change (set_log ?l2 (set_log l w)) with (set_log l2 w).
        rewrite IH by (intros d' Hd'; apply Hdeps; right; exact Hd').
        simpl map. rewrite <- app_assoc. reflexivity. }
    specialize (Hgen (imports (pe mx)) (log w) Hall).
    replace (set_log (log w) w) with w in Hgen by (destruct w; reflexivity).
    exact Hgen.
Qed.

(** ** Instances and counterexamples *)

(** C2, counterexample: [z.dll] and [aa.dll] are mapped, [lib/a.dll] is
    pending, and [x.exe] imports [f] from [a.dll].  No mapped image has the
    file identity [a.dll]; the pending request is found and loaded; yet the
    slot of [f] receives the export of [aa.dll], whose key merely contains
    the name, and not that of the request loaded from the queue. *)
Lemma dependency_lookup_counterexample :
  let before := after_loading [request "lib/a.dll"] ["z.dll"; "aa.dll"] in
  let run := _handle sample_ext 3 (request "x.exe") before in
  dict_has (_loaded (loader before)) "a.dll" = false /\
  queue_candidate "a.dll" (_interact_queue (loader_plugin (loader before)))
    = Some (request "lib/a.dll") /\
  fst run = Ok tt /\
  bases (snd run) = [("z.dll", 0x20000); ("aa.dll", 0x30000);
                     ("x.exe", 0x60000); ("lib/a.dll", 0x50000)] /\
  read_word (mem (snd run)) (0x60000 + 0x40) = 0x30000 + 0x100 /\
  read_word (mem (snd run)) (0x60000 + 0x40) <> 0x50000 + 0x200.
Proof. vm_compute. repeat split; try reflexivity. discriminate. Qed.

(** C3, counterexample: for the high-entropy library [h.dll] the first
    candidate (draw 1) is taken; the base returned is the candidate of the
    first retry (draw 2), and it contains the floor constant again, while the
    preferred base is no longer part of it. *)
Lemma aslr_retry_counterexample :
  let obj := mkInfo "h.dll" None true in
  let run := _pick_base sample_ext obj (Some h_dll) first_candidate_taken in
  base_free sample_ext (mem first_candidate_taken)
            (0x7ff000000000 + Z.shiftl 1 16 + imagebase h_dll) h_dll = false /\
  fst run = Ok (0x7ff000000000 + Z.shiftl 2 16) /\
  random_draws (snd run) = 2%nat /\
  0x7ff000000000 + Z.shiftl 2 16 <> Z.shiftl 2 16 + imagebase h_dll /\
  0x7ff000000000 + Z.shiftl 2 16 <> Z.shiftl 2 16.
Proof. vm_compute. repeat split; try reflexivity; discriminate. Qed.

(** C4, counterexample: [a.exe] is mapped at 0x10000 with virtual size
    0x5000, as a header segment and one section that leave a gap; [b.exe],
    of virtual size 0x1000, is then mapped at its preferred base 0x13000,
    inside the range of [a.exe]: no segment of the memory is in the way, and
    the table is not asked. *)
Lemma mapped_ranges_overlap_counterexample :
  let run := for_each (map request ["a.exe"; "b.exe"]) (_handle sample_ext 3)
                      (attached_world []) in
  let image_a := mkMapped (request "a.exe") 0x10000 a_exe in
  let image_b := mkMapped (request "b.exe") 0x13000 b_exe in
  fst run = Ok tt /\
  _loaded (loader (snd run)) = [("a.exe", image_a); ("b.exe", image_b)] /\
  image_ranges_overlap image_a image_b = true.
Proof. vm_compute. repeat split; reflexivity. Qed.


Lemma handle_dependency_lookup_witness :
  let a_dep := mkImport "a.dll" [mkImportEntry "f" 0x40] in
  let none_dep := mkImport "nowhere.dll" [mkImportEntry "f" 0x40] in
  let pending := request "lib/a.dll" in
  let importer := request "z.dll" in
  let both := after_loading [pending] ["z.dll"; "aa.dll"] in
  let mapped_only := after_loading [] ["z.dll"; "aa.dll"] in
  let pending_only := after_loading [pending] ["z.dll"] in
  (* a mapped key contains the name, nothing pending does *)
  handle_dependency (_handle sample_ext 1) importer a_dep mapped_only
    = (m <- loaded_item_of "aa.dll" ;; _load_iat importer a_dep m) mapped_only /\
  (* a later mapped key contains the name, and a pending path does too *)
  handle_dependency (_handle sample_ext 1) importer a_dep both
    = (_handle sample_ext 1 pending ;;
       m <- loaded_item_of "aa.dll" ;; _load_iat importer a_dep m) both /\
  (* only a pending path contains the name *)
  handle_dependency (_handle sample_ext 1) importer a_dep pending_only
    = (_handle sample_ext 1 pending ;;
       m <- loaded_item_of "lib/a.dll" ;; _load_iat importer a_dep m) pending_only /\
  (* nothing contains the name *)
  handle_dependency (_handle sample_ext 1) importer none_dep both
    = (Ok tt, set_log (log both ++ [(WARNING, MsgDependencyNotFound "nowhere.dll"
                                                importer)]) both).
Proof.
  intros a_dep none_dep pending importer both mapped_only pending_only.
  split; [| split; [| split]].
  - apply (proj1 (proj2 (handle_dependency_lookup sample_ext 0 importer a_dep
                           mapped_only)) "aa.dll").
    + reflexivity.
    + left. reflexivity.
  - apply (proj1 (proj2 (proj2 (handle_dependency_lookup sample_ext 0 importer a_dep
                                  both))) "aa.dll" pending "z.dll");
      reflexivity.
  - apply (proj1 (proj2 (proj2 (proj2 (handle_dependency_lookup sample_ext 0 importer
                                         a_dep pending_only)))) pending).
    + discriminate.
    + reflexivity.
    + reflexivity.
  - apply (proj2 (proj2 (proj2 (proj2 (handle_dependency_lookup sample_ext 0 importer
                                         none_dep both)))));
      reflexivity.
Defined.

Lemma aslr_path_candidates_witness :
  ready (loader_plugin (loader first_candidate_taken)) = true /\
  is_pie h_dll = true /\
  fst (pick_aslr_base sample_ext (mkInfo "h.dll" None true) h_dll
                      first_candidate_taken)
  = Ok (Some (0x7ff000000000 + Z.shiftl 2 16)).
Proof.
  split; [reflexivity |]. split; [reflexivity |].
  destruct (aslr_path_candidates sample_ext (mkInfo "h.dll" None true) h_dll
              first_candidate_taken eq_refl eq_refl)
    as (_ & w' & Hrun & _).
  rewrite Hrun. reflexivity.
Defined.

Lemma pick_base_free_in_memory_witness :
  let w := after_loading [] ["a.exe"] in
  let run := _pick_base sample_ext (request "b.exe") (Some b_exe) w in
  run = (Ok 0x13000, snd run) /\
  ext_is_mapped sample_ext (mem w) 0x13000 (virtual_size b_exe) = false /\
  mem (snd run) = mem w.
Proof.
  intros w run.
  assert (Hrun : run = (Ok 0x13000, snd run)) by (vm_compute; reflexivity).
  split; [exact Hrun |].
  destruct (pick_base_free_in_memory sample_ext (request "b.exe") b_exe w
              (snd run) 0x13000 Hrun) as (Hfree & _ & Hmem & _).
  split; [exact Hfree | exact Hmem].
Defined.

Lemma handle_bad_placement_atomic_witness :
  let w := after_loading [] ["a.exe"] in
  ready (loader_plugin (loader w)) = true /\
  dict_has (_loaded (loader w)) "c.exe" = false /\
  base_free sample_ext (mem w) (imagebase c_exe) c_exe = false /\
  is_pie c_exe = false /\
  exists w',
    _handle sample_ext 1 (request "c.exe") w = (Raise HSPluginBadStateError, w') /\
    loader w' = loader w /\ mem w' = mem w /\ stream_mapper w' = stream_mapper w /\
    enforce_memory w' = enforce_memory w /\ enforced w' = enforced w.
Proof.
  intros w.
  assert (H1 : ready (loader_plugin (loader w)) = true) by reflexivity.
  assert (H2 : dict_has (_loaded (loader w)) (file (request "c.exe")) = false)
    by reflexivity.
  assert (H3 : base_free sample_ext (mem w) (imagebase c_exe) c_exe = false)
    by reflexivity.
  assert (H4 : is_pie c_exe = false) by reflexivity.
  repeat (split; [assumption |]).
  exact (handle_bad_placement_atomic sample_ext 0 (request "c.exe") c_exe w
           H1 H2 eq_refl (or_introl eq_refl) (or_introl H3) (or_introl H4)).
Defined.

Lemma handle_repeated_request_noop_witness :
  let w := after_loading [] ["a.exe"] in
  let again := mkInfo "a.exe" (Some 0x999000) true in
  dict_get (_loaded (loader w)) "a.exe"
    = Some (mkMapped (request "a.exe") 0x10000 a_exe) /\
  _handle sample_ext 3 (request "a.exe") (attached_world []) = (Ok tt, w) /\
  _handle sample_ext 1 again w = (Ok tt, w) /\
  _handle sample_ext 1 again w = (Ok tt, w).
Proof.
  intros w again.
  assert (H1 : dict_get (_loaded (loader w)) (file again)
               = Some (mkMapped (request "a.exe") 0x10000 a_exe))
    by reflexivity.
  assert (H2 : _handle sample_ext 3 (request "a.exe") (attached_world [])
               = (Ok tt, w)) by (vm_compute; reflexivity).
  split; [exact H1 |]. split; [exact H2 |].
  destruct (handle_repeated_request_noop sample_ext 0 again w) as (Hnoop & Hsecond).
  pose proof (Hsecond 3%nat (request "a.exe") (attached_world []) H2 eq_refl)
    as Hagain.
  exact (conj (Hnoop _ H1) Hagain).
Defined.

Lemma handle_reloc_rewrites_witness :
  let pefile := mkInfo "h.dll" (Some 0x200000000) false in
  let m := mkMapped pefile 0x200000000 h_dll in
  ready (loader_plugin (loader h_moved)) = true /\
  dict_get (_loaded (loader h_moved)) "h.dll" = Some m /\
  exists w',
    _handle_reloc pefile h_moved = (Ok tt, w') /\
    read_word (mem w') (0x200000000 + 0x1000 + 0x10) =
      read_word (mem h_moved) (0x200000000 + 0x1000 + 0x10)
      - 0x180000000 + 0x200000000 /\
    read_word (mem w') (0x200000000 + 0x1000 + 0x18) =
      read_word (mem h_moved) (0x200000000 + 0x1000 + 0x18).
Proof.
  intros pefile m.
  assert (H1 : ready (loader_plugin (loader h_moved)) = true) by reflexivity.
  assert (H2 : dict_get (_loaded (loader h_moved)) (file pefile) = Some m)
    by reflexivity.
  split; [exact H1 |]. split; [exact H2 |].
  destruct (handle_reloc_rewrites pefile m h_moved H1 H2)
    as (w' & Hrun & _ & _ & _ & Hskip & Honce & _).
  exists w'. split; [exact Hrun |]. split.
  - apply (Honce (0x200000000 + 0x1000 + 0x10)). reflexivity.
  - apply (Hskip (0x200000000 + 0x1000 + 0x18)). vm_compute.
    intros [H | [H | []]]; discriminate H.
Defined.


Lemma pick_base_honours_user_base_witness :
  let obj := mkInfo "h.dll" (Some 0x200000000) false in
  _pick_base sample_ext obj (Some h_dll) (attached_world [])
  = (Ok 0x200000000, attached_world []).
Proof.
  intros obj.
  apply (pick_base_honours_user_base sample_ext obj h_dll (attached_world [])
           0x200000000); reflexivity.
Defined.

Lemma nonrelocatable_only_at_preferred_witness :
  let obj := mkInfo "c.exe" (Some 0x90000) false in
  is_pie c_exe = false /\
  exists w',
    _pick_base sample_ext obj (Some c_exe) (attached_world []) = (Ok 0x10000, w') /\
    same_but_log_random (attached_world []) w' /\
    random_draws w' = 0%nat.
Proof.
  intros obj. split; [reflexivity |].
  exact (nonrelocatable_only_at_preferred sample_ext obj c_exe (attached_world [])
           eq_refl eq_refl).
Defined.

Lemma unattached_stages_refuse_witness :
  ready (loader_plugin (loader unattached_world)) = false /\
  _pick_base sample_ext (request "a.exe") (Some a_exe) unattached_world
  = (Raise HSPluginInteractNotReadyError, unattached_world) /\
  _map_headers sample_ext (request "a.exe") unattached_world
  = (Raise HSPluginInteractNotReadyError, unattached_world).
Proof.
  split; [reflexivity |].
  destruct (unattached_stages_refuse sample_ext unattached_world eq_refl)
    as (_ & Hpick & Hhead & _).
  split; [apply Hpick | apply Hhead].
Defined.

Lemma handle_early_failures_witness :
  _handle sample_ext 1 (request "a.exe") unattached_world
  = (Raise HSPluginInteractNotReadyError,
     set_log [(INFO, MsgMappingPE (request "a.exe"))] unattached_world) /\
  _handle sample_ext 1 (request "no.such.file") (attached_world [])
  = (Raise AttributeError,
     set_log [(INFO, MsgMappingPE (request "no.such.file"))] (attached_world [])).
Proof.
  split.
  - exact (handle_early_failures sample_ext 0 (request "a.exe") unattached_world
             eq_refl (or_introl eq_refl)).
  - exact (handle_early_failures sample_ext 0 (request "no.such.file")
             (attached_world []) eq_refl (or_intror eq_refl)).
Defined.

Lemma handle_failure_keeps_entry_witness :
  _stream_mapper (loader unprepared_world) = false /\
  exists w',
    _handle sample_ext 1 (request "a.exe") unprepared_world
    = (Raise AttributeError, w') /\
    bases w' = [("a.exe", 0x10000)] /\
    segments (mem w') = [] /\
    _handle sample_ext 1 (request "a.exe") w' = (Ok tt, w').
Proof.
  split; [reflexivity |].
  destruct (handle_failure_keeps_entry sample_ext 0 (request "a.exe") a_exe
              unprepared_world 0x10000 eq_refl eq_refl eq_refl eq_refl eq_refl)
    as (w' & Hrun & Htable & Hmem & _ & Hagain).
  exists w'. split; [exact Hrun |]. split; [| split].
  - unfold bases. rewrite Htable. reflexivity.
  - rewrite Hmem. reflexivity.
  - apply (Hagain 0%nat (request "a.exe")). reflexivity.
Defined.

Lemma getitem_after_handle_witness :
  let obj := mkInfo "h.dll" (Some 0x200000000) false in
  _handle sample_ext 1 obj (attached_world []) = (Ok tt, h_moved) /\
  PELoader__getitem__ "h.dll" h_moved
  = (Ok (mkMapped obj 0x200000000 h_dll), h_moved) /\
  PELoader__getitem__ "a.exe" h_moved = (Raise KeyError, h_moved).
Proof.
  intros obj.
  assert (H : _handle sample_ext 1 obj (attached_world []) = (Ok tt, h_moved))
    by (vm_compute; reflexivity).
  split; [exact H |].
  destruct (getitem_after_handle sample_ext 0 obj h_dll (attached_world []) h_moved
              eq_refl eq_refl eq_refl H)
    as (b & Hitem & _ & Huser & _ & Hmissing).
  assert (Hb : b = 0x200000000) by (apply Huser; reflexivity).
  subst b. split; [exact Hitem |].
  apply Hmissing. reflexivity.
Defined.

Lemma handle_reloc_edges_witness :
  let mapped := after_loading [] ["a.exe"] in
  _handle_reloc (request "b.exe") mapped = (Raise KeyError, mapped) /\
  _handle_reloc (request "a.exe") mapped = (Ok tt, mapped) /\
  _handle_reloc (request "h.dll") unattached_with_h
  = (Raise AttributeError, unattached_with_h).
Proof.
  intros mapped. split; [| split].
  - apply (proj1 (handle_reloc_edges (request "b.exe") mapped)). reflexivity.
  - apply (proj1 (proj2 (handle_reloc_edges (request "a.exe") mapped))
             (mkMapped (request "a.exe") 0x10000 a_exe)); reflexivity.
  - apply (proj2 (proj2 (handle_reloc_edges (request "h.dll") unattached_with_h))
             (mkMapped (request "h.dll") 0x180000000 h_dll)).
    + reflexivity.
    + discriminate.
    + reflexivity.
Defined.

Lemma handle_reloc_twice_witness :
  let pefile := mkInfo "h.dll" (Some 0x200000000) false in
  let slot := 0x200000000 + 0x1000 + 0x10 in
  exists w1 w2,
    _handle_reloc pefile h_moved = (Ok tt, w1) /\
    _handle_reloc pefile w1 = (Ok tt, w2) /\
    read_word (mem w2) slot = read_word (mem h_moved) slot + 2 * 0x80000000.
Proof.
  intros pefile slot.
  destruct (handle_reloc_twice pefile (mkMapped pefile 0x200000000 h_dll) h_moved
              eq_refl eq_refl)
    as (w1 & w2 & H1 & H2 & Hall & _).
  exists w1, w2. split; [exact H1 |]. split; [exact H2 |].
  rewrite (Hall slot). reflexivity.
Defined.

Lemma load_iat_last_export_wins_witness :
  let lib := mkMapped (request "dup.dll") 0x80000 dup_dll in
  let dependency := mkImport "dup.dll" [mkImportEntry "f" 0x40] in
  get_export dup_dll
  = Some (mkExport [mkExportEntry "f" 0x100; mkExportEntry "f" 0x300]) /\
  exists w',
    _load_iat (request "x.exe") dependency lib dup_world = (Ok tt, w') /\
    read_word (mem w') (0x60000 + 0x40) = 0x80000 + 0x300.
Proof.
  intros lib dependency. split; [reflexivity |].
  apply (load_iat_last_export_wins (request "x.exe") dependency lib
           (mkMapped (request "x.exe") 0x60000 x_exe) lib dup_world
           [mkExportEntry "f" 0x100] [] (mkExportEntry "f" 0x300)
           [] [] (mkImportEntry "f" 0x40)); try reflexivity.
  - intros e [].
  - intros later [].
Defined.

Lemma MappedPE_function_first_match_witness :
  let code := mkCode 0x1000 [mkFunction "f" 0x10]
                     [mkFunction "f" 0x20; mkFunction "g" 0x30] in
  MappedPE_function a_mapped code "f" = (Some (0x10000 + 0x10), []) /\
  MappedPE_function a_mapped code "g" = (Some (0x10000 + 0x30), []) /\
  MappedPE_function a_mapped code "h"
  = (None, [(ERROR, "Function h not found")]).
Proof.
  intros code. split; [| split].
  - apply (proj1 (MappedPE_function_first_match a_mapped code "f")
             [] (mkFunction "f" 0x10) [mkFunction "f" 0x20; mkFunction "g" 0x30]).
    + reflexivity.
    + reflexivity.
    + intros g [].
  - apply (proj1 (MappedPE_function_first_match a_mapped code "g")
             [mkFunction "f" 0x10; mkFunction "f" 0x20] (mkFunction "g" 0x30) []).
    + reflexivity.
    + reflexivity.
    + intros g [<- | [<- | []]]; discriminate.
  - apply (proj2 (proj2 (MappedPE_function_first_match a_mapped code "h"))).
    intros g [<- | [<- | [<- | []]]]; discriminate.
Defined.

Lemma plugin_queue_then_flush_witness :
  let text := section_request (request "a.exe") a_mapped AccessType_RWX text_section in
  let w' := snd ((Plugin_interact (StreamMapperClass sample_ext) [text] ;;
                  Plugin_interact (StreamMapperClass sample_ext) [] ;;
                  Plugin_prepare (StreamMapperClass sample_ext) TheEmu)
                   queued_world) in
  lawful (StreamMapperClass sample_ext) /\
  ready (stream_mapper queued_world) = false /\
  stream_mapper w' = mkPlugin [] (Some TheEmu) /\
  map seg_start (segments (mem w')) = [0x10000; 0x11000].
Proof.
  intros text w'.
  assert (Hlaw : lawful (StreamMapperClass sample_ext)) by (split; reflexivity).
  split; [exact Hlaw |]. split; [reflexivity |].
  unfold w'.
  rewrite (plugin_queue_then_flush (StreamMapperClass sample_ext) [text] [] TheEmu
             queued_world Hlaw eq_refl).
  split; reflexivity.
Defined.

Lemma plugin_failed_flush_not_retried_witness :
  let w1 := set_stream_mapper
              (mkPlugin [header_request (request "a.exe") a_mapped] (Some TheEmu))
              queued_world in
  lawful FailingClass /\
  Plugin_prepare FailingClass TheEmu queued_world = (Raise KeyError, w1) /\
  Plugin_prepare FailingClass TheEmu w1 = (Ok tt, w1).
Proof.
  intros w1.
  assert (Hlaw : lawful FailingClass) by (split; reflexivity).
  split; [exact Hlaw |].
  destruct (plugin_failed_flush_not_retried FailingClass TheEmu queued_world w1
              KeyError Hlaw eq_refl eq_refl eq_refl)
    as (Hfirst & _ & Hlater).
  split; [exact Hfirst | apply Hlater].
Defined.

Lemma handle_table_append_only_witness :
  let w0 := attached_world [request "lib/a.dll"] in
  let w := after_loading [request "lib/a.dll"] ["x.exe"] in
  _handle sample_ext 3 (request "x.exe") w0 = (Ok tt, w) /\
  loader_plugin (loader w) = loader_plugin (loader w0) /\
  exists added,
    _loaded (loader w) = added /\
    List.NoDup (dict_keys added) /\
    In "x.exe" (dict_keys added).
Proof.
  intros w0 w.
  assert (H : _handle sample_ext 3 (request "x.exe") w0 = (Ok tt, w))
    by (vm_compute; reflexivity).
  split; [exact H |].
  destruct (handle_table_append_only sample_ext 3 (request "x.exe") w0 (Ok tt) w H)
    as (Hq & added & He & _ & Hn & _ & _ & Hin).
  split; [exact Hq |]. exists added.
  split; [exact He |]. split; [exact Hn |].
  apply Hin; reflexivity.
Defined.

Lemma handle_depth_independent_witness :
  let w0 := attached_world [request "lib/a.dll"] in
  pending_unloaded w0 = 1%nat /\
  _handle sample_ext 3 (request "x.exe") w0
  = _handle sample_ext 7 (request "x.exe") w0 /\
  fst (_handle sample_ext 3 (request "x.exe") w0) <> Raise RecursionError.
Proof.
  intros w0. split; [reflexivity |].
  assert (H3 : (pending_unloaded w0 + 1 < 3)%nat) by (apply Nat.ltb_lt; reflexivity).
  assert (H7 : (pending_unloaded w0 + 1 < 7)%nat) by (apply Nat.ltb_lt; reflexivity).
  exact (handle_depth_independent sample_ext 3 7 (request "x.exe") w0 H3 H7).
Defined.

Lemma handle_import_free_image_witness :
  imports a_exe = [] /\
  exists w',
    _handle sample_ext 1 (request "a.exe") (attached_world []) = (Ok tt, w') /\
    bases w' = [("a.exe", 0x10000)] /\
    map seg_start (segments (mem w')) = [0x10000; 0x11000] /\
    map seg_perms (segments (mem w')) = [AccessType_R; mkAccess true false true].
Proof.
  split; [reflexivity |].
  destruct (handle_import_free_image sample_ext 0 (request "a.exe") a_exe
              (attached_world []) 0x10000
              eq_refl eq_refl eq_refl eq_refl eq_refl eq_refl eq_refl)
    as (w' & Hrun & Htable & _ & Hsegs & _).
  exists w'. split; [exact Hrun |]. split; [| split].
  - unfold bases. rewrite Htable. reflexivity.
  - rewrite Hsegs. reflexivity.
  - rewrite Hsegs. reflexivity.
Defined.

Lemma map_section_enforced_witness :
  exists w',
    _map_section sample_ext text_section (request "a.exe") queued_world
    = (Ok tt, w') /\
    stream_mapper w' = mkPlugin [] (Some TheEmu) /\
    map seg_start (segments (mem w')) = [0x10000; 0x11000] /\
    map seg_perms (segments (mem w')) = [AccessType_R; AccessType_RWX] /\
    map enforce_perms (enforced w') = [mkAccess true false true].
Proof.
  destruct (map_section_enforced sample_ext text_section (request "a.exe") a_mapped
              queued_world eq_refl eq_refl eq_refl eq_refl)
    as (w' & Hrun & _ & Hmem & Hsm & _ & Henf).
  exists w'. split; [exact Hrun |]. split; [exact Hsm |].
  split; [rewrite Hmem; reflexivity |]. split; [rewrite Hmem; reflexivity |].
  rewrite Henf. reflexivity.
Defined.

Lemma load_iat_skips_missing_symbols_witness :
  let w := after_loading [request "lib/a.dll"] ["x.exe"] in
  let X := request "x.exe" in
  let lib := mkMapped (request "lib/a.dll") 0x50000 a_dll in
  let dependency := mkImport "a.dll" [mkImportEntry "g" 0x48; mkImportEntry "f" 0x40] in
  get_export a_dll = Some (mkExport [mkExportEntry "f" 0x200]) /\
  exists w',
    _load_iat X dependency lib w = (Ok tt, w') /\
    log w' = (log w ++ [(ERROR, MsgMissingSymbol "a.dll" "g" X);
                        (DEBUG, MsgLoadingIAT "a.dll" "f" X)])%list /\
    read_word (mem w') (0x60000 + 0x48) = read_word (mem w) (0x60000 + 0x48) /\
    read_word (mem w') (0x60000 + 0x40) = 0x50000 + 0x200.
Proof.
  intros w X lib dependency. split; [reflexivity |].
  destruct (load_iat_skips_missing_symbols X dependency lib
              (mkMapped X 0x60000 x_exe) lib
              (mkExport [mkExportEntry "f" 0x200]) w
              eq_refl eq_refl eq_refl eq_refl)
    as (w' & Hrun & Hlog & _ & _ & Hkeep & Hslot).
  exists w'. split; [exact Hrun |]. split; [exact Hlog |]. split.
  - apply Hkeep. intros entry [<- | [<- | []]] Hknown.
    + exfalso. apply Hknown. reflexivity.
    + discriminate.
  - apply (Hslot [mkImportEntry "g" 0x48] (mkImportEntry "f" 0x40) []
                 (mkExportEntry "f" 0x200)).
    + reflexivity.
    + reflexivity.
    + intros later [].
Defined.

Lemma handle_iats_skips_missing_dependency_witness :
  let X := request "t.exe" in
  let to_k := mkImport "k.dll" [mkImportEntry "g" 0x48] in
  let to_a := mkImport "a.dll" [mkImportEntry "f" 0x40; mkImportEntry "missing" 0x58] in
  let resolve := handle_dependency (_handle wide_ext 3) X in
  imports t_exe = [to_k; to_a; mkImport "nowhere.dll" [mkImportEntry "h" 0x50]] /\
  _handle_iats (_handle wide_ext 3) X t_entered =
  (for_each [to_k; to_a] resolve ;;
   log_msg WARNING (MsgDependencyNotFound "nowhere.dll" X) ;;
   for_each [] resolve) t_entered /\
  fst (_handle_iats (_handle wide_ext 3) X t_entered) = Ok tt.
Proof.
  intros X to_k to_a resolve. split; [reflexivity |]. split.
  - apply (proj1 (handle_iats_skips_missing_dependency wide_ext 3 X
                    (mkMapped X 0x60000 t_exe) t_entered eq_refl eq_refl)
                 [to_k; to_a] (mkImport "nowhere.dll" [mkImportEntry "h" 0x50]) []).
    + reflexivity.
    + split.
      * intros k [<- | []]. reflexivity.
      * intros item [<- | [<- | []]]; reflexivity.
  - vm_compute. reflexivity.
Defined.
